(** * IAVL v2 prototype: node pool and versioned tree

    A shallow embedding of [nodePool] (pool of [Node] slots with a FIFO free
    list) and of the mutation engine [Tree] ([Set], [Remove], [SaveVersion],
    [Size], [Height] and the helpers they call), followed by the properties
    of the specification that concern them.

    Conventions.
    - A Go byte slice is an [option (list byte)], [None] being the nil slice.
    - Fixed-width integers are [Z] with the wrap-around written out.
    - A [*Node] that is reachable from the tree is the node value itself; its
      children are owned sub-values ([None] is the nil pointer).  A function
      that mutates a node through its pointer returns the mutated node.
    - A call either returns, panics, blocks on the free-list channel, or
      needs a node that is not resident in memory (the lazy fetch through the
      node store is outside the sources). *)

From Stdlib Require Import ZArith String Strings.Byte List Lia Bool.
From stdpp Require Import base list gmap.
Import ListNotations.

Set Implicit Arguments.
Set Warnings "-register-all".
Local Open Scope Z_scope.

(** ** Byte slices *)

Definition slice := option (list byte).

Definition elems (s : slice) : list byte :=
  match s with Some l => l | None => [] end.

Definition str (s : string) : slice := Some (list_byte_of_string s).

Fixpoint lex (a b : list byte) : comparison :=
  match a, b with
  | [], [] => Eq
  | [], _ :: _ => Lt
  | _ :: _, [] => Gt
  | x :: a', y :: b' =>
      match N.compare (to_N x) (to_N y) with
      | Eq => lex a' b'
      | c => c
      end
  end.

(** [bytes.Compare]: -1, 0, +1 are [Lt], [Eq], [Gt]; nil equals empty. *)
Definition Compare (a b : slice) : comparison := lex (elems a) (elems b).

(** [bytes.Equal]. *)
Definition Equal (a b : slice) : bool :=
  match Compare a b with Eq => true | _ => false end.

Fixpoint prefixb (p s : list byte) : bool :=
  match p, s with
  | [], _ => true
  | _ :: _, [] => false
  | x :: p', y :: s' => if N.eqb (to_N x) (to_N y) then prefixb p' s' else false
  end.

(** [bytes.HasPrefix s prefix]. *)
Definition HasPrefix (s p : slice) : bool := prefixb (elems p) (elems s).

(** ** Fixed-width integers *)

Definition wrap_u (w : Z) (z : Z) : Z := z mod 2 ^ w.
Definition wrap_s (w : Z) (z : Z) : Z := (z + 2 ^ (w - 1)) mod 2 ^ w - 2 ^ (w - 1).

Definition i8 := wrap_s 8.
Definition i64 := wrap_s 64.
Definition u32 := wrap_u 32.
Definition u64 := wrap_u 64.

(** ** Node keys, digests, nodes *)

(** Modelled from the spec: the declaration of [NodeKey] is not part of the
    sources; section 3 gives it as the pair (version : i64, sequence : u32)
    with the all-zero value as the empty key. *)
Record NodeKey := NewNodeKey { Version : Z; Sequence : Z }.

Definition emptyNodeKey : NodeKey := NewNodeKey 0 0.

Definition NodeKey_eqb (a b : NodeKey) : bool :=
  Z.eqb (Version a) (Version b) && Z.eqb (Sequence a) (Sequence b).

(** Modelled from the spec: the hash function of a node ([_hash] and the
    encoding it digests) is not part of the sources.  Section 4.3 makes the
    digest a SHA-256 over height, size, version, key and then the value (leaf)
    or the two child hashes (inner node).  The digest is kept symbolic: it is
    the tuple that is hashed, so two digests agree exactly when the hashed
    contents agree. *)
Inductive Digest :=
| LeafDigest (height size version : Z) (key value : slice)
| InnerDigest (height size version : Z) (key : slice) (l r : option Digest).

(** The fields of [Node] that the sources read or write ([nodePool.resetNode],
    [Tree.NewNode], [Tree.recursiveSet], [Tree.buildCheckpoint]). *)
Inductive Node := mkNode {
  nodeKey : NodeKey;
  leftNodeKey : NodeKey;
  rightNodeKey : NodeKey;
  key : slice;
  sortKey : slice;
  value : slice;
  hash : option Digest;
  subtreeHeight : Z;
  size : Z;
  dirty : bool;
  poolId : nat;
  leftNode : option Node;
  rightNode : option Node
}.

(** [Node{}], the zero value, and [Node{poolId: i}]. *)
Definition zeroNode : Node :=
  mkNode emptyNodeKey emptyNodeKey emptyNodeKey None None None None 0 0 false 0
         None None.

Definition set_nodeKey (x : NodeKey) (n : Node) : Node :=
  mkNode x (leftNodeKey n) (rightNodeKey n) (key n) (sortKey n) (value n)
         (hash n) (subtreeHeight n) (size n) (dirty n) (poolId n)
         (leftNode n) (rightNode n).
Definition set_leftNodeKey (x : NodeKey) (n : Node) : Node :=
  mkNode (nodeKey n) x (rightNodeKey n) (key n) (sortKey n) (value n)
         (hash n) (subtreeHeight n) (size n) (dirty n) (poolId n)
         (leftNode n) (rightNode n).
Definition set_rightNodeKey (x : NodeKey) (n : Node) : Node :=
  mkNode (nodeKey n) (leftNodeKey n) x (key n) (sortKey n) (value n)
         (hash n) (subtreeHeight n) (size n) (dirty n) (poolId n)
         (leftNode n) (rightNode n).
Definition set_key (x : slice) (n : Node) : Node :=
  mkNode (nodeKey n) (leftNodeKey n) (rightNodeKey n) x (sortKey n) (value n)
         (hash n) (subtreeHeight n) (size n) (dirty n) (poolId n)
         (leftNode n) (rightNode n).
Definition set_sortKey (x : slice) (n : Node) : Node :=
  mkNode (nodeKey n) (leftNodeKey n) (rightNodeKey n) (key n) x (value n)
         (hash n) (subtreeHeight n) (size n) (dirty n) (poolId n)
         (leftNode n) (rightNode n).
Definition set_value (x : slice) (n : Node) : Node :=
  mkNode (nodeKey n) (leftNodeKey n) (rightNodeKey n) (key n) (sortKey n) x
         (hash n) (subtreeHeight n) (size n) (dirty n) (poolId n)
         (leftNode n) (rightNode n).
Definition set_hash (x : option Digest) (n : Node) : Node :=
  mkNode (nodeKey n) (leftNodeKey n) (rightNodeKey n) (key n) (sortKey n)
         (value n) x (subtreeHeight n) (size n) (dirty n) (poolId n)
         (leftNode n) (rightNode n).
Definition set_subtreeHeight (x : Z) (n : Node) : Node :=
  mkNode (nodeKey n) (leftNodeKey n) (rightNodeKey n) (key n) (sortKey n)
         (value n) (hash n) x (size n) (dirty n) (poolId n)
         (leftNode n) (rightNode n).
Definition set_size (x : Z) (n : Node) : Node :=
  mkNode (nodeKey n) (leftNodeKey n) (rightNodeKey n) (key n) (sortKey n)
         (value n) (hash n) (subtreeHeight n) x (dirty n) (poolId n)
         (leftNode n) (rightNode n).
Definition set_dirty (x : bool) (n : Node) : Node :=
  mkNode (nodeKey n) (leftNodeKey n) (rightNodeKey n) (key n) (sortKey n)
         (value n) (hash n) (subtreeHeight n) (size n) x (poolId n)
         (leftNode n) (rightNode n).
Definition set_poolId (x : nat) (n : Node) : Node :=
  mkNode (nodeKey n) (leftNodeKey n) (rightNodeKey n) (key n) (sortKey n)
         (value n) (hash n) (subtreeHeight n) (size n) (dirty n) x
         (leftNode n) (rightNode n).
Definition set_leftNode (x : option Node) (n : Node) : Node :=
  mkNode (nodeKey n) (leftNodeKey n) (rightNodeKey n) (key n) (sortKey n)
         (value n) (hash n) (subtreeHeight n) (size n) (dirty n) (poolId n)
         x (rightNode n).
Definition set_rightNode (x : option Node) (n : Node) : Node :=
  mkNode (nodeKey n) (leftNodeKey n) (rightNodeKey n) (key n) (sortKey n)
         (value n) (hash n) (subtreeHeight n) (size n) (dirty n) (poolId n)
         (leftNode n) x.

(** ** Outcomes of a call *)

Inductive Res (A : Type) : Type :=
| Ok (a : A)
| Panic (msg : string)
| Blocked
| Fetch (nk : NodeKey).
Arguments Panic {A} msg.
Arguments Blocked {A}.
Arguments Fetch {A} nk.

Definition rbind {A B : Type} (m : Res A) (f : A -> Res B) : Res B :=
  match m with
  | Ok a => f a
  | Panic msg => Panic msg
  | Blocked => Blocked
  | Fetch nk => Fetch nk
  end.

Notation "'do' x <- m ; k" := (rbind m (fun x => k))
  (at level 10, x name, m at level 100, k at level 200).

(** Constants and functions of the repository that the sources call and do
    not define. *)
Record Env := {
  nodeSize : Z;                              (* constant [nodeSize] *)
  sizeBytes : Node -> Z;                     (* [Node.sizeBytes] *)
  MinRightToken : slice -> slice -> slice;
  MinLeftToken : slice -> slice -> slice
}.

(** ** The node pool *)

(** [free] is the buffered channel of free slot ids, oldest first; [freeCap]
    is its capacity ([make(chan int, 100_000_000)]).  The unused [syncPool]
    field is left out. *)
Record nodePool := mkPool {
  free : list nat;
  nodes : list Node;
  poolSize : Z
}.

Definition freeCap : Z := 100000000.
Definition initialNodePoolSize : Z := 1000000.

(** [np.free <- i]: blocks for good on a full channel, there is no reader. *)
Definition send (i : nat) (np : nodePool) : Res nodePool :=
  if Z.ltb (Z.of_nat (length (free np))) freeCap
  then Ok (mkPool (free np ++ [i]) (nodes np) (poolSize np))
  else Blocked.

Section Pool.
Variable env : Env.

(** The loop of [grow]: at each turn [i] is the current length of [nodes]. *)
Fixpoint grow (amount : nat) (np : nodePool) : Res nodePool :=
  match amount with
  | O => Ok np
  | S amount' =>
      let i := length (nodes np) in
      do np1 <- send i np;
      grow amount'
        (mkPool (free np1) (nodes np1 ++ [set_poolId i zeroNode])
                (u64 (poolSize np1 + nodeSize env)))
  end.

Definition newNodePool : Res nodePool :=
  grow (Z.to_nat initialNodePoolSize) (mkPool [] [] 0).

(** [Get]: the node handed out is the content of the slot. *)
Definition Get (np : nodePool) : Res (Node * nodePool) :=
  do np1 <- (if Nat.eqb (length (free np)) 0
             then grow (length (nodes np)) np else Ok np);
  match free np1 with
  | [] => Blocked
  | id :: rest =>
      match nodes np1 !! id with
      | None => Panic "index out of range"
      | Some node =>
          match hash node with
          | Some _ =>
              Panic "invariant violated: node hash should be nil when fetched from pool"
          | None => Ok (node, mkPool rest (nodes np1) (poolSize np1))
          end
      end
  end.

Definition resetNode (node : Node) : Node :=
  let node := set_leftNodeKey emptyNodeKey node in
  let node := set_rightNodeKey emptyNodeKey node in
  let node := set_rightNode None node in
  let node := set_leftNode None node in
  let node := set_nodeKey emptyNodeKey node in
  let node := set_hash None node in
  let node := set_key None node in
  let node := set_value None node in
  let node := set_subtreeHeight 0 node in
  let node := set_size 0 node in
  set_dirty false node.

(** [Put]: the node is reset in place, so the slot it lives in holds the
    reset node, and the caller's pointer sees the reset node as well. *)
Definition Put (node : Node) (np : nodePool) : Res (Node * nodePool) :=
  let node := resetNode node in
  let np := mkPool (free np) (<[poolId node := node]> (nodes np)) (poolSize np) in
  do np1 <- send (poolId node) np;
  Ok (node, np1).

End Pool.

(** ** Types of the tree *)

Inductive SqlKind :=
| KBatchSetLeaves | KNextShard | KBatchSetBranches | KMapVersions
| KAddShardQuery | KExec | KSaveRoot.

Inductive error :=
| errNilValue (k : slice)            (* "attempt to store nil value at key '%s'" *)
| errBackend (k : SqlKind)           (* an error of the SQL backend *)
| errSaveRoot (e : error)            (* "failed to save root: %w" *)
| errSetCount (expected actual : Z). (* "set count mismatch; expected=%d, actual=%d" *)

(** The writes that reached the backend, oldest first. *)
Inductive SqlOp :=
| OpBatchSet (ns : list Node) (areLeaves : bool)
| OpNextShard
| OpMapVersions
| OpAddShardQuery
| OpExec (stmt : string)
| OpSaveRoot (v : Z) (r : option Node).

(** Modelled from the spec: [SqliteDb] is not part of the sources.  Sections
    4.2 and 7 make every operation of the store either succeed or fail with a
    backend error that is surfaced.  [fails] says which operations fail; an
    operation that succeeds is appended to [written], one that fails leaves
    [written] as it is.  What [BatchSet] does to the nodes it is given (the
    sources say it returns them to the pool) is outside the model. *)
Record SqliteDb := mkSql {
  written : list SqlOp;
  fails : SqlKind -> bool
}.

Record TreeMetrics := mkMetrics {
  PoolGet : Z;
  TreeUpdate : Z;
  TreeNewNode : Z;
  TreeDelete : Z;
  WriteLeaves : Z
}.

Definition set_PoolGet (x : Z) (m : TreeMetrics) : TreeMetrics :=
  mkMetrics x (TreeUpdate m) (TreeNewNode m) (TreeDelete m) (WriteLeaves m).
Definition set_TreeUpdate (x : Z) (m : TreeMetrics) : TreeMetrics :=
  mkMetrics (PoolGet m) x (TreeNewNode m) (TreeDelete m) (WriteLeaves m).
Definition set_TreeNewNode (x : Z) (m : TreeMetrics) : TreeMetrics :=
  mkMetrics (PoolGet m) (TreeUpdate m) x (TreeDelete m) (WriteLeaves m).
Definition set_TreeDelete (x : Z) (m : TreeMetrics) : TreeMetrics :=
  mkMetrics (PoolGet m) (TreeUpdate m) (TreeNewNode m) x (WriteLeaves m).
Definition set_WriteLeaves (x : Z) (m : TreeMetrics) : TreeMetrics :=
  mkMetrics (PoolGet m) (TreeUpdate m) (TreeNewNode m) (TreeDelete m) x.

(** [nodeDiff]: the pointer [new] is the slot of the node it points to. *)
Record nodeDiff := mkDiff {
  new : option nat;
  deleted : bool;
  prevKey : slice;
  prevHeight : Z
}.

Record checkpointArgs := mkArgs {
  argsSet : list Node;
  argsDelete : list nodeDiff;
  argsVersion : Z
}.

(** The fields of [Tree] that [Set], [Remove], [SaveVersion], [Size],
    [Height] and [asyncCheckpoint] use.  [checkpointerCh] is the queue of
    [checkpointer.ch].  The key-value store, the node cache, the option
    [maxWorkingSize] and the dot-graph fields (debugging) are left out. *)
Record Tree := mkTree {
  version : Z;
  root : option Node;
  metrics : TreeMetrics;
  sql : option SqliteDb;
  lastCheckpoint : Z;
  orphans : list nodeDiff;
  pool : nodePool;
  checkpointerCh : list checkpointArgs;
  workingBytes : Z;
  workingSize : Z;
  branches : list Node;
  leaves : list Node;
  sequence : Z
}.

Definition set_version (x : Z) (t : Tree) : Tree :=
  mkTree x (root t) (metrics t) (sql t) (lastCheckpoint t) (orphans t)
         (pool t) (checkpointerCh t) (workingBytes t) (workingSize t)
         (branches t) (leaves t) (sequence t).
Definition set_root (x : option Node) (t : Tree) : Tree :=
  mkTree (version t) x (metrics t) (sql t) (lastCheckpoint t) (orphans t)
         (pool t) (checkpointerCh t) (workingBytes t) (workingSize t)
         (branches t) (leaves t) (sequence t).
Definition set_metrics (x : TreeMetrics) (t : Tree) : Tree :=
  mkTree (version t) (root t) x (sql t) (lastCheckpoint t) (orphans t)
         (pool t) (checkpointerCh t) (workingBytes t) (workingSize t)
         (branches t) (leaves t) (sequence t).
Definition set_sql (x : option SqliteDb) (t : Tree) : Tree :=
  mkTree (version t) (root t) (metrics t) x (lastCheckpoint t) (orphans t)
         (pool t) (checkpointerCh t) (workingBytes t) (workingSize t)
         (branches t) (leaves t) (sequence t).
Definition set_lastCheckpoint (x : Z) (t : Tree) : Tree :=
  mkTree (version t) (root t) (metrics t) (sql t) x (orphans t) (pool t)
         (checkpointerCh t) (workingBytes t) (workingSize t) (branches t)
         (leaves t) (sequence t).
Definition set_orphans (x : list nodeDiff) (t : Tree) : Tree :=
  mkTree (version t) (root t) (metrics t) (sql t) (lastCheckpoint t) x
         (pool t) (checkpointerCh t) (workingBytes t) (workingSize t)
         (branches t) (leaves t) (sequence t).
Definition set_pool (x : nodePool) (t : Tree) : Tree :=
  mkTree (version t) (root t) (metrics t) (sql t) (lastCheckpoint t)
         (orphans t) x (checkpointerCh t) (workingBytes t) (workingSize t)
         (branches t) (leaves t) (sequence t).
Definition set_checkpointerCh (x : list checkpointArgs) (t : Tree) : Tree :=
  mkTree (version t) (root t) (metrics t) (sql t) (lastCheckpoint t)
         (orphans t) (pool t) x (workingBytes t) (workingSize t) (branches
         t) (leaves t) (sequence t).
Definition set_workingBytes (x : Z) (t : Tree) : Tree :=
  mkTree (version t) (root t) (metrics t) (sql t) (lastCheckpoint t)
         (orphans t) (pool t) (checkpointerCh t) x (workingSize t)
         (branches t) (leaves t) (sequence t).
Definition set_workingSize (x : Z) (t : Tree) : Tree :=
  mkTree (version t) (root t) (metrics t) (sql t) (lastCheckpoint t)
         (orphans t) (pool t) (checkpointerCh t) (workingBytes t) x
         (branches t) (leaves t) (sequence t).
Definition set_branches (x : list Node) (t : Tree) : Tree :=
  mkTree (version t) (root t) (metrics t) (sql t) (lastCheckpoint t)
         (orphans t) (pool t) (checkpointerCh t) (workingBytes t)
         (workingSize t) x (leaves t) (sequence t).
Definition set_leaves (x : list Node) (t : Tree) : Tree :=
  mkTree (version t) (root t) (metrics t) (sql t) (lastCheckpoint t)
         (orphans t) (pool t) (checkpointerCh t) (workingBytes t)
         (workingSize t) (branches t) x (sequence t).
Definition set_sequence (x : Z) (t : Tree) : Tree :=
  mkTree (version t) (root t) (metrics t) (sql t) (lastCheckpoint t)
         (orphans t) (pool t) (checkpointerCh t) (workingBytes t)
         (workingSize t) (branches t) (leaves t) x.

(** ** Methods of [Node] *)

(** Modelled from the spec: [isLeaf] is not part of the sources; section 9
    encodes the distinction between leaf and inner node in
    [subtree_height == 0]. *)
Definition isLeaf (n : Node) : bool := Z.eqb (subtreeHeight n) 0.

Definition childHash (c : option Node) : option Digest :=
  match c with Some n => hash n | None => None end.

(** Modelled from the spec: [_hash] is not part of the sources; by section 4.3
    it sets the node's hash to the digest of height, size, version and key,
    followed by the value for a leaf and by the hashes of the two children for
    an inner node. *)
Definition _hash (v : Z) (n : Node) : Node :=
  set_hash
    (Some (if isLeaf n
           then LeafDigest (subtreeHeight n) (size n) v (key n) (value n)
           else InnerDigest (subtreeHeight n) (size n) v (key n)
                  (childHash (leftNode n)) (childHash (rightNode n))))
    n.

(** Modelled from the spec: [left] and [right] are not part of the sources;
    by section 4.5 they return the child pointer when it is set and otherwise
    fetch the child by its node key through the pool and the node store.  The
    fetch is the outcome [Fetch]. *)
Definition Node_left (n : Node) : Res Node :=
  match leftNode n with Some l => Ok l | None => Fetch (leftNodeKey n) end.

Definition Node_right (n : Node) : Res Node :=
  match rightNode n with Some r => Ok r | None => Fetch (rightNodeKey n) end.

(** Modelled from the spec: [setLeft] and [setRight] are not part of the
    sources; a node holds a child by identity and by pointer (section 3),
    attaching a child sets both. *)
Definition setLeft (child : Node) (n : Node) : Node :=
  set_leftNodeKey (nodeKey child) (set_leftNode (Some child) n).

Definition setRight (child : Node) (n : Node) : Node :=
  set_rightNodeKey (nodeKey child) (set_rightNode (Some child) n).

(** Modelled from the spec: [calcHeightAndSize] is not part of the sources;
    by invariant 3 of section 3 an inner node has
    [height = 1 + max(h_left, h_right)] and [size = size(left) + size(right)].
    Its only failure is that of resolving a child. *)
Definition calcHeightAndSize (n : Node) : Res Node :=
  do l <- Node_left n;
  do r <- Node_right n;
  Ok (set_size (i64 (size l + size r))
        (set_subtreeHeight (i8 (Z.max (subtreeHeight l) (subtreeHeight r) + 1)) n)).

(** [balance_factor = h_left - h_right] (section 4.4). *)
Definition calcBalance (n : Node) : Res Z :=
  do l <- Node_left n;
  do r <- Node_right n;
  Ok (subtreeHeight l - subtreeHeight r).

(** ** The state of a call on the tree *)

Definition M (A : Type) : Type := Tree -> Res (A * Tree).

Definition ret {A : Type} (a : A) : M A := fun t => Ok (a, t).

Definition bind {A B : Type} (m : M A) (f : A -> M B) : M B :=
  fun t =>
    match m t with
    | Ok (a, t') => f a t'
    | Panic msg => Panic msg
    | Blocked => Blocked
    | Fetch nk => Fetch nk
    end.

Notation "'let*' x ':=' m 'in' k" := (bind m (fun x => k))
  (at level 10, x name, m at level 100, k at level 200).

Definition gets {A : Type} (f : Tree -> A) : M A := fun t => Ok (f t, t).
Definition modify (f : Tree -> Tree) : M unit := fun t => Ok (tt, f t).
Definition panic {A : Type} (msg : string) : M A := fun _ => Panic msg.
Definition liftR {A : Type} (r : Res A) : M A := fun t => do a <- r; Ok (a, t).

(** An operation of the pool run on [tree.pool]. *)
Definition onPool {A : Type} (op : nodePool -> Res (A * nodePool)) : M A :=
  fun t => do r <- op (pool t); Ok (fst r, set_pool (snd r) t).

(** An operation of the SQL backend: [tree.sql] is a pointer, the call on a
    nil pointer dereferences it. *)
Definition sqlDo (k : SqlKind) (entry : SqlOp) : M (option error) :=
  fun t =>
    match sql t with
    | None => Panic "nil pointer dereference"
    | Some db =>
        if fails db k then Ok (Some (errBackend k), t)
        else Ok (None, set_sql (Some (mkSql (written db ++ [entry]) (fails db))) t)
    end.

Section TreeOps.
Variable env : Env.

Definition addWorkingBytes (n : Z) : M unit :=
  modify (fun t => set_workingBytes (u64 (workingBytes t + n)) t).

Definition addWorkingSize (n : Z) : M unit :=
  modify (fun t => set_workingSize (i64 (workingSize t + n)) t).

Definition nextNodeKey : M NodeKey :=
  let* _ := modify (fun t => set_sequence (u32 (sequence t + 1)) t) in
  let* v := gets version in
  let* s := gets sequence in
  ret (NewNodeKey (i64 (v + 1)) s).

Definition mutateNode (node : Node) : M Node :=
  match hash node with
  | None => ret node
  | Some _ =>
      let node := set_hash None node in
      let* nk := nextNodeKey in
      let node := set_nodeKey nk node in
      if dirty node then ret node
      else
        let node := set_dirty true node in
        let* _ := addWorkingBytes (sizeBytes env node) in
        let* _ := addWorkingSize 1 in
        ret node
  end.

Definition addOrphan (node : Node) : M unit :=
  match hash node with
  | None => ret tt
  | Some _ =>
      modify (fun t =>
        set_orphans
          (orphans t ++
             [mkDiff (Some (poolId node)) false (key node) (subtreeHeight node)])
          t)
  end.

Definition NewNode (k v : slice) (ver : Z) : M Node :=
  let* node := onPool (Get env) in
  let* nk := nextNodeKey in
  let node := set_nodeKey nk node in
  let node := set_key k node in
  let node := set_sortKey k node in
  let node := set_value v node in
  let node := set_subtreeHeight 0 node in
  let node := set_size 1 node in
  let node := _hash (i64 (ver + 1)) node in
  let node := set_value None node in
  let node := set_dirty true node in
  let* _ := addWorkingBytes (sizeBytes env node) in
  let* _ := addWorkingSize 1 in
  ret node.

(** The node returned is what the caller's pointer sees after the call: the
    node reset by [Put]. *)
Definition returnNode (node : Node) : M Node :=
  let* _ := (if dirty node
             then let* _ := addWorkingBytes (- sizeBytes env node) in
                  addWorkingSize (-1)
             else ret tt) in
  let* _ := modify (fun t =>
              set_orphans
                (orphans t ++ [mkDiff None true (key node) (subtreeHeight node)]) t) in
  onPool (Put node).

(** ** Balancing *)

(** Modelled from the spec: [balance] and the rotations are not part of the
    sources.  Section 4.4: standard AVL single and double rotations, triggered
    when [h_left - h_right] falls outside [-1, 1]; if it is above, rotate
    right, after a left rotation of the left child when that child's factor is
    negative; mirrored when it is below.  A rotation gives the two inner nodes
    it affects new identities and orphans the old ones, which is what
    [addOrphan] and [mutateNode] do. *)
Definition rotateRight (node : Node) : M Node :=
  let* _ := addOrphan node in
  let* node := mutateNode node in
  let* newNode := liftR (Node_left node) in
  let* _ := addOrphan newNode in
  let* newNode := mutateNode newNode in
  let* inner := liftR (Node_right newNode) in
  let* node := liftR (calcHeightAndSize (setLeft inner node)) in
  liftR (calcHeightAndSize (setRight node newNode)).

Definition rotateLeft (node : Node) : M Node :=
  let* _ := addOrphan node in
  let* node := mutateNode node in
  let* newNode := liftR (Node_right node) in
  let* _ := addOrphan newNode in
  let* newNode := mutateNode newNode in
  let* inner := liftR (Node_left newNode) in
  let* node := liftR (calcHeightAndSize (setRight inner node)) in
  liftR (calcHeightAndSize (setLeft node newNode)).

Definition balance (node : Node) : M Node :=
  let* bf := liftR (calcBalance node) in
  if Z.gtb bf 1 then
    let* l := liftR (Node_left node) in
    let* lbf := liftR (calcBalance l) in
    if Z.geb lbf 0 then rotateRight node
    else
      let* l' := rotateLeft l in
      rotateRight (setLeft l' node)
  else if Z.ltb bf (-1) then
    let* r := liftR (Node_right node) in
    let* rbf := liftR (calcBalance r) in
    if Z.leb rbf 0 then rotateLeft node
    else
      let* r' := rotateRight r in
      rotateLeft (setRight r' node)
  else ret node.

(** ** Set *)

(** The part of [recursiveSet] on an inner node that follows the attachment of
    the new child. *)
Definition recursiveSetTail (k : slice) (node : Node) (updated : bool)
  : M (option Node * bool * option error) :=
  if updated then ret (Some node, updated, None)
  else
    let node :=
      if HasPrefix k (sortKey node) then
        match Compare k (key node) with
        | Lt => set_sortKey (MinRightToken env (key node) k) node
        | _ => set_sortKey (MinLeftToken env (key node) k) node
        end
      else node in
    let* node := liftR (calcHeightAndSize node) in
    let* newNode := balance node in
    ret (Some newNode, updated, None).

(** [node.left(tree)] and [node.right(tree)] are read off the node as it was
    passed in: [addOrphan] and [mutateNode] leave the child pointers alone. *)
Fixpoint recursiveSet (node : Node) (k v : slice) {struct node}
  : M (option Node * bool * option error) :=
  if isLeaf node then
    match Compare k (key node) with
    | Lt =>
        let* _ := modify (fun t =>
                    set_metrics (set_PoolGet (PoolGet (metrics t) + 2) (metrics t)) t) in
        let* parent := onPool (Get env) in
        let* nk := nextNodeKey in
        let parent := set_nodeKey nk parent in
        let parent := set_sortKey (MinRightToken env k (key node)) parent in
        let parent := set_key (key node) parent in
        let parent := set_subtreeHeight 1 parent in
        let parent := set_size 2 parent in
        let parent := set_dirty true parent in
        let* ver := gets version in
        let* leaf := NewNode k v ver in
        let parent := setLeft leaf parent in
        let parent := setRight node parent in
        let* _ := addWorkingBytes (sizeBytes env parent) in
        let* _ := addWorkingSize 1 in
        ret (Some parent, false, None)
    | Gt =>
        let* _ := modify (fun t =>
                    set_metrics (set_PoolGet (PoolGet (metrics t) + 2) (metrics t)) t) in
        let* parent := onPool (Get env) in
        let* nk := nextNodeKey in
        let parent := set_nodeKey nk parent in
        let parent := set_sortKey (MinRightToken env k (key node)) parent in
        let parent := set_key k parent in
        let parent := set_subtreeHeight 1 parent in
        let parent := set_size 2 parent in
        let parent := set_dirty true parent in
        let parent := setLeft node parent in
        let* ver := gets version in
        let* leaf := NewNode k v ver in
        let parent := setRight leaf parent in
        let* _ := addWorkingBytes (sizeBytes env parent) in
        let* _ := addWorkingSize 1 in
        ret (Some parent, false, None)
    | Eq =>
        let* node := mutateNode node in
        let node := set_value v node in
        let* ver := gets version in
        let node := _hash (i64 (ver + 1)) node in
        let node := set_value None node in
        ret (Some node, true, None)
    end
  else
    let* _ := addOrphan node in
    let* node1 := mutateNode node in
    match Compare k (key node1) with
    | Lt =>
        match leftNode node with
        | None => liftR (Fetch (leftNodeKey node1))
        | Some l =>
            let* res := recursiveSet l k v in
            match res with
            | (_, updated, Some err) => ret (None, updated, Some err)
            | (None, _, None) => panic "nil pointer dereference"
            | (Some child, updated, None) =>
                recursiveSetTail k (setLeft child node1) updated
            end
        end
    | _ =>
        match rightNode node with
        | None => liftR (Fetch (rightNodeKey node1))
        | Some r =>
            let* res := recursiveSet r k v in
            match res with
            | (_, updated, Some err) => ret (None, updated, Some err)
            | (None, _, None) => panic "nil pointer dereference"
            | (Some child, updated, None) =>
                recursiveSetTail k (setRight child node1) updated
            end
        end
    end.

(** [Tree.set]. *)
Definition Tree_set (k v : slice) : M (bool * option error) :=
  match v with
  | None => ret (false, Some (errNilValue k))
  | Some _ =>
      let* r := gets root in
      match r with
      | None =>
          let* ver := gets version in
          let* n := NewNode k v ver in
          let* _ := modify (set_root (Some n)) in
          ret (false, None)
      | Some rt =>
          let* res := recursiveSet rt k v in
          let* _ := modify (set_root (fst (fst res))) in
          ret (snd (fst res), snd res)
      end
  end.

(** [Tree.Set]; the call of [emitDotGraph] (debugging) is left out. *)
Definition Tree_Set (k v : slice) : M (bool * option error) :=
  let* res := Tree_set k v in
  match snd res with
  | Some err => ret (false, Some err)
  | None =>
      let* _ := modify (fun t =>
                  set_metrics
                    (if fst res
                     then set_TreeUpdate (TreeUpdate (metrics t) + 1) (metrics t)
                     else set_TreeNewNode (TreeNewNode (metrics t) + 1) (metrics t))
                    t) in
      ret (fst res, None)
  end.

(** ** Remove *)

(** Results: [newSelf], [newKey], [newValue], [removed], [err].  The check of
    [err] after the leaf case tests the zero value of the named result and
    never fires. *)
Fixpoint recursiveRemove (node : Node) (k : slice) {struct node}
  : M (option Node * slice * slice * bool * option error) :=
  if isLeaf node then
    if Equal k (key node) then
      let* node := returnNode node in
      ret (None, None, value node, true, None)
    else ret (Some node, None, None, false, None)
  else
    match Compare k (key node) with
    | Lt =>
        match leftNode node with
        | None => liftR (Fetch (leftNodeKey node))
        | Some l =>
            let* res := recursiveRemove l k in
            match res with
            | (_, _, _, _, Some err) => ret (None, None, None, false, Some err)
            | (newLeftNode, newKey, val, removed, None) =>
                if negb removed then ret (Some node, None, val, removed, None)
                else
                  match newLeftNode with
                  | None =>
                      let* right := liftR (Node_right node) in
                      let k' := key node in
                      let* _ := returnNode node in
                      ret (Some right, k', val, removed, None)
                  | Some newLeft =>
                      let* _ := addOrphan node in
                      let* node := mutateNode node in
                      let node := setLeft newLeft node in
                      let* node := liftR (calcHeightAndSize node) in
                      let* node := balance node in
                      ret (Some node, newKey, val, removed, None)
                  end
            end
        end
    | _ =>
        match rightNode node with
        | None => liftR (Fetch (rightNodeKey node))
        | Some r =>
            let* res := recursiveRemove r k in
            match res with
            | (_, _, _, _, Some err) => ret (None, None, None, false, Some err)
            | (newRightNode, newKey, val, removed, None) =>
                if negb removed then ret (Some node, None, val, removed, None)
                else
                  match newRightNode with
                  | None =>
                      let* left := liftR (Node_left node) in
                      let* _ := returnNode node in
                      ret (Some left, None, val, removed, None)
                  | Some newRight =>
                      let* _ := addOrphan node in
                      let* node := mutateNode node in
                      let node := setRight newRight node in
                      let node := match newKey with
                                  | Some _ => set_key newKey node
                                  | None => node
                                  end in
                      let* node := liftR (calcHeightAndSize node) in
                      let* node := balance node in
                      ret (Some node, None, val, removed, None)
                  end
            end
        end
    end.

(** [Tree.Remove]: value, removed, err. *)
Definition Tree_Remove (k : slice) : M (slice * bool * option error) :=
  let* r := gets root in
  match r with
  | None => ret (None, false, None)
  | Some rt =>
      let* res := recursiveRemove rt k in
      match res with
      | (_, _, _, _, Some err) => ret (None, false, Some err)
      | (newRoot, _, val, removed, None) =>
          if negb removed then ret (None, false, None)
          else
            let* _ := modify (fun t =>
                        set_metrics
                          (set_TreeDelete (TreeDelete (metrics t) + 1) (metrics t)) t) in
            let* _ := modify (set_root newRoot) in
            ret (val, true, None)
      end
  end.

(** ** Size and height *)

Definition Tree_Size : M Z :=
  let* r := gets root in
  match r with
  | None => panic "nil pointer dereference"
  | Some rt => ret (size rt)
  end.

Definition Tree_Height : M Z :=
  let* r := gets root in
  match r with
  | None => panic "nil pointer dereference"
  | Some rt => ret (subtreeHeight rt)
  end.

(** ** SaveVersion *)

(** [tree.leaves] and [tree.branches] hold pointers.  [deepHash] appends the
    node before it hashes it, so the entry is brought up to date with the node
    when the call on that node ends: [aliased] rewrites the entry at the index
    the append used.  The unused parameter [sequence] is left out.

    Results: the node after the call, [isLeaf], [isDirty]. *)
Definition aliased (leaf isDirty : bool) (idx : nat) (node : Node) : M unit :=
  if isDirty then
    if leaf then modify (fun t => set_leaves (<[idx := node]> (leaves t)) t)
    else modify (fun t => set_branches (<[idx := node]> (branches t)) t)
  else ret tt.

Fixpoint deepHash (node : Node) {struct node} : M (Node * bool * bool) :=
  let leaf := isLeaf node in
  let* ver := gets version in
  let isDirty := Z.eqb (Version (nodeKey node)) ver in
  let* idx := gets (fun t => length (if leaf then leaves t else branches t)) in
  let* _ := (if isDirty then
               if leaf then modify (fun t => set_leaves (leaves t ++ [node]) t)
               else modify (fun t => set_branches (branches t ++ [node]) t)
             else ret tt) in
  match hash node with
  | Some _ => ret (node, leaf, isDirty)
  | None =>
      match leftNode node with
      | None => liftR (Fetch (leftNodeKey node))
      | Some l =>
          let* resl := deepHash l in
          let node := set_leftNode (Some (fst (fst resl))) node in
          match rightNode node with
          | None => liftR (Fetch (rightNodeKey node))
          | Some r =>
              let* resr := deepHash r in
              let node := set_rightNode (Some (fst (fst resr))) node in
              let node := _hash ver node in
              let* node :=
                (if snd (fst resl) then
                   let* _ := (if negb (snd resl)
                              then let* _ := onPool (Put (fst (fst resl))) in ret tt
                              else ret tt) in
                   ret (set_leftNode None node)
                 else ret node) in
              let* node :=
                (if snd (fst resr) then
                   let* _ := (if negb (snd resr)
                              then let* _ := onPool (Put (fst (fst resr))) in ret tt
                              else ret tt) in
                   ret (set_rightNode None node)
                 else ret node) in
              let* _ := aliased leaf isDirty idx node in
              ret (node, false, isDirty)
          end
      end
  end.

(** [tree.deepHash(&sequence, tree.root)]: [isLeaf] dereferences the root. *)
Definition deepHashRoot : M unit :=
  let* r := gets root in
  match r with
  | None => panic "nil pointer dereference"
  | Some rt =>
      let* res := deepHash rt in
      modify (set_root (Some (fst (fst res))))
  end.

Definition rootHash (t : Tree) : option Digest := childHash (root t).

Definition createLeafIndex : string :=
  "CREATE INDEX IF NOT EXISTS leaf_idx ON leaf (version, sequence)".

(** The part of [SaveVersion] that follows the writes of leaves and branches. *)
Definition saveRoot : M (option Digest * Z * option error) :=
  let* _ := modify (set_leaves []) in
  let* _ := modify (set_branches []) in
  let* _ := modify (set_orphans []) in
  let* db := gets sql in
  let* err := (match db with
               | None => ret None
               | Some _ =>
                   let* ver := gets version in
                   let* rt := gets root in
                   sqlDo KSaveRoot (OpSaveRoot ver rt)
               end) in
  let* ver := gets version in
  match err with
  | Some e => ret (None, ver, Some (errSaveRoot e))
  | None =>
      let* rt := gets root in
      match rt with
      | None => panic "nil pointer dereference"
      | Some n => ret (hash n, ver, None)
      end
  end.

(** The block of [SaveVersion] under [if tree.version == 1]: [Some r] when the
    block returns [r] from [SaveVersion], [None] when it runs to its end. *)
Definition firstVersionShard (ver : Z)
  : M (option (option Digest * Z * option error)) :=
  let* err := sqlDo KNextShard OpNextShard in
  match err with
  | Some _ => ret (Some (None, 0, None))
  | None =>
      let* bs := gets branches in
      let* err := sqlDo KBatchSetBranches (OpBatchSet bs false) in
      match err with
      | Some e => ret (Some (None, ver, Some e))
      | None =>
          let* err := sqlDo KMapVersions OpMapVersions in
          match err with
          | Some e => ret (Some (None, 0, Some e))
          | None =>
              let* err := sqlDo KAddShardQuery OpAddShardQuery in
              match err with
              | Some e => ret (Some (None, 0, Some e))
              | None =>
                  let* err := sqlDo KExec (OpExec createLeafIndex) in
                  match err with
                  | Some e => ret (Some (None, ver, Some e))
                  | None => ret None
                  end
              end
          end
      end
  end.

(** [Tree.SaveVersion]: hash, version, err.  The timing metrics are left
    out. *)
Definition SaveVersion : M (option Digest * Z * option error) :=
  let* _ := modify (fun t => set_version (i64 (version t + 1)) t) in
  let* _ := modify (set_sequence 0) in
  let* _ := deepHashRoot in
  let* ls := gets leaves in
  let* err := sqlDo KBatchSetLeaves (OpBatchSet ls true) in
  let* ver := gets version in
  match err with
  | Some e => ret (None, ver, Some e)
  | None =>
      let* _ := modify (fun t =>
                  set_metrics
                    (set_WriteLeaves
                       (i64 (WriteLeaves (metrics t) + Z.of_nat (length (leaves t))))
                       (metrics t)) t) in
      let* early := (if Z.eqb ver 1 then firstVersionShard ver else ret None) in
      match early with
      | Some r => ret r
      | None => saveRoot
      end
  end.

(** ** Checkpoints *)

(** [buildCheckpoint]: the node after the call and the arguments after the
    call.  The call of [tree.cache.Set] is left out. *)
Fixpoint buildCheckpoint (node : Node) (args : checkpointArgs) {struct node}
  : M (Node * checkpointArgs) :=
  let* last := gets lastCheckpoint in
  if Z.leb (Version (nodeKey node)) last then ret (node, args)
  else
    let node := set_dirty false node in
    let* n := onPool (Get env) in
    let n := set_subtreeHeight (subtreeHeight node) n in
    let n := set_size (size node) n in
    let n := set_key (key node) n in
    let n := set_hash (hash node) n in
    let n := set_nodeKey (nodeKey node) n in
    let n := set_leftNodeKey (leftNodeKey node) n in
    let n := set_rightNodeKey (rightNodeKey node) n in
    let args := mkArgs (argsSet args ++ [n]) (argsDelete args) (argsVersion args) in
    if isLeaf node then ret (node, args)
    else
      let* args := (match leftNode node with
                    | None => ret args
                    | Some l => let* res := buildCheckpoint l args in ret (snd res)
                    end) in
      let* args := (match rightNode node with
                    | None => ret args
                    | Some r => let* res := buildCheckpoint r args in ret (snd res)
                    end) in
      ret (set_rightNode None (set_leftNode None node), args).

(** [Tree.asyncCheckpoint]: the error returned. *)
Definition asyncCheckpoint : M (option error) :=
  let* ver := gets version in
  let args := mkArgs [] [] ver in
  let* rt := gets root in
  let* args := (match rt with
                | None => ret args
                | Some n =>
                    let* res := buildCheckpoint n args in
                    let* _ := modify (set_root (Some (fst res))) in
                    ret (snd res)
                end) in
  let* ws := gets workingSize in
  if negb (Z.eqb (i64 (Z.of_nat (length (argsSet args)))) ws) then
    ret (Some (errSetCount ws (Z.of_nat (length (argsSet args)))))
  else
    let* _ := modify (fun t => set_checkpointerCh (checkpointerCh t ++ [args]) t) in
    ret None.

(** [Tree.dirtyCount]. *)
Fixpoint dirtyCount (node : Node) {struct node} : Res Z :=
  let n := if dirty node then 1 else 0 in
  if negb (isLeaf node) then
    match leftNode node with
    | None => Fetch (leftNodeKey node)
    | Some l =>
        do cl <- dirtyCount l;
        match rightNode node with
        | None => Fetch (rightNodeKey node)
        | Some r => do cr <- dirtyCount r; Ok (i64 (i64 (n + cl) + cr))
        end
    end
  else Ok n.

End TreeOps.

(** [NewTree]. *)
Definition NewTree (db : option SqliteDb) (p : nodePool) : Tree :=
  mkTree 0 None (mkMetrics 0 0 0 0 0) db 0 [] p [] 0 0 [] [] 0.

(** * Properties *)

(** ** Reasoning on calls *)

Lemma bind_Ok {A B : Type} (m : M A) (f : A -> M B) (t t' : Tree) (b : B) :
  bind m f t = Ok (b, t') ->
  exists a t1, m t = Ok (a, t1) /\ f a t1 = Ok (b, t').
Proof.
  unfold bind. destruct (m t) as [[a t1]| | |]; try discriminate.
  intros H. exists a, t1. split; [reflexivity | exact H].
Qed.

Lemma bind_eq {A B : Type} (m : M A) (f : A -> M B) (t t1 : Tree) (a : A) :
  m t = Ok (a, t1) -> bind m f t = f a t1.
Proof. intros H. unfold bind. rewrite H. reflexivity. Qed.

Lemma liftR_Ok {A : Type} (r : Res A) (t t' : Tree) (a : A) :
  liftR r t = Ok (a, t') -> r = Ok a /\ t' = t.
Proof.
  unfold liftR. destruct r; simpl; try discriminate.
  intros H. inversion H. split; reflexivity.
Qed.

Lemma rbind_Ok {A B : Type} (m : Res A) (f : A -> Res B) (b : B) :
  rbind m f = Ok b -> exists a, m = Ok a /\ f a = Ok b.
Proof.
  destruct m; simpl; try discriminate. intros H. eexists. split; [reflexivity | exact H].
Qed.

(** Inversion of a successful call, one step at a time. *)
Ltac inv_ok H :=
  lazymatch type of H with
  | bind _ _ _ = Ok _ =>
      let a := fresh "a" in
      let t := fresh "t" in
      let H1 := fresh "H" in
      apply bind_Ok in H as (a & t & H1 & H)
  | ret _ _ = Ok _ => unfold ret in H; inversion H; subst; clear H
  | gets _ _ = Ok _ => unfold gets in H; inversion H; subst; clear H
  | modify _ _ = Ok _ => unfold modify in H; inversion H; subst; clear H
  | panic _ _ = Ok _ => discriminate H
  | liftR _ _ = Ok _ =>
      let E := fresh "E" in apply liftR_Ok in H as [H E]; subst
  end.

Tactic Notation "inv_bind" hyp(H) "as" ident(a) ident(t) ident(H1) :=
  apply bind_Ok in H as (a & t & H1 & H).

(** An induction principle that reaches the children through the pointers. *)
Definition onChild (P : Node -> Prop) (c : option Node) : Prop :=
  match c with Some n => P n | None => True end.

Lemma Node_children_ind (P : Node -> Prop) :
  (forall n, onChild P (leftNode n) -> onChild P (rightNode n) -> P n) ->
  forall n, P n.
Proof.
  intros H. fix IH 1. intros [nk lk rk k sk v h ht sz d pid l r].
  apply H; simpl.
  - destruct l as [l|]; [apply IH | exact I].
  - destruct r as [r|]; [apply IH | exact I].
Qed.

(** ** The equations of the recursive functions *)

Lemma recursiveSet_eq (env : Env) (node : Node) (k v : slice) :
  recursiveSet env node k v =
  if isLeaf node then
    match Compare k (key node) with
    | Lt =>
        let* _ := modify (fun t =>
                    set_metrics (set_PoolGet (PoolGet (metrics t) + 2) (metrics t)) t) in
        let* parent := onPool (Get env) in
        let* nk := nextNodeKey in
        let parent := set_nodeKey nk parent in
        let parent := set_sortKey (MinRightToken env k (key node)) parent in
        let parent := set_key (key node) parent in
        let parent := set_subtreeHeight 1 parent in
        let parent := set_size 2 parent in
        let parent := set_dirty true parent in
        let* ver := gets version in
        let* leaf := NewNode env k v ver in
        let parent := setLeft leaf parent in
        let parent := setRight node parent in
        let* _ := addWorkingBytes (sizeBytes env parent) in
        let* _ := addWorkingSize 1 in
        ret (Some parent, false, None)
    | Gt =>
        let* _ := modify (fun t =>
                    set_metrics (set_PoolGet (PoolGet (metrics t) + 2) (metrics t)) t) in
        let* parent := onPool (Get env) in
        let* nk := nextNodeKey in
        let parent := set_nodeKey nk parent in
        let parent := set_sortKey (MinRightToken env k (key node)) parent in
        let parent := set_key k parent in
        let parent := set_subtreeHeight 1 parent in
        let parent := set_size 2 parent in
        let parent := set_dirty true parent in
        let parent := setLeft node parent in
        let* ver := gets version in
        let* leaf := NewNode env k v ver in
        let parent := setRight leaf parent in
        let* _ := addWorkingBytes (sizeBytes env parent) in
        let* _ := addWorkingSize 1 in
        ret (Some parent, false, None)
    | Eq =>
        let* node := mutateNode env node in
        let node := set_value v node in
        let* ver := gets version in
        let node := _hash (i64 (ver + 1)) node in
        let node := set_value None node in
        ret (Some node, true, None)
    end
  else
    let* _ := addOrphan node in
    let* node1 := mutateNode env node in
    match Compare k (key node1) with
    | Lt =>
        match leftNode node with
        | None => liftR (Fetch (leftNodeKey node1))
        | Some l =>
            let* res := recursiveSet env l k v in
            match res with
            | (_, updated, Some err) => ret (None, updated, Some err)
            | (None, _, None) => panic "nil pointer dereference"
            | (Some child, updated, None) =>
                recursiveSetTail env k (setLeft child node1) updated
            end
        end
    | _ =>
        match rightNode node with
        | None => liftR (Fetch (rightNodeKey node1))
        | Some r =>
            let* res := recursiveSet env r k v in
            match res with
            | (_, updated, Some err) => ret (None, updated, Some err)
            | (None, _, None) => panic "nil pointer dereference"
            | (Some child, updated, None) =>
                recursiveSetTail env k (setRight child node1) updated
            end
        end
    end.
Proof. destruct node; reflexivity. Qed.

Lemma recursiveRemove_eq (env : Env) (node : Node) (k : slice) :
  recursiveRemove env node k =
  if isLeaf node then
    if Equal k (key node) then
      let* node := returnNode env node in
      ret (None, None, value node, true, None)
    else ret (Some node, None, None, false, None)
  else
    match Compare k (key node) with
    | Lt =>
        match leftNode node with
        | None => liftR (Fetch (leftNodeKey node))
        | Some l =>
            let* res := recursiveRemove env l k in
            match res with
            | (_, _, _, _, Some err) => ret (None, None, None, false, Some err)
            | (newLeftNode, newKey, val, removed, None) =>
                if negb removed then ret (Some node, None, val, removed, None)
                else
                  match newLeftNode with
                  | None =>
                      let* right := liftR (Node_right node) in
                      let k' := key node in
                      let* _ := returnNode env node in
                      ret (Some right, k', val, removed, None)
                  | Some newLeft =>
                      let* _ := addOrphan node in
                      let* node := mutateNode env node in
                      let node := setLeft newLeft node in
                      let* node := liftR (calcHeightAndSize node) in
                      let* node := balance env node in
                      ret (Some node, newKey, val, removed, None)
                  end
            end
        end
    | _ =>
        match rightNode node with
        | None => liftR (Fetch (rightNodeKey node))
        | Some r =>
            let* res := recursiveRemove env r k in
            match res with
            | (_, _, _, _, Some err) => ret (None, None, None, false, Some err)
            | (newRightNode, newKey, val, removed, None) =>
                if negb removed then ret (Some node, None, val, removed, None)
                else
                  match newRightNode with
                  | None =>
                      let* left := liftR (Node_left node) in
                      let* _ := returnNode env node in
                      ret (Some left, None, val, removed, None)
                  | Some newRight =>
                      let* _ := addOrphan node in
                      let* node := mutateNode env node in
                      let node := setRight newRight node in
                      let node := match newKey with
                                  | Some _ => set_key newKey node
                                  | None => node
                                  end in
                      let* node := liftR (calcHeightAndSize node) in
                      let* node := balance env node in
                      ret (Some node, None, val, removed, None)
                  end
            end
        end
    end.
Proof. destruct node; reflexivity. Qed.

Lemma deepHash_eq (node : Node) :
  deepHash node =
  let leaf := isLeaf node in
  let* ver := gets version in
  let isDirty := Z.eqb (Version (nodeKey node)) ver in
  let* idx := gets (fun t => length (if leaf then leaves t else branches t)) in
  let* _ := (if isDirty then
               if leaf then modify (fun t => set_leaves (leaves t ++ [node]) t)
               else modify (fun t => set_branches (branches t ++ [node]) t)
             else ret tt) in
  match hash node with
  | Some _ => ret (node, leaf, isDirty)
  | None =>
      match leftNode node with
      | None => liftR (Fetch (leftNodeKey node))
      | Some l =>
          let* resl := deepHash l in
          let node := set_leftNode (Some (fst (fst resl))) node in
          match rightNode node with
          | None => liftR (Fetch (rightNodeKey node))
          | Some r =>
              let* resr := deepHash r in
              let node := set_rightNode (Some (fst (fst resr))) node in
              let node := _hash ver node in
              let* node :=
                (if snd (fst resl) then
                   let* _ := (if negb (snd resl)
                              then let* _ := onPool (Put (fst (fst resl))) in ret tt
                              else ret tt) in
                   ret (set_leftNode None node)
                 else ret node) in
              let* node :=
                (if snd (fst resr) then
                   let* _ := (if negb (snd resr)
                              then let* _ := onPool (Put (fst (fst resr))) in ret tt
                              else ret tt) in
                   ret (set_rightNode None node)
                 else ret node) in
              let* _ := aliased leaf isDirty idx node in
              ret (node, false, isDirty)
          end
      end
  end.
Proof. destruct node; reflexivity. Qed.

Lemma buildCheckpoint_eq (env : Env) (node : Node) (args : checkpointArgs) :
  buildCheckpoint env node args =
  let* last := gets lastCheckpoint in
  if Z.leb (Version (nodeKey node)) last then ret (node, args)
  else
    let node := set_dirty false node in
    let* n := onPool (Get env) in
    let n := set_subtreeHeight (subtreeHeight node) n in
    let n := set_size (size node) n in
    let n := set_key (key node) n in
    let n := set_hash (hash node) n in
    let n := set_nodeKey (nodeKey node) n in
    let n := set_leftNodeKey (leftNodeKey node) n in
    let n := set_rightNodeKey (rightNodeKey node) n in
    let args := mkArgs (argsSet args ++ [n]) (argsDelete args) (argsVersion args) in
    if isLeaf node then ret (node, args)
    else
      let* args := (match leftNode node with
                    | None => ret args
                    | Some l => let* res := buildCheckpoint env l args in ret (snd res)
                    end) in
      let* args := (match rightNode node with
                    | None => ret args
                    | Some r => let* res := buildCheckpoint env r args in ret (snd res)
                    end) in
      ret (set_rightNode None (set_leftNode None node), args).
Proof. destruct node; reflexivity. Qed.

Lemma dirtyCount_eq (node : Node) :
  dirtyCount node =
  let n := if dirty node then 1 else 0 in
  if negb (isLeaf node) then
    match leftNode node with
    | None => Fetch (leftNodeKey node)
    | Some l =>
        do cl <- dirtyCount l;
        match rightNode node with
        | None => Fetch (rightNodeKey node)
        | Some r => do cr <- dirtyCount r; Ok (i64 (i64 (n + cl) + cr))
        end
    end
  else Ok n.
Proof. destruct node; reflexivity. Qed.

(** ** An environment and a small pool for the examples *)

Definition exEnv : Env :=
  Build_Env 1 (fun n => 1 + Z.of_nat (length (elems (key n)))) (fun a _ => a) (fun a _ => a).

Definition emptyPool : nodePool := mkPool [] [] 0.

Definition run {A : Type} (d : Tree) (m : M A) (t : Tree) : Tree :=
  match m t with Ok (_, t') => t' | _ => d end.

Definition exPool : nodePool :=
  match grow exEnv 4 emptyPool with Ok p => p | _ => emptyPool end.

Definition okDb : SqliteDb := mkSql [] (fun _ => false).

Definition exTree0 : Tree := NewTree (Some okDb) exPool.
Definition exTree1 : Tree := run exTree0 (Tree_Set exEnv (str "a") (str "1")) exTree0.
Definition exTree2 : Tree := run exTree0 (Tree_Set exEnv (str "b") (str "2")) exTree1.

(** ** C8: a nil value is refused and the tree is left alone *)

(** C8.  [Set] with a nil value returns the error "attempt to store nil value"
    to the caller, and the tree after the call is the tree before it: root,
    version, working-set counters, orphan log and every other field. *)
Theorem C8_set_nil_value_rejected (env : Env) (k : slice) (t : Tree) :
  Tree_Set env k None t = Ok ((false, Some (errNilValue k)), t) /\
  Tree_set env k None t = Ok ((false, Some (errNilValue k)), t).
Proof. split; reflexivity. Qed.

(** ** C6: [Size] and [Height] on an empty tree *)

(** C6.  On the tree that [NewTree] returns, [Size], [Height] and
    [SaveVersion] dereference the nil root and panic, although [Set] and
    [Remove] accept the empty tree. *)
Theorem C6_size_panics_on_new_tree (env : Env) (db : option SqliteDb) (p : nodePool) :
  Tree_Size (NewTree db p) = Panic "nil pointer dereference" /\
  Tree_Height (NewTree db p) = Panic "nil pointer dereference" /\
  SaveVersion (NewTree db p) = Panic "nil pointer dereference" /\
  (exists t', Tree_Remove env (str "a") (NewTree db p) = Ok ((None, false, None), t')).
Proof.
  repeat split. eexists. reflexivity.
Qed.

(** ** C9: the node pool *)

Definition wasReset (n : Node) : Prop :=
  nodeKey n = emptyNodeKey /\ leftNodeKey n = emptyNodeKey /\
  rightNodeKey n = emptyNodeKey /\ leftNode n = None /\ rightNode n = None /\
  hash n = None /\ key n = None /\ value n = None /\
  subtreeHeight n = 0 /\ size n = 0 /\ dirty n = false.

(** Every slot on the free list holds a reset node. *)
Definition pool_ok (np : nodePool) : Prop :=
  Forall (fun i => exists n, nodes np !! i = Some n /\ wasReset n) (free np).

Lemma resetNode_wasReset (n : Node) : wasReset (resetNode n).
Proof. repeat split. Qed.

Lemma resetNode_keeps (n : Node) :
  poolId (resetNode n) = poolId n /\ sortKey (resetNode n) = sortKey n.
Proof. split; reflexivity. Qed.

Lemma send_Ok (i : nat) (np : nodePool) :
  Z.of_nat (length (free np)) < freeCap ->
  send i np = Ok (mkPool (free np ++ [i]) (nodes np) (poolSize np)).
Proof.
  intros H. unfold send.
  destruct (Z.ltb_spec (Z.of_nat (length (free np))) freeCap); [reflexivity | lia].
Qed.

Lemma pool_ok_nodes_app (fr : list nat) (ns extra : list Node) (sz sz' : Z) :
  pool_ok (mkPool fr ns sz) -> pool_ok (mkPool fr (ns ++ extra) sz').
Proof.
  unfold pool_ok; simpl. intros H. eapply Forall_impl; [exact H |].
  simpl. intros i (n & Hn & Hr).
  exists n. split; [| exact Hr]. apply lookup_app_l_Some. exact Hn.
Qed.

Lemma grow_ok (env : Env) (amount : nat) (np : nodePool) :
  pool_ok np ->
  Z.of_nat (length (free np)) + Z.of_nat amount <= freeCap ->
  exists np',
    grow env amount np = Ok np' /\ pool_ok np' /\
    free np' = free np ++ seq (length (nodes np)) amount /\
    length (nodes np') = (length (nodes np) + amount)%nat.
Proof.
  revert np. induction amount as [|amount IH]; intros np Hok Hcap.
  - exists np. simpl. rewrite app_nil_r, Nat.add_0_r. auto.
  - simpl. rewrite send_Ok by lia. simpl.
    set (np1 := mkPool (free np ++ [length (nodes np)])
                       (nodes np ++ [set_poolId (length (nodes np)) zeroNode])
                       (u64 (poolSize np + nodeSize env))).
    destruct (IH np1) as (np' & Hg & Hok' & Hfree & Hlen).
    + unfold pool_ok, np1; simpl. apply Forall_app. split.
      * change (pool_ok (mkPool (free np)
                    (nodes np ++ [set_poolId (length (nodes np)) zeroNode])
                    (poolSize np))).
        apply pool_ok_nodes_app with (sz := poolSize np).
        destruct np; exact Hok.
      * constructor; [| constructor].
        exists (set_poolId (length (nodes np)) zeroNode). split.
        -- rewrite lookup_app_r by lia. rewrite Nat.sub_diag. reflexivity.
        -- repeat split.
    + unfold np1; simpl. rewrite length_app. simpl. lia.
    + exists np'. split; [exact Hg |]. split; [exact Hok' |].
      rewrite Hfree, Hlen. unfold np1; simpl.
      rewrite length_app, <- app_assoc. simpl.
      replace (length (nodes np) + 1)%nat with (S (length (nodes np))) by lia.
      split; [reflexivity | lia].
Qed.

Lemma Put_ok (node : Node) (np : nodePool) :
  pool_ok np ->
  (poolId node < length (nodes np))%nat ->
  Z.of_nat (length (free np)) < freeCap ->
  exists np',
    Put node np = Ok (resetNode node, np') /\
    free np' = free np ++ [poolId node] /\
    nodes np' = <[poolId node := resetNode node]> (nodes np) /\
    pool_ok np'.
Proof.
  intros Hok Hid Hcap. unfold Put. rewrite send_Ok by exact Hcap. simpl.
  eexists. split; [reflexivity |]. simpl. split; [reflexivity |].
  split; [reflexivity |].
  unfold pool_ok; simpl. apply Forall_app. split.
  - eapply Forall_impl; [exact Hok |]. simpl. intros i (n & Hn & Hr).
    destruct (Nat.eq_dec (poolId node) i) as [E|Hne].
    + rewrite <- E. exists (resetNode node). split.
      * apply list_lookup_insert_eq. exact Hid.
      * apply resetNode_wasReset.
    + exists n. split; [| exact Hr]. rewrite list_lookup_insert_ne by exact Hne.
      exact Hn.
  - constructor; [| constructor]. exists (resetNode node). split.
    + apply list_lookup_insert_eq. exact Hid.
    + apply resetNode_wasReset.
Qed.

Lemma Get_ok (env : Env) (np : nodePool) :
  pool_ok np ->
  nodes np <> [] ->
  Z.of_nat (length (free np)) + Z.of_nat (length (nodes np)) <= freeCap ->
  exists n np',
    Get env np = Ok (n, np') /\ wasReset n /\ pool_ok np' /\
    (length (nodes np) <= length (nodes np') <= 2 * length (nodes np))%nat /\
    (length (free np') < Nat.max (length (free np)) (length (nodes np)))%nat.
Proof.
  intros Hok Hne Hcap. unfold Get.
  destruct (free np) as [|id rest] eqn:Hfree; simpl.
  - destruct (grow_ok env (length (nodes np)) Hok) as (np1 & Hg & Hok1 & Hfr & Hlen).
    { rewrite Hfree. simpl. simpl in Hcap. lia. }
    rewrite Hg. simpl. rewrite Hfr, Hfree. simpl.
    destruct (nodes np) as [|n0 ns] eqn:Hnodes; [congruence |].
    simpl. unfold pool_ok in Hok1. rewrite Hfr, Hfree in Hok1. simpl in Hok1.
    apply Forall_cons in Hok1 as [(n & Hn & Hr) Hrest].
    rewrite Hn. destruct Hr as (? & ? & ? & ? & ? & Hh & ?).
    rewrite Hh. exists n. eexists. split; [reflexivity |].
    split; [repeat split; tauto |]. split; [exact Hrest |].
    simpl. rewrite Hlen. simpl. rewrite length_seq. lia.
  - rewrite Hfree. unfold pool_ok in Hok. rewrite Hfree in Hok.
    apply Forall_cons in Hok as [(n & Hn & Hr) Hrest].
    rewrite Hn. destruct Hr as (? & ? & ? & ? & ? & Hh & ?).
    rewrite Hh. exists n. eexists. split; [reflexivity |].
    split; [repeat split; tauto |]. split; [exact Hrest |].
    simpl. destruct (nodes np); [congruence | simpl; lia].
Qed.


Definition exLeaf : Node :=
  mkNode (NewNodeKey 1 1) emptyNodeKey emptyNodeKey (str "a") (str "a") None
         (Some (LeafDigest 0 1 1 (str "a") (str "1"))) 0 1 true 1 None None.



(** ** C2: the value that [Remove] returns *)

Lemma returnNode_Ok (env : Env) (node : Node) (t t' : Tree) (n' : Node) :
  returnNode env node t = Ok (n', t') -> n' = resetNode node.
Proof.
  unfold returnNode. intros H. inv_ok H. inv_ok H.
  unfold onPool in H. apply rbind_Ok in H as ([n1 p1] & HP & H).
  simpl in H. inversion H; subst; clear H.
  unfold Put in HP. apply rbind_Ok in HP as (np1 & _ & HP).
  inversion HP. reflexivity.
Qed.

(** Whatever the tree, [recursiveRemove] hands back a nil value: the leaf is
    read after [returnNode] has reset it. *)
Lemma recursiveRemove_value_nil (env : Env) (k : slice) (node : Node) :
  forall t t' newSelf newKey val removed err,
    recursiveRemove env node k t = Ok ((newSelf, newKey, val, removed, err), t') ->
    val = None.
Proof.
  induction node as [node IHl IHr] using Node_children_ind.
  intros t t' newSelf newKey val removed err H.
  destruct node as [nk lk rk kk sk v h ht sz d pid l r]; simpl in *.
  destruct (isLeaf _) eqn:Hleaf.
  - destruct (Equal k kk).
    + inv_ok H. inv_ok H. apply returnNode_Ok in H0. subst. reflexivity.
    + inv_ok H. reflexivity.
  - destruct (Compare k kk).
    + destruct r as [r|]; [| inv_ok H; discriminate].
      inv_ok H. destruct a as [[[[ns nk'] v'] rm] [e|]]; [inv_ok H; reflexivity |].
      apply IHr in H0. subst v'.
      destruct rm; simpl in H.
      * destruct ns.
        -- repeat (inv_ok H). reflexivity.
        -- repeat (inv_ok H). reflexivity.
      * inv_ok H. reflexivity.
    + destruct l as [l|]; [| inv_ok H; discriminate].
      inv_ok H. destruct a as [[[[ns nk'] v'] rm] [e|]]; [inv_ok H; reflexivity |].
      apply IHl in H0. subst v'.
      destruct rm; simpl in H.
      * destruct ns.
        -- repeat (inv_ok H). reflexivity.
        -- repeat (inv_ok H). reflexivity.
      * inv_ok H. reflexivity.
    + destruct r as [r|]; [| inv_ok H; discriminate].
      inv_ok H. destruct a as [[[[ns nk'] v'] rm] [e|]]; [inv_ok H; reflexivity |].
      apply IHr in H0. subst v'.
      destruct rm; simpl in H.
      * destruct ns.
        -- repeat (inv_ok H). reflexivity.
        -- repeat (inv_ok H). reflexivity.
      * inv_ok H. reflexivity.
Qed.

(** C2.  On the empty tree, [Set("a", "1")] followed by [Remove("a")]:
    the key is removed and the value returned is nil, not "1". *)
Theorem C2_remove_returns_nil_value :
  exists t1 t2,
    Tree_Set exEnv (str "a") (str "1") exTree0 = Ok ((false, None), t1) /\
    Tree_Remove exEnv (str "a") t1 = Ok ((None, true, None), t2) /\
    root t2 = None.
Proof.
  eexists. eexists. split; [vm_compute; reflexivity |].
  split; vm_compute; reflexivity.
Qed.

(** ** C10: the working-set counter after [SaveVersion] *)

Definition exTree3 : Tree := run exTree0 SaveVersion exTree2.

(** C10.  On the empty tree, [Set("a", "1")], [Set("b", "2")] and
    [SaveVersion] leave [workingSize] at 3 and one node in memory;
    [asyncCheckpoint] then collects one node and returns the error
    "set count mismatch; expected=3, actual=1". *)
Theorem C10_checkpoint_count_mismatch :
  workingSize exTree2 = 3 /\
  (exists h t3, SaveVersion exTree2 = Ok ((h, 1, None), t3) /\ t3 = exTree3) /\
  workingSize exTree3 = 3 /\
  option_map dirtyCount (root exTree3) = Some (Fetch (NewNodeKey 1 1)) /\
  exists t4, asyncCheckpoint exEnv exTree3 = Ok (Some (errSetCount 3 1), t4).
Proof.
  split; [vm_compute; reflexivity |].
  split; [eexists; eexists; split; vm_compute; reflexivity |].
  split; [vm_compute; reflexivity |].
  split; [vm_compute; reflexivity |].
  eexists. vm_compute. reflexivity.
Qed.

(** ** C1 and C4: what [SaveVersion] writes and what it leaves behind *)

(** The fields that hashing does not touch. *)
Definition hashFrame (t t' : Tree) : Prop :=
  version t' = version t /\ sequence t' = sequence t /\
  workingSize t' = workingSize t /\ workingBytes t' = workingBytes t /\
  orphans t' = orphans t /\ metrics t' = metrics t /\ sql t' = sql t /\
  lastCheckpoint t' = lastCheckpoint t /\ checkpointerCh t' = checkpointerCh t.

Lemma hashFrame_refl (t : Tree) : hashFrame t t.
Proof. repeat split. Qed.

Lemma hashFrame_trans (t1 t2 t3 : Tree) :
  hashFrame t1 t2 -> hashFrame t2 t3 -> hashFrame t1 t3.
Proof.
  unfold hashFrame. intros (?&?&?&?&?&?&?&?&?) (?&?&?&?&?&?&?&?&?).
  repeat split; congruence.
Qed.

Lemma onPool_frame {A : Type} (op : nodePool -> Res (A * nodePool))
    (t t' : Tree) (a : A) :
  onPool op t = Ok (a, t') -> hashFrame t t'.
Proof.
  unfold onPool. intros H. apply rbind_Ok in H as ([a1 p1] & _ & H).
  inversion H; subst. repeat split.
Qed.

Lemma detach_frame (isLeafChild isDirtyChild : bool) (child node nodeL : Node)
    (t t' : Tree) (res : Node) :
  (if isLeafChild then
     let* _ := (if negb isDirtyChild
                then let* _ := onPool (Put child) in ret tt
                else ret tt) in
     ret nodeL
   else ret node) t = Ok (res, t') ->
  hashFrame t t'.
Proof.
  destruct isLeafChild.
  - intros H. inv_ok H. inv_ok H. destruct isDirtyChild; simpl in H0.
    + inv_ok H0. apply hashFrame_refl.
    + inv_ok H0. inv_ok H0. eapply onPool_frame. exact H.
  - intros H. inv_ok H. apply hashFrame_refl.
Qed.

Lemma deepHash_frame (node : Node) :
  forall t t' res, deepHash node t = Ok (res, t') -> hashFrame t t'.
Proof.
  induction node as [node IHl IHr] using Node_children_ind.
  intros t t' res H. rewrite deepHash_eq in H.
  inv_bind H as ver t1 Hver. inv_ok Hver.
  inv_bind H as idx t2 Hidx. inv_ok Hidx.
  inv_bind H as u t3 Happ.
  assert (F0 : hashFrame t2 t3).
  { destruct (Version (nodeKey node) =? version t2); [| inv_ok Happ; apply hashFrame_refl].
    destruct (isLeaf node); inv_ok Happ; repeat split. }
  destruct (hash node) as [h|]; [inv_ok H; exact F0 |].
  destruct (leftNode node) as [l|]; [| inv_ok H; discriminate].
  inv_bind H as resl t4 Hl. apply IHl in Hl.
  simpl in H.
  destruct (rightNode node) as [r|]; [| inv_ok H; discriminate].
  inv_bind H as resr t5 Hr. apply IHr in Hr.
  inv_bind H as n1 t6 Hd1. apply detach_frame in Hd1.
  inv_bind H as n2 t7 Hd2. apply detach_frame in Hd2.
  inv_bind H as u2 t8 Hal.
  assert (F1 : hashFrame t7 t8).
  { unfold aliased in Hal.
    destruct (Version (nodeKey node) =? version t2); [| inv_ok Hal; apply hashFrame_refl].
    destruct (isLeaf node); inv_ok Hal; repeat split. }
  inv_ok H.
  repeat (eapply hashFrame_trans; [eassumption |]). apply hashFrame_refl.
Qed.

Lemma deepHashRoot_frame (t t' : Tree) :
  deepHashRoot t = Ok (tt, t') -> hashFrame t t' /\ root t' <> None.
Proof.
  unfold deepHashRoot. intros H. inv_ok H. inv_ok H0.
  destruct (root t0) as [rt|]; [| discriminate].
  inv_ok H. apply deepHash_frame in H0. inv_ok H.
  split; [| discriminate].
  destruct H0 as (?&?&?&?&?&?&?&?&?). repeat split; assumption.
Qed.

(** The tree on which [SaveVersion] starts hashing. *)
Definition bumped (t : Tree) : Tree :=
  set_sequence 0 (set_version (i64 (version t + 1)) t).

(** The tree after the writes [ops] have reached the backend. *)
Definition logged (ops : list SqlOp) (t : Tree) : Tree :=
  set_sql (option_map (fun db => mkSql (written db ++ ops) (fails db)) (sql t)) t.

Lemma sqlDo_fails (t : Tree) (db : SqliteDb) (k : SqlKind) (e : SqlOp) :
  sql t = Some db -> fails db k = true ->
  sqlDo k e t = Ok (Some (errBackend k), t).
Proof. intros Hs F. unfold sqlDo. rewrite Hs, F. reflexivity. Qed.

Lemma sqlDo_works (t : Tree) (db : SqliteDb) (k : SqlKind) (e : SqlOp) :
  sql t = Some db -> fails db k = false ->
  sqlDo k e t = Ok (None, logged [e] t).
Proof. intros Hs F. unfold sqlDo, logged. rewrite Hs, F. reflexivity. Qed.

Lemma logged_sql (ops : list SqlOp) (t : Tree) (db : SqliteDb) :
  sql t = Some db ->
  sql (logged ops t) = Some (mkSql (written db ++ ops) (fails db)).
Proof. intros Hs. unfold logged. simpl. rewrite Hs. reflexivity. Qed.

Lemma logged_logged (a b : list SqlOp) (t : Tree) :
  logged b (logged a t) = logged (a ++ b) t.
Proof.
  unfold logged. destruct t as [? ? ? [db|] ? ? ? ? ? ? ? ? ?]; simpl; [| reflexivity].
  rewrite app_assoc. reflexivity.
Qed.

Lemma logged_nil (t : Tree) : logged [] t = t.
Proof.
  unfold logged. destruct t as [? ? ? [[w f]|] ? ? ? ? ? ? ? ? ?]; simpl; [| reflexivity].
  rewrite app_nil_r. reflexivity.
Qed.

Definition shardKinds : list SqlKind :=
  [KNextShard; KBatchSetBranches; KMapVersions; KAddShardQuery; KExec].

(** What the block for version 1 returns and writes, by the first operation
    that fails. *)
Definition shardOutcome (ver : Z) (bs : list Node) (k : option SqlKind)
  : option (option Digest * Z * option error) * list SqlOp :=
  match k with
  | Some KNextShard => (Some (None, 0, None), [])
  | Some KBatchSetBranches =>
      (Some (None, ver, Some (errBackend KBatchSetBranches)), [OpNextShard])
  | Some KMapVersions =>
      (Some (None, 0, Some (errBackend KMapVersions)),
       [OpNextShard; OpBatchSet bs false])
  | Some KAddShardQuery =>
      (Some (None, 0, Some (errBackend KAddShardQuery)),
       [OpNextShard; OpBatchSet bs false; OpMapVersions])
  | Some KExec =>
      (Some (None, ver, Some (errBackend KExec)),
       [OpNextShard; OpBatchSet bs false; OpMapVersions; OpAddShardQuery])
  | _ =>
      (None,
       [OpNextShard; OpBatchSet bs false; OpMapVersions; OpAddShardQuery;
        OpExec createLeafIndex])
  end.

Lemma firstVersionShard_spec (ver : Z) (t : Tree) (db : SqliteDb) :
  sql t = Some db ->
  firstVersionShard ver t =
  Ok (fst (shardOutcome ver (branches t) (find (fails db) shardKinds)),
      logged (snd (shardOutcome ver (branches t) (find (fails db) shardKinds))) t).
Proof.
  intros Hs. unfold firstVersionShard, shardKinds. simpl find.
  destruct (fails db KNextShard) eqn:F1.
  { rewrite (bind_eq _ _ _ (sqlDo_fails _ _ _ Hs F1)). simpl. rewrite logged_nil. reflexivity. }
  rewrite (bind_eq _ _ _ (sqlDo_works _ _ _ Hs F1)).
  pose proof (logged_sql [OpNextShard] _ Hs) as Hs1.
  unfold gets at 1. unfold bind at 1.
  change (branches (logged [OpNextShard] t)) with (branches t).
  destruct (fails db KBatchSetBranches) eqn:F2.
  { rewrite (bind_eq _ _ _ (sqlDo_fails _ _ _ Hs1 F2)). reflexivity. }
  rewrite (bind_eq _ _ _ (sqlDo_works _ _ _ Hs1 F2)).
  rewrite logged_logged. pose proof (logged_sql ([OpNextShard] ++ [OpBatchSet (branches t) false]) _ Hs) as Hs2.
  destruct (fails db KMapVersions) eqn:F3.
  { rewrite (bind_eq _ _ _ (sqlDo_fails _ _ _ Hs2 F3)). reflexivity. }
  rewrite (bind_eq _ _ _ (sqlDo_works _ _ _ Hs2 F3)).
  rewrite logged_logged.
  pose proof (logged_sql (([OpNextShard] ++ [OpBatchSet (branches t) false]) ++ [OpMapVersions]) _ Hs) as Hs3.
  destruct (fails db KAddShardQuery) eqn:F4.
  { rewrite (bind_eq _ _ _ (sqlDo_fails _ _ _ Hs3 F4)). reflexivity. }
  rewrite (bind_eq _ _ _ (sqlDo_works _ _ _ Hs3 F4)).
  rewrite logged_logged.
  pose proof (logged_sql ((([OpNextShard] ++ [OpBatchSet (branches t) false]) ++ [OpMapVersions]) ++ [OpAddShardQuery]) _ Hs) as Hs4.
  destruct (fails db KExec) eqn:F5.
  { rewrite (bind_eq _ _ _ (sqlDo_fails _ _ _ Hs4 F5)). reflexivity. }
  rewrite (bind_eq _ _ _ (sqlDo_works _ _ _ Hs4 F5)).
  rewrite logged_logged. reflexivity.
Qed.

(** The tree once [saveRoot] has cleared the working vectors. *)
Definition cleared (t : Tree) : Tree :=
  set_orphans [] (set_branches [] (set_leaves [] t)).

Lemma saveRoot_spec (t : Tree) (db : SqliteDb) (rt : Node) :
  sql t = Some db -> root t = Some rt ->
  saveRoot t =
  if fails db KSaveRoot
  then Ok ((None, version t, Some (errSaveRoot (errBackend KSaveRoot))), cleared t)
  else Ok ((hash rt, version t, None),
           logged [OpSaveRoot (version t) (root t)] (cleared t)).
Proof.
  intros Hs Hr. unfold saveRoot.
  unfold modify at 1. unfold bind at 1.
  unfold modify at 1. unfold bind at 1.
  unfold modify at 1. unfold bind at 1.
  unfold gets at 1. unfold bind at 1.
  change (sql (set_orphans [] (set_branches [] (set_leaves [] t)))) with (sql t).
  rewrite Hs.
  unfold gets at 1. unfold bind at 2. unfold gets at 1. unfold bind at 2.
  change (set_orphans [] (set_branches [] (set_leaves [] t))) with (cleared t).
  assert (Hs' : sql (cleared t) = Some db) by exact Hs.
  change (version (cleared t)) with (version t).
  change (root (cleared t)) with (root t).
  destruct (fails db KSaveRoot) eqn:F.
  - rewrite (bind_eq
               (fun t0 => sqlDo KSaveRoot (OpSaveRoot (version t0) (root t0)) t0)
               _ (cleared t)
               (sqlDo_fails (cleared t) KSaveRoot
                  (OpSaveRoot (version (cleared t)) (root (cleared t))) Hs' F)).
    reflexivity.
  - rewrite (bind_eq
               (fun t0 => sqlDo KSaveRoot (OpSaveRoot (version t0) (root t0)) t0)
               _ (cleared t)
               (sqlDo_works (cleared t) KSaveRoot
                  (OpSaveRoot (version (cleared t)) (root (cleared t))) Hs' F)).
    unfold gets, bind, ret. simpl. rewrite Hr. reflexivity.
Qed.

(** The tree once the written leaves are counted in the metrics. *)
Definition counted (t : Tree) : Tree :=
  set_metrics
    (set_WriteLeaves
       (i64 (WriteLeaves (metrics t) + Z.of_nat (length (leaves t)))) (metrics t))
    t.

(** [SaveVersion] after hashing, by the operations that fail. *)
Definition afterHashing (db : SqliteDb) (t1 : Tree)
  : Res (option Digest * Z * option error * Tree) :=
  if fails db KBatchSetLeaves
  then Ok ((None, version t1, Some (errBackend KBatchSetLeaves)), t1)
  else
    let t2 := counted (logged [OpBatchSet (leaves t1) true] t1) in
    let so := if Z.eqb (version t1) 1
              then shardOutcome (version t1) (branches t1)
                     (find (fails db) shardKinds)
              else (None, []) in
    match fst so with
    | Some r => Ok (r, logged (snd so) t2)
    | None =>
        if fails db KSaveRoot
        then Ok ((None, version t1, Some (errSaveRoot (errBackend KSaveRoot))),
                 cleared (logged (snd so) t2))
        else Ok ((rootHash t1, version t1, None),
                 logged [OpSaveRoot (version t1) (root t1)]
                   (cleared (logged (snd so) t2)))
    end.

Lemma SaveVersion_spec (t t1 : Tree) (db : SqliteDb) :
  sql t = Some db ->
  deepHashRoot (bumped t) = Ok (tt, t1) ->
  SaveVersion t = afterHashing db t1.
Proof.
  intros Hsql Hdeep.
  destruct (deepHashRoot_frame _ Hdeep) as [(Hv & Hs & Hws & Hwb & Ho & Hm & Hsq & _) Hroot].
  change (sql (bumped t)) with (sql t) in Hsq. rewrite Hsql in Hsq.
  unfold SaveVersion, afterHashing.
  unfold modify at 1. unfold bind at 1.
  unfold modify at 1. unfold bind at 1.
  change (set_sequence 0 (set_version (i64 (version t + 1)) t)) with (bumped t).
  rewrite (bind_eq _ _ _ Hdeep).
  unfold gets at 1. unfold bind at 1.
  destruct (fails db KBatchSetLeaves) eqn:F1.
  { rewrite (bind_eq _ _ _ (sqlDo_fails _ _ _ Hsq F1)). reflexivity. }
  rewrite (bind_eq _ _ _ (sqlDo_works _ _ _ Hsq F1)).
  unfold gets at 1. unfold bind at 1.
  change (version (logged [OpBatchSet (leaves t1) true] t1)) with (version t1).
  unfold modify at 1. unfold bind at 1.
  change (set_metrics _ (logged [OpBatchSet (leaves t1) true] t1))
    with (counted (logged [OpBatchSet (leaves t1) true] t1)).
  set (t2 := counted (logged [OpBatchSet (leaves t1) true] t1)).
  assert (Hs2 : sql t2 = Some (mkSql (written db ++ [OpBatchSet (leaves t1) true]) (fails db))).
  { exact (logged_sql [OpBatchSet (leaves t1) true] _ Hsq). }
  destruct (root t1) as [rt|] eqn:Hrt; [| congruence].
  destruct (version t1 =? 1) eqn:Hver.
  - rewrite (bind_eq _ _ _ (firstVersionShard_spec (version t1) _ Hs2)).
    cbn [fails]. change (branches t2) with (branches t1).
    set (so := shardOutcome (version t1) (branches t1) (find (fails db) shardKinds)).
    destruct (fst so) as [r|]; [reflexivity |].
    rewrite (saveRoot_spec (logged (snd so) t2) (logged_sql (snd so) _ Hs2)
               (Hrt : root (logged (snd so) t2) = Some rt)).
    cbn [fails].
    change (version (logged (snd so) t2)) with (version t1).
    change (root (logged (snd so) t2)) with (root t1).
    unfold rootHash, childHash. rewrite Hrt. reflexivity.
  - unfold ret at 1. unfold bind at 1. simpl fst. simpl snd.
    rewrite logged_nil.
    rewrite (saveRoot_spec t2 Hs2 (Hrt : root t2 = Some rt)).
    cbn [fails].
    change (version t2) with (version t1).
    change (root t2) with (root t1).
    unfold rootHash, childHash. rewrite Hrt. reflexivity.
Qed.

(** The operations [SaveVersion] attempts on the backend, in order. *)
Definition attempted (ver : Z) : list SqlKind :=
  [KBatchSetLeaves] ++ (if Z.eqb ver 1 then shardKinds else []) ++ [KSaveRoot].

Ltac c1_done :=
  repeat match goal with |- _ /\ _ => split end;
  try assumption; try reflexivity;
  try (let E := fresh in intros E; discriminate E);
  try (intros _; repeat split; try assumption; reflexivity).

(** C1 (as amended).  When an operation of the backend other than the switch
    of shard fails during [SaveVersion], the call returns an error and no hash.
    The tree is not taken back to the previous version: the version counter
    stays incremented, the sequence stays at zero and the root stays as
    hashing left it; [workingSize] and [workingBytes] are as before the call.
    When the write of the leaves fails, the vectors of dirty leaves and
    branches are those that hashing filled and the orphan log is as before
    the call; when the write of the root record fails, the vectors and the
    orphan log are already cleared. *)
Theorem C1_failed_save_is_not_rolled_back
    (t t1 : Tree) (db : SqliteDb) (k : SqlKind) :
  sql t = Some db ->
  deepHashRoot (bumped t) = Ok (tt, t1) ->
  find (fails db) (attempted (i64 (version t + 1))) = Some k ->
  k <> KNextShard ->
  exists v e t2,
    SaveVersion t = Ok ((None, v, Some e), t2) /\
    version t2 = i64 (version t + 1) /\ sequence t2 = 0 /\
    workingSize t2 = workingSize t /\ workingBytes t2 = workingBytes t /\
    root t2 = root t1 /\
    (k = KBatchSetLeaves ->
     leaves t2 = leaves t1 /\ branches t2 = branches t1 /\ orphans t2 = orphans t) /\
    (k = KSaveRoot -> leaves t2 = [] /\ branches t2 = [] /\ orphans t2 = []).
Proof.
  intros Hsql Hdeep Hfind Hk.
  rewrite (SaveVersion_spec t Hsql Hdeep).
  destruct (deepHashRoot_frame _ Hdeep) as [(Hv & Hs & Hws & Hwb & Ho & _) _].
  change (version (bumped t)) with (i64 (version t + 1)) in Hv.
  change (sequence (bumped t)) with 0 in Hs.
  change (workingSize (bumped t)) with (workingSize t) in Hws.
  change (workingBytes (bumped t)) with (workingBytes t) in Hwb.
  change (orphans (bumped t)) with (orphans t) in Ho.
  rewrite <- Hv in Hfind. unfold attempted, shardKinds in Hfind.
  unfold afterHashing, shardKinds. cbn in Hfind.
  assert (Done : forall (v : Z) (e : error) (t2 : Tree) (P : Tree -> Prop),
             P t2 -> exists v' e' t2', Ok (None, v, Some e, t2) =
                       Ok (@None Digest, v', Some e', t2') /\ P t2').
  { intros v e t2 P HP. exists v, e, t2. split; [reflexivity | exact HP]. }
  destruct (fails db KBatchSetLeaves) eqn:F1.
  { inversion Hfind; subst k. apply Done. c1_done. }
  destruct (version t1 =? 1) eqn:Hver1; cbn in Hfind |- *.
  - destruct (fails db KNextShard) eqn:F2; [inversion Hfind; congruence |].
    destruct (fails db KBatchSetBranches) eqn:F3.
    { inversion Hfind; subst k. apply Done. c1_done. }
    destruct (fails db KMapVersions) eqn:F4.
    { inversion Hfind; subst k. apply Done. c1_done. }
    destruct (fails db KAddShardQuery) eqn:F5.
    { inversion Hfind; subst k. apply Done. c1_done. }
    destruct (fails db KExec) eqn:F6.
    { inversion Hfind; subst k. apply Done. c1_done. }
    cbn. destruct (fails db KSaveRoot) eqn:F7; [| discriminate].
    inversion Hfind; subst k. apply Done. c1_done.
  - destruct (fails db KSaveRoot) eqn:F7; [| discriminate].
    inversion Hfind; subst k. apply Done. c1_done.
Qed.

Definition SqlKind_eqb (a b : SqlKind) : bool :=
  match a, b with
  | KBatchSetLeaves, KBatchSetLeaves | KNextShard, KNextShard
  | KBatchSetBranches, KBatchSetBranches | KMapVersions, KMapVersions
  | KAddShardQuery, KAddShardQuery | KExec, KExec | KSaveRoot, KSaveRoot => true
  | _, _ => false
  end.

(** A backend on which exactly the operation [k] fails. *)
Definition failDb (k : SqlKind) : SqliteDb := mkSql [] (fun x => SqlKind_eqb x k).

(** The tree with the keys "a" and "b" set, on a backend that cannot write
    leaves. *)
Definition exTreeF : Tree := set_sql (Some (failDb KBatchSetLeaves)) exTree2.

Lemma C1_witness :
  exists t1,
    deepHashRoot (bumped exTreeF) = Ok (tt, t1) /\
    exists v e t2,
      SaveVersion exTreeF = Ok ((None, v, Some e), t2) /\
      version t2 = i64 (version exTreeF + 1) /\ sequence t2 = 0 /\
      workingSize t2 = workingSize exTreeF /\
      workingBytes t2 = workingBytes exTreeF /\
      root t2 = root t1 /\
      (KBatchSetLeaves = KBatchSetLeaves ->
       leaves t2 = leaves t1 /\ branches t2 = branches t1 /\
       orphans t2 = orphans exTreeF) /\
      (KBatchSetLeaves = KSaveRoot ->
       leaves t2 = [] /\ branches t2 = [] /\ orphans t2 = []).
Proof.
  eexists. split; [vm_compute; reflexivity |].
  eapply (C1_failed_save_is_not_rolled_back exTreeF (db := failDb KBatchSetLeaves)
            (k := KBatchSetLeaves)).
  - reflexivity.
  - vm_compute. reflexivity.
  - vm_compute. reflexivity.
  - discriminate.
Defined.

(** C1 as stated fails: the write of the leaves fails, [SaveVersion] returns
    the error, and the tree is not the tree before the call: the version went
    from 0 to 1, the sequence from 3 to 0, and the vectors of dirty leaves and
    branches are filled. *)
Lemma C1_failed_save_changes_tree :
  exists e t2,
    SaveVersion exTreeF = Ok ((None, 1, Some e), t2) /\
    version exTreeF = 0 /\ version t2 = 1 /\
    sequence exTreeF = 3 /\ sequence t2 = 0 /\
    leaves exTreeF = [] /\ length (leaves t2) = 2%nat /\
    branches exTreeF = [] /\ length (branches t2) = 1%nat /\
    root t2 <> root exTreeF.
Proof.
  eexists. eexists. split; [vm_compute; reflexivity |].
  repeat split; try (vm_compute; reflexivity).
  vm_compute. discriminate.
Qed.

(** The failure of the switch of shard is not reported: [SaveVersion] returns
    version 0 and no error. *)
Lemma SaveVersion_shard_failure_not_reported :
  exists t2,
    SaveVersion (set_sql (Some (failDb KNextShard)) exTree2) = Ok ((None, 0, None), t2) /\
    version t2 = 1.
Proof. eexists. split; vm_compute; reflexivity. Qed.


(** The tree saved at version 1 with the key "a", then with "b" set. *)
Definition exTreeA : Tree := run exTree0 SaveVersion exTree1.
Definition exTreeB : Tree := run exTree0 (Tree_Set exEnv (str "b") (str "2")) exTreeA.
Definition exDbB : SqliteDb := match sql exTreeB with Some db => db | None => okDb end.


(** The nodes of the batches that a log writes. *)
Definition batched (log : list SqlOp) : list Node :=
  flat_map (fun op => match op with OpBatchSet ns _ => ns | _ => [] end) log.


(** ** The order of keys *)

Unset Implicit Arguments.

Lemma to_N_inj (x y : byte) : to_N x = to_N y -> x = y.
Proof.
  intros H. assert (E : Some x = Some y).
  { rewrite <- (of_to_N x), <- (of_to_N y), H. reflexivity. }
  inversion E. reflexivity.
Qed.

Lemma lex_refl (a : list byte) : lex a a = Eq.
Proof. induction a as [|x a IH]; simpl; [| rewrite N.compare_refl]; auto. Qed.

Lemma lex_eq (a b : list byte) : lex a b = Eq -> a = b.
Proof.
  revert b. induction a as [|x a IH]; intros [|y b]; simpl; try discriminate; auto.
  destruct (N.compare_spec (to_N x) (to_N y)) as [E| |]; try discriminate.
  intros H. apply to_N_inj in E. apply IH in H. congruence.
Qed.

Lemma lex_antisym (a b : list byte) : lex b a = CompOpp (lex a b).
Proof.
  revert b. induction a as [|x a IH]; intros [|y b]; simpl; auto.
  rewrite (N.compare_antisym (to_N x) (to_N y)).
  destruct (N.compare (to_N x) (to_N y)); simpl; auto.
Qed.

Lemma lex_trans (a b c : list byte) :
  lex a b = Lt -> lex b c = Lt -> lex a c = Lt.
Proof.
  revert b c. induction a as [|x a IH]; intros [|y b] [|z c]; simpl;
    try discriminate; auto.
  destruct (N.compare_spec (to_N x) (to_N y)) as [E|L|G]; try discriminate.
  - rewrite E. destruct (N.compare (to_N y) (to_N z)); try discriminate; eauto.
  - intros _. destruct (N.compare_spec (to_N y) (to_N z)) as [E'|L'|G']; try discriminate.
    + rewrite <- E'. intros _. apply N.compare_lt_iff in L. rewrite L. reflexivity.
    + intros _. assert (L2 : (to_N x < to_N z)%N) by (eapply N.lt_trans; eauto).
      apply N.compare_lt_iff in L2. rewrite L2. reflexivity.
Qed.

Definition klt (a b : slice) : Prop := Compare a b = Lt.
Definition kle (a b : slice) : Prop := Compare a b <> Gt.

Lemma Compare_antisym (a b : slice) : Compare b a = CompOpp (Compare a b).
Proof. apply lex_antisym. Qed.

Lemma Compare_Gt (a b : slice) : Compare a b = Gt <-> klt b a.
Proof.
  unfold klt. rewrite (Compare_antisym a b).
  destruct (Compare a b); simpl; split; congruence.
Qed.

Lemma Compare_Eq_elems (a b : slice) : Compare a b = Eq -> elems a = elems b.
Proof. apply lex_eq. Qed.

Lemma Compare_Eq_l (a b c : slice) : Compare a b = Eq -> Compare a c = Compare b c.
Proof. intros H. unfold Compare. rewrite (Compare_Eq_elems _ _ H). reflexivity. Qed.

Lemma Compare_Eq_r (a b c : slice) : Compare a b = Eq -> Compare c a = Compare c b.
Proof. intros H. unfold Compare. rewrite (Compare_Eq_elems _ _ H). reflexivity. Qed.

Lemma klt_trans (a b c : slice) : klt a b -> klt b c -> klt a c.
Proof. apply lex_trans. Qed.

Lemma klt_le_trans (a b c : slice) : klt a b -> kle b c -> klt a c.
Proof.
  unfold kle. intros H1 H2. destruct (Compare b c) eqn:E.
  - unfold klt. rewrite <- (Compare_Eq_r _ _ a E). exact H1.
  - eapply klt_trans; eauto.
  - congruence.
Qed.

Lemma kle_lt_trans (a b c : slice) : kle a b -> klt b c -> klt a c.
Proof.
  unfold kle. intros H1 H2. destruct (Compare a b) eqn:E.
  - unfold klt. rewrite (Compare_Eq_l _ _ c E). exact H2.
  - eapply klt_trans; eauto.
  - congruence.
Qed.

Lemma klt_kle (a b : slice) : klt a b -> kle a b.
Proof. unfold klt, kle. congruence. Qed.

Lemma kle_trans (a b c : slice) : kle a b -> kle b c -> kle a c.
Proof.
  intros H1 H2. destruct (Compare a b) eqn:E.
  - unfold kle. rewrite (Compare_Eq_l _ _ c E). exact H2.
  - apply klt_kle. eapply klt_le_trans; eauto.
  - congruence.
Qed.

Lemma kle_refl (a : slice) : kle a a.
Proof. unfold kle, Compare. rewrite lex_refl. discriminate. Qed.

Lemma not_klt_kle (a b : slice) : Compare a b <> Lt -> kle b a.
Proof.
  unfold kle. rewrite (Compare_antisym a b).
  destruct (Compare a b); simpl; congruence.
Qed.

Lemma klt_irrefl (a : slice) : ~ klt a a.
Proof. unfold klt, Compare. rewrite lex_refl. discriminate. Qed.

(** ** Search trees *)

(** Bounds on keys: [None] is no bound, the lower bound is inclusive, the
    upper bound is strict. *)
Definition above (lo : option slice) (k : slice) : Prop :=
  match lo with Some l => kle l k | None => True end.

Definition below (hi : option slice) (k : slice) : Prop :=
  match hi with Some h => klt k h | None => True end.

(** Invariants 2 and 3 of section 3, on a subtree that is resident in memory:
    every key of the left subtree is below the key of the node, every key of
    the right subtree is at least the key of the node, a leaf has height 0 and
    an inner node has height 1 + max of the heights of its children. *)
Inductive wf : option slice -> option slice -> Node -> Prop :=
| wf_leaf lo hi n :
    isLeaf n = true -> above lo (key n) -> below hi (key n) -> wf lo hi n
| wf_inner lo hi n l r :
    leftNode n = Some l -> rightNode n = Some r ->
    wf lo (Some (key n)) l -> wf (Some (key n)) hi r ->
    subtreeHeight n = 1 + Z.max (subtreeHeight l) (subtreeHeight r) ->
    wf lo hi n.

(** The leaves of a subtree, from left to right. *)
Fixpoint leafList (n : Node) : list Node :=
  match n with
  | mkNode _ _ _ _ _ _ _ ht _ _ _ l r =>
      if Z.eqb ht 0 then [n]
      else
        match l, r with
        | Some l', Some r' => leafList l' ++ leafList r'
        | _, _ => []
        end
  end.

(** A property of every node that the subtree holds. *)
Fixpoint allNodes (P : Node -> Prop) (n : Node) : Prop :=
  match n with
  | mkNode _ _ _ _ _ _ _ _ _ _ _ l r =>
      P n /\
      match l with Some l' => allNodes P l' | None => True end /\
      match r with Some r' => allNodes P r' | None => True end
  end.

(** The part of invariant 4 of section 3 that the tree keeps: a node without
    hash is dirty and carries a node key of the working version. *)
Definition working (ver : Z) (n : Node) : Prop :=
  hash n = None -> dirty n = true /\ Version (nodeKey n) = i64 (ver + 1).

(** Insertion of the leaf [lf] for the key [k] into a sorted list of leaves:
    a leaf with an equal key is replaced. *)
Fixpoint upsert (k : slice) (lf : Node) (ls : list Node) : list Node :=
  match ls with
  | [] => [lf]
  | x :: ls' =>
      match Compare k (key x) with
      | Lt => lf :: x :: ls'
      | Eq => lf :: ls'
      | Gt => x :: upsert k lf ls'
      end
  end.

Definition hasKey (k : slice) (n : Node) : bool :=
  existsb (fun lf => Equal k (key lf)) (leafList n).

(** What a call leaves of the tree's fields. *)
Definition stFrame (t t' : Tree) : Prop :=
  version t' = version t /\ pool t' = pool t /\ root t' = root t /\
  sql t' = sql t /\ leaves t' = leaves t /\ branches t' = branches t.

Definition sameData (n n' : Node) : Prop :=
  key n' = key n /\ value n' = value n /\
  subtreeHeight n' = subtreeHeight n /\ size n' = size n /\
  leftNode n' = leftNode n /\ rightNode n' = rightNode n /\ poolId n' = poolId n.

Lemma leafList_eq (n : Node) :
  leafList n =
  if isLeaf n then [n]
  else match leftNode n, rightNode n with
       | Some l, Some r => leafList l ++ leafList r
       | _, _ => []
       end.
Proof. destruct n; reflexivity. Qed.

Lemma allNodes_eq (P : Node -> Prop) (n : Node) :
  allNodes P n =
  (P n /\ onChild (allNodes P) (leftNode n) /\ onChild (allNodes P) (rightNode n)).
Proof. destruct n; reflexivity. Qed.

Lemma stFrame_refl (t : Tree) : stFrame t t.
Proof. repeat split. Qed.

Lemma stFrame_trans (t1 t2 t3 : Tree) :
  stFrame t1 t2 -> stFrame t2 t3 -> stFrame t1 t3.
Proof.
  unfold stFrame. intros (?&?&?&?&?&?) (?&?&?&?&?&?). repeat split; congruence.
Qed.

Lemma i8_small (z : Z) : -128 <= z < 128 -> i8 z = z.
Proof.
  intros H. unfold i8, wrap_s.
  change (2 ^ (8 - 1)) with 128. change (2 ^ 8) with 256.
  rewrite Z.mod_small by lia. lia.
Qed.

Lemma wf_height (lo hi : option slice) (n : Node) :
  wf lo hi n -> 0 <= subtreeHeight n.
Proof.
  induction 1 as [lo hi n Hl _ _ | lo hi n l r _ _ _ IHl _ IHr Hh].
  - unfold isLeaf in Hl. apply Z.eqb_eq in Hl. lia.
  - lia.
Qed.

Lemma wf_inner_not_leaf (lo hi : option slice) (n l r : Node) :
  wf lo (Some (key n)) l -> wf (Some (key n)) hi r ->
  subtreeHeight n = 1 + Z.max (subtreeHeight l) (subtreeHeight r) ->
  isLeaf n = false.
Proof.
  intros Hl Hr Hh. apply wf_height in Hl. apply wf_height in Hr.
  unfold isLeaf. apply Z.eqb_neq. lia.
Qed.

Lemma wf_cases (lo hi : option slice) (n : Node) :
  wf lo hi n ->
  (isLeaf n = true /\ above lo (key n) /\ below hi (key n)) \/
  (isLeaf n = false /\
   exists l r, leftNode n = Some l /\ rightNode n = Some r /\
     wf lo (Some (key n)) l /\ wf (Some (key n)) hi r /\
     subtreeHeight n = 1 + Z.max (subtreeHeight l) (subtreeHeight r)).
Proof.
  intros H. inversion H as [? ? ? Hl Ha Hb | ? ? ? l r El Er Hl Hr Hh]; subst.
  - left. auto.
  - right. split; [eapply wf_inner_not_leaf; eauto |].
    exists l, r. auto.
Qed.

Lemma above_weaken (lo : option slice) (a b : slice) :
  above lo a -> kle a b -> above lo b.
Proof. destruct lo as [l|]; simpl; [| auto]. apply kle_trans. Qed.

Lemma below_weaken (hi : option slice) (a b : slice) :
  below hi b -> kle a b -> below hi a.
Proof. destruct hi as [h|]; simpl; [| auto]. intros H1 H2. eapply kle_lt_trans; eauto. Qed.

(** The keys of a search tree are within its bounds, and there is one. *)
Lemma wf_leaves_bounds (lo hi : option slice) (n : Node) :
  wf lo hi n ->
  Forall (fun lf => above lo (key lf) /\ below hi (key lf)) (leafList n) /\
  leafList n <> [].
Proof.
  induction 1 as [lo hi n Hl Ha Hb | lo hi n l r El Er Hwl IHl Hwr IHr Hh];
    rewrite leafList_eq.
  - rewrite Hl. split; [| discriminate]. constructor; [auto | constructor].
  - rewrite (wf_inner_not_leaf lo hi n l r Hwl Hwr Hh), El, Er.
    destruct IHl as [IHl Nl], IHr as [IHr Nr]. split.
    + apply Forall_app. split.
      * eapply Forall_impl; [exact IHl |]. simpl. intros x [Ha Hb]. split; [exact Ha |].
        destruct (leafList r) as [|y ys] eqn:E; [congruence |].
        apply Forall_cons in IHr as [[Hy1 Hy2] _].
        eapply below_weaken; [exact Hy2 |].
        apply klt_kle. eapply klt_le_trans; [exact Hb | exact Hy1].
      * eapply Forall_impl; [exact IHr |]. simpl. intros x [Ha Hb]. split; [| exact Hb].
        destruct (leafList l) as [|y ys] eqn:E; [congruence |].
        apply Forall_cons in IHl as [[Hy1 Hy2] _].
        eapply above_weaken; [exact Hy1 |].
        apply klt_kle. eapply klt_le_trans; [exact Hy2 | exact Ha].
    + destruct (leafList l); [congruence | discriminate].
Qed.

(** The bounds of a search tree can be made wider, and as tight as its keys
    allow. *)
Lemma wf_widen (lo hi lo' hi' : option slice) (n : Node) :
  wf lo hi n ->
  (forall k, above lo k -> above lo' k) ->
  (forall k, below hi k -> below hi' k) ->
  wf lo' hi' n.
Proof.
  intros H. revert lo' hi'.
  induction H as [lo hi n Hl Ha Hb | lo hi n l r El Er Hwl IHl Hwr IHr Hh];
    intros lo' hi' Hlo Hhi.
  - apply wf_leaf; auto.
  - eapply wf_inner; eauto.
Qed.

Lemma wf_tighten (lo hi lo' hi' : option slice) (n : Node) :
  wf lo hi n ->
  Forall (fun lf => above lo' (key lf) /\ below hi' (key lf)) (leafList n) ->
  wf lo' hi' n.
Proof.
  intros H. revert lo' hi'.
  induction H as [lo hi n Hl Ha Hb | lo hi n l r El Er Hwl IHl Hwr IHr Hh];
    intros lo' hi' HF; rewrite leafList_eq in HF.
  - rewrite Hl in HF. apply Forall_cons in HF as [[H1 H2] _]. apply wf_leaf; auto.
  - rewrite (wf_inner_not_leaf lo hi n l r Hwl Hwr Hh), El, Er in HF.
    apply Forall_app in HF as [HFl HFr].
    eapply wf_inner; eauto.
    + apply IHl. destruct (wf_leaves_bounds _ _ _ Hwl) as [Bl _].
      apply Forall_forall. intros x Hx.
      rewrite Forall_forall in HFl, Bl. split; [apply HFl | apply Bl]; auto.
    + apply IHr. destruct (wf_leaves_bounds _ _ _ Hwr) as [Br _].
      apply Forall_forall. intros x Hx.
      rewrite Forall_forall in HFr, Br. split; [apply Br | apply HFr]; auto.
Qed.

(** ** The helpers of the tree *)

Lemma addOrphan_ok (n : Node) (t : Tree) :
  exists t', addOrphan n t = Ok (tt, t') /\ stFrame t t'.
Proof.
  unfold addOrphan. destruct (hash n).
  - eexists. split; [reflexivity | repeat split].
  - eexists. split; [reflexivity | repeat split].
Qed.

Lemma mutateNode_ok (env : Env) (n : Node) (t : Tree) :
  exists n' t',
    mutateNode env n t = Ok (n', t') /\ stFrame t t' /\ sameData n n' /\
    hash n' = None /\
    (working (version t) n -> working (version t) n').
Proof.
  unfold mutateNode. destruct (hash n) as [h|] eqn:Hh.
  - destruct (dirty n) eqn:Hd.
    + eexists. eexists. split.
      { unfold bind, nextNodeKey, bind, modify, gets, ret. cbn. rewrite Hd. reflexivity. }
      split; [repeat split |]. split; [repeat split |]. split; [reflexivity |].
      intros _ _. cbn. split; [exact Hd | reflexivity].
    + eexists. eexists. split.
      { unfold bind, nextNodeKey, addWorkingBytes, addWorkingSize, bind, modify, gets, ret.
        cbn. rewrite Hd. reflexivity. }
      split; [repeat split |]. split; [repeat split |]. split; [reflexivity |].
      intros _ _. cbn. split; reflexivity.
  - exists n, t. split; [reflexivity |]. split; [apply stFrame_refl |].
    split; [repeat split |]. split; [exact Hh |]. auto.
Qed.

Lemma liftR_eq {A : Type} (a : A) (t : Tree) : liftR (Ok a) t = Ok (a, t).
Proof. reflexivity. Qed.

(** A pool from which [n] nodes can be taken. *)
Definition poolFits (n : Z) (p : nodePool) : Prop :=
  pool_ok p /\ nodes p <> [] /\
  Z.of_nat (length (free p)) + (2 ^ n - 1) * Z.of_nat (length (nodes p)) <= freeCap.

Lemma Get_fits (env : Env) (n : Z) (p : nodePool) :
  0 <= n -> poolFits (n + 1) p ->
  exists nd p', Get env p = Ok (nd, p') /\ wasReset nd /\ poolFits n p'.
Proof.
  intros Hn (Hok & Hne & Hcap).
  assert (Hpow : 2 ^ (n + 1) = 2 * 2 ^ n) by (rewrite Z.pow_add_r by lia; lia).
  assert (Hpos : 1 <= 2 ^ n) by (pose proof (Z.pow_pos_nonneg 2 n); lia).
  destruct (Get_ok env Hok Hne) as (nd & p' & HG & Hr & Hok' & [Hl1 Hl2] & Hf).
  { nia. }
  exists nd, p'. split; [exact HG |]. split; [exact Hr |].
  split; [exact Hok' |]. split.
  { intros E. rewrite E in Hl1. simpl in Hl1. destruct (nodes p); [congruence | simpl in Hl1; lia]. }
  assert (Z.of_nat (length (nodes p')) <= 2 * Z.of_nat (length (nodes p))) by lia.
  assert (Z.of_nat (length (free p')) <
          Z.max (Z.of_nat (length (free p))) (Z.of_nat (length (nodes p)))) by lia.
  nia.
Qed.

Lemma poolFits_weaken (n m : Z) (p : nodePool) :
  0 <= m <= n -> poolFits n p -> poolFits m p.
Proof.
  intros Hm (Hok & Hne & Hcap). split; [exact Hok |]. split; [exact Hne |].
  assert (2 ^ m <= 2 ^ n) by (apply Z.pow_le_mono_r; lia).
  nia.
Qed.

Lemma NewNode_ok (env : Env) (k v : slice) (ver : Z) (n : Z) (t : Tree) :
  0 <= n -> poolFits (n + 1) (pool t) ->
  exists nd t',
    NewNode env k v ver t = Ok (nd, t') /\
    version t' = version t /\ root t' = root t /\ poolFits n (pool t') /\
    isLeaf nd = true /\ key nd = k /\ value nd = None /\
    subtreeHeight nd = 0 /\ size nd = 1 /\ dirty nd = true /\
    hash nd = Some (LeafDigest 0 1 (i64 (ver + 1)) k v) /\
    leftNode nd = None /\ rightNode nd = None /\
    Version (nodeKey nd) = i64 (version t + 1).
Proof.
  intros Hn Hp.
  destruct (Get_fits env n (pool t) Hn Hp) as (nd & p' & HG & Hr & Hp').
  destruct Hr as (_ & _ & _ & Hl & Hrr & _).
  unfold NewNode, onPool, bind. rewrite HG.
  unfold nextNodeKey, addWorkingBytes, addWorkingSize, bind, modify, gets, ret. cbn.
  eexists. eexists. split; [reflexivity |]. cbn.
  split; [reflexivity |]. split; [reflexivity |]. split; [exact Hp' |].
  repeat split; try assumption; try reflexivity.
Qed.

(** ** Rotations *)

Lemma calcHeightAndSize_ok (n l r : Node) :
  leftNode n = Some l -> rightNode n = Some r ->
  calcHeightAndSize n =
  Ok (set_size (i64 (size l + size r))
        (set_subtreeHeight (i8 (Z.max (subtreeHeight l) (subtreeHeight r) + 1)) n)).
Proof.
  intros Hl Hr. unfold calcHeightAndSize, Node_left, Node_right.
  rewrite Hl, Hr. reflexivity.
Qed.

Lemma calcBalance_ok (n l r : Node) :
  leftNode n = Some l -> rightNode n = Some r ->
  calcBalance n = Ok (subtreeHeight l - subtreeHeight r).
Proof.
  intros Hl Hr. unfold calcBalance, Node_left, Node_right.
  rewrite Hl, Hr. reflexivity.
Qed.

Lemma rotateRight_ok (env : Env) (n l r ll lr : Node) (t : Tree) :
  leftNode n = Some l -> rightNode n = Some r ->
  leftNode l = Some ll -> rightNode l = Some lr ->
  exists n' l' t',
    rotateRight env n t = Ok (l', t') /\ stFrame t t' /\
    key l' = key l /\ leftNode l' = Some ll /\ rightNode l' = Some n' /\
    subtreeHeight l' = i8 (Z.max (subtreeHeight ll) (subtreeHeight n') + 1) /\
    key n' = key n /\ leftNode n' = Some lr /\ rightNode n' = Some r /\
    subtreeHeight n' = i8 (Z.max (subtreeHeight lr) (subtreeHeight r) + 1) /\
    (working (version t) n -> working (version t) n') /\
    (working (version t) l -> working (version t) l').
Proof.
  intros Hl Hr Hll Hlr. unfold rotateRight.
  destruct (addOrphan_ok n t) as (t1 & E1 & F1).
  destruct (mutateNode_ok env n t1) as (n1 & t2 & E2 & F2 & D2 & _ & W2).
  destruct D2 as (Dk & _ & _ & _ & Dl & Dr & _).
  destruct (addOrphan_ok l t2) as (t3 & E3 & F3).
  destruct (mutateNode_ok env l t3) as (l1 & t4 & E4 & F4 & D4 & _ & W4).
  destruct D4 as (Dk4 & _ & _ & _ & Dl4 & Dr4 & _).
  rewrite (bind_eq _ _ _ E1), (bind_eq _ _ _ E2).
  unfold Node_left at 1. rewrite Dl, Hl. rewrite (bind_eq _ _ _ (liftR_eq l t2)).
  rewrite (bind_eq _ _ _ E3), (bind_eq _ _ _ E4).
  unfold Node_right at 1. rewrite Dr4, Hlr. rewrite (bind_eq _ _ _ (liftR_eq lr t4)).
  rewrite (calcHeightAndSize_ok (setLeft lr n1) lr r) by (try reflexivity; rewrite <- Hr, <- Dr; reflexivity).
  rewrite (bind_eq _ _ _ (liftR_eq _ t4)).
  set (n' := set_size _ (set_subtreeHeight _ (setLeft lr n1))).
  rewrite (calcHeightAndSize_ok (setRight n' l1) ll n') by (try reflexivity; rewrite <- Hll, <- Dl4; reflexivity).
  rewrite liftR_eq.
  assert (Fv2 : version t1 = version t) by apply F1.
  assert (Fv3 : version t3 = version t).
  { destruct F1 as (a1 & _), F2 as (a2 & _), F3 as (a3 & _). congruence. }
  exists n'. eexists. exists t4. split; [reflexivity |].
  split.
  { repeat (eapply stFrame_trans; [eassumption |]). apply stFrame_refl. }
  split; [exact Dk4 |]. split; [exact (eq_trans Dl4 Hll) |].
  split; [reflexivity |]. split; [reflexivity |]. split; [exact Dk |].
  split; [reflexivity |]. split; [exact (eq_trans Dr Hr) |].
  split; [reflexivity |].
  split.
  - intros Hw. rewrite <- Fv2 in Hw |- *. apply W2 in Hw. exact Hw.
  - intros Hw. rewrite <- Fv3 in Hw |- *. apply W4 in Hw. exact Hw.
Qed.

Lemma rotateLeft_ok (env : Env) (n l r rl rr : Node) (t : Tree) :
  leftNode n = Some l -> rightNode n = Some r ->
  leftNode r = Some rl -> rightNode r = Some rr ->
  exists n' r' t',
    rotateLeft env n t = Ok (r', t') /\ stFrame t t' /\
    key r' = key r /\ leftNode r' = Some n' /\ rightNode r' = Some rr /\
    subtreeHeight r' = i8 (Z.max (subtreeHeight n') (subtreeHeight rr) + 1) /\
    key n' = key n /\ leftNode n' = Some l /\ rightNode n' = Some rl /\
    subtreeHeight n' = i8 (Z.max (subtreeHeight l) (subtreeHeight rl) + 1) /\
    (working (version t) n -> working (version t) n') /\
    (working (version t) r -> working (version t) r').
Proof.
  intros Hl Hr Hrl Hrr. unfold rotateLeft.
  destruct (addOrphan_ok n t) as (t1 & E1 & F1).
  destruct (mutateNode_ok env n t1) as (n1 & t2 & E2 & F2 & D2 & _ & W2).
  destruct D2 as (Dk & _ & _ & _ & Dl & Dr & _).
  destruct (addOrphan_ok r t2) as (t3 & E3 & F3).
  destruct (mutateNode_ok env r t3) as (r1 & t4 & E4 & F4 & D4 & _ & W4).
  destruct D4 as (Dk4 & _ & _ & _ & Dl4 & Dr4 & _).
  rewrite (bind_eq _ _ _ E1), (bind_eq _ _ _ E2).
  unfold Node_right at 1. rewrite Dr, Hr. rewrite (bind_eq _ _ _ (liftR_eq r t2)).
  rewrite (bind_eq _ _ _ E3), (bind_eq _ _ _ E4).
  unfold Node_left at 1. rewrite Dl4, Hrl. rewrite (bind_eq _ _ _ (liftR_eq rl t4)).
  rewrite (calcHeightAndSize_ok (setRight rl n1) l rl) by (try reflexivity; rewrite <- Hl, <- Dl; reflexivity).
  rewrite (bind_eq _ _ _ (liftR_eq _ t4)).
  set (n' := set_size _ (set_subtreeHeight _ (setRight rl n1))).
  rewrite (calcHeightAndSize_ok (setLeft n' r1) n' rr) by (try reflexivity; rewrite <- Hrr, <- Dr4; reflexivity).
  rewrite liftR_eq.
  assert (Fv2 : version t1 = version t) by apply F1.
  assert (Fv3 : version t3 = version t).
  { destruct F1 as (a1 & _), F2 as (a2 & _), F3 as (a3 & _). congruence. }
  exists n'. eexists. exists t4. split; [reflexivity |].
  split.
  { repeat (eapply stFrame_trans; [eassumption |]). apply stFrame_refl. }
  split; [exact Dk4 |]. split; [reflexivity |].
  split; [exact (eq_trans Dr4 Hrr) |]. split; [reflexivity |]. split; [exact Dk |].
  split; [exact (eq_trans Dl Hl) |]. split; [reflexivity |].
  split; [reflexivity |].
  split.
  - intros Hw. rewrite <- Fv2 in Hw |- *. apply W2 in Hw. exact Hw.
  - intros Hw. rewrite <- Fv3 in Hw |- *. apply W4 in Hw. exact Hw.
Qed.

Lemma wf_build (lo hi : option slice) (n l r : Node) (k : slice) :
  key n = k -> leftNode n = Some l -> rightNode n = Some r ->
  wf lo (Some k) l -> wf (Some k) hi r ->
  subtreeHeight n = 1 + Z.max (subtreeHeight l) (subtreeHeight r) ->
  wf lo hi n.
Proof. intros <- Hl Hr Wl Wr Hh. eapply wf_inner; eauto. Qed.

Lemma leafList_inner (n l r : Node) :
  leftNode n = Some l -> rightNode n = Some r -> 0 < subtreeHeight n ->
  leafList n = leafList l ++ leafList r.
Proof.
  intros Hl Hr Hh. rewrite leafList_eq, Hl, Hr.
  unfold isLeaf. destruct (Z.eqb_spec (subtreeHeight n) 0); [lia | reflexivity].
Qed.

Lemma allNodes_build (P : Node -> Prop) (n l r : Node) :
  P n -> leftNode n = Some l -> rightNode n = Some r ->
  allNodes P l -> allNodes P r -> allNodes P n.
Proof. intros Hp Hl Hr Al Ar. rewrite allNodes_eq, Hl, Hr. simpl. auto. Qed.

Lemma allNodes_inner (P : Node -> Prop) (n l r : Node) :
  leftNode n = Some l -> rightNode n = Some r ->
  allNodes P n -> P n /\ allNodes P l /\ allNodes P r.
Proof. intros Hl Hr. rewrite allNodes_eq, Hl, Hr. simpl. auto. Qed.

(** The children of a search tree of height at least 1. *)
Lemma wf_children (lo hi : option slice) (n : Node) :
  wf lo hi n -> 0 < subtreeHeight n ->
  exists l r, leftNode n = Some l /\ rightNode n = Some r /\
    wf lo (Some (key n)) l /\ wf (Some (key n)) hi r /\
    subtreeHeight n = 1 + Z.max (subtreeHeight l) (subtreeHeight r).
Proof.
  intros H Hh. destruct (wf_cases _ _ _ H) as [(Hl & _) | (_ & l & r & Hx)].
  - unfold isLeaf in Hl. apply Z.eqb_eq in Hl. lia.
  - exists l, r. exact Hx.
Qed.

(** ** Balancing keeps a search tree and its leaves *)

Lemma balance_ok (env : Env) (lo hi : option slice) (n l r : Node) (t : Tree) :
  leftNode n = Some l -> rightNode n = Some r ->
  wf lo (Some (key n)) l -> wf (Some (key n)) hi r ->
  subtreeHeight n = 1 + Z.max (subtreeHeight l) (subtreeHeight r) ->
  subtreeHeight n <= 127 ->
  exists n' t',
    balance env n t = Ok (n', t') /\ stFrame t t' /\ wf lo hi n' /\
    leafList n' = leafList n /\
    0 < subtreeHeight n' <= subtreeHeight n /\
    (allNodes (working (version t)) n -> allNodes (working (version t)) n').
Proof.
  intros Hl Hr Wl Wr Hh Hmax.
  pose proof (wf_height _ _ _ Wl) as Pl. pose proof (wf_height _ _ _ Wr) as Pr.
  unfold balance. rewrite (calcBalance_ok n l r Hl Hr).
  rewrite (bind_eq _ _ _ (liftR_eq _ t)).
  rewrite (leafList_inner n l r Hl Hr) by lia.
  destruct (Z.gtb_spec (subtreeHeight l - subtreeHeight r) 1) as [Hbf|Hbf].
  - (* the left side is too high *)
    destruct (wf_children _ _ _ Wl) as (ll & lr & Hll & Hlr & Wll & Wlr & Hhl); [lia |].
    pose proof (wf_height _ _ _ Wll) as Pll. pose proof (wf_height _ _ _ Wlr) as Plr.
    unfold Node_left at 1. rewrite Hl. rewrite (bind_eq _ _ _ (liftR_eq l t)).
    rewrite (calcBalance_ok l ll lr Hll Hlr). rewrite (bind_eq _ _ _ (liftR_eq _ t)).
    rewrite (leafList_inner l ll lr Hll Hlr) by lia.
    destruct (Z.geb_spec (subtreeHeight ll - subtreeHeight lr) 0) as [Hlbf|Hlbf].
    + destruct (rotateRight_ok env n l r ll lr t Hl Hr Hll Hlr)
        as (n' & l' & t' & E & F & Kl & Ll & Rl & Hl' & Kn & Ln & Rn & Hn' & Wn & Wl').
      rewrite i8_small in Hn' by lia. rewrite i8_small in Hl' by lia.
      exists l', t'. split; [exact E |]. split; [exact F |].
      assert (Wn' : wf (Some (key l)) hi n').
      { apply (wf_build _ _ n' lr r (key n)); auto; lia. }
      split.
      { apply (wf_build _ _ l' ll n' (key l)); auto; lia. }
      split.
      { rewrite (leafList_inner l' ll n' Ll Rl) by lia.
        rewrite (leafList_inner n' lr r Ln Rn) by lia.
        rewrite app_assoc. reflexivity. }
      split; [lia |].
      intros A. destruct (allNodes_inner _ n l r Hl Hr A) as (Pn & Al & Ar).
      destruct (allNodes_inner _ l ll lr Hll Hlr Al) as (Pl' & All & Alr).
      apply (allNodes_build _ l' ll n'); auto.
      apply (allNodes_build _ n' lr r); auto.
    + (* double rotation *)
      destruct (wf_children _ _ _ Wlr) as (lrl & lrr & Hlrl & Hlrr & Wlrl & Wlrr & Hhlr); [lia |].
      pose proof (wf_height _ _ _ Wlrl) as Plrl. pose proof (wf_height _ _ _ Wlrr) as Plrr.
      destruct (rotateLeft_ok env l ll lr lrl lrr t Hll Hlr Hlrl Hlrr)
        as (l2 & lr' & t1 & E1 & F1 & Klr & Llr & Rlr & Hlr' & Kl2 & Ll2 & Rl2 & Hl2 & Wl2 & Wlr').
      rewrite (bind_eq _ _ _ E1).
      rewrite i8_small in Hl2 by lia. rewrite i8_small in Hlr' by lia.
      destruct (rotateRight_ok env (setLeft lr' n) lr' r l2 lrr t1 eq_refl Hr Llr Rlr)
        as (n' & top & t' & E & F & Kt & Lt & Rt & Ht & Kn & Ln & Rn & Hn' & Wn & Wt).
      change (key (setLeft lr' n)) with (key n) in Kn.
      rewrite i8_small in Hn' by lia. rewrite i8_small in Ht by lia.
      assert (Fv : version t1 = version t) by apply F1.
      rewrite Fv in Wn, Wt.
      exists top, t'. split; [exact E |].
      split; [eapply stFrame_trans; eassumption |].
      assert (Wl2' : wf lo (Some (key lr)) l2).
      { apply (wf_build _ _ l2 ll lrl (key l)); auto; lia. }
      assert (Wn' : wf (Some (key lr)) hi n').
      { apply (wf_build _ _ n' lrr r (key n)); auto; lia. }
      split.
      { apply (wf_build _ _ top l2 n' (key lr)); auto; try congruence; lia. }
      split.
      { rewrite (leafList_inner top l2 n' Lt Rt) by lia.
        rewrite (leafList_inner n' lrr r Ln Rn) by lia.
        rewrite (leafList_inner l2 ll lrl Ll2 Rl2) by lia.
        rewrite (leafList_inner lr lrl lrr Hlrl Hlrr) by lia.
        rewrite <- !app_assoc. reflexivity. }
      split; [lia |].
      intros A. destruct (allNodes_inner _ n l r Hl Hr A) as (Pn & Al & Ar).
      destruct (allNodes_inner _ l ll lr Hll Hlr Al) as (Pl' & All & Alr).
      destruct (allNodes_inner _ lr lrl lrr Hlrl Hlrr Alr) as (Plr' & Alrl & Alrr).
      apply (allNodes_build _ top l2 n'); auto.
      * apply (allNodes_build _ l2 ll lrl); auto.
      * apply (allNodes_build _ n' lrr r); auto.
  - destruct (Z.ltb_spec (subtreeHeight l - subtreeHeight r) (-1)) as [Hbf2|Hbf2].
    + (* the right side is too high *)
      destruct (wf_children _ _ _ Wr) as (rl & rr & Hrl & Hrr & Wrl & Wrr & Hhr); [lia |].
      pose proof (wf_height _ _ _ Wrl) as Prl. pose proof (wf_height _ _ _ Wrr) as Prr.
      unfold Node_right at 1. rewrite Hr. rewrite (bind_eq _ _ _ (liftR_eq r t)).
      rewrite (calcBalance_ok r rl rr Hrl Hrr). rewrite (bind_eq _ _ _ (liftR_eq _ t)).
      rewrite (leafList_inner r rl rr Hrl Hrr) by lia.
      destruct (Z.leb_spec (subtreeHeight rl - subtreeHeight rr) 0) as [Hrbf|Hrbf].
      * destruct (rotateLeft_ok env n l r rl rr t Hl Hr Hrl Hrr)
          as (n' & r' & t' & E & F & Kr & Lr & Rr & Hr' & Kn & Ln & Rn & Hn' & Wn & Wr').
        rewrite i8_small in Hn' by lia. rewrite i8_small in Hr' by lia.
        exists r', t'. split; [exact E |]. split; [exact F |].
        assert (Wn' : wf lo (Some (key r)) n').
        { apply (wf_build _ _ n' l rl (key n)); auto; lia. }
        split.
        { apply (wf_build _ _ r' n' rr (key r)); auto; lia. }
        split.
        { rewrite (leafList_inner r' n' rr Lr Rr) by lia.
          rewrite (leafList_inner n' l rl Ln Rn) by lia.
          rewrite <- app_assoc. reflexivity. }
        split; [lia |].
        intros A. destruct (allNodes_inner _ n l r Hl Hr A) as (Pn & Al & Ar).
        destruct (allNodes_inner _ r rl rr Hrl Hrr Ar) as (Pr' & Arl & Arr).
        apply (allNodes_build _ r' n' rr); auto.
        apply (allNodes_build _ n' l rl); auto.
      * (* double rotation *)
        destruct (wf_children _ _ _ Wrl) as (rll & rlr & Hrll & Hrlr & Wrll & Wrlr & Hhrl); [lia |].
        pose proof (wf_height _ _ _ Wrll) as Prll. pose proof (wf_height _ _ _ Wrlr) as Prlr.
        destruct (rotateRight_ok env r rl rr rll rlr t Hrl Hrr Hrll Hrlr)
          as (r2 & rl' & t1 & E1 & F1 & Krl & Lrl & Rrl & Hrl' & Kr2 & Lr2 & Rr2 & Hr2 & Wr2 & Wrl').
        rewrite (bind_eq _ _ _ E1).
        rewrite i8_small in Hr2 by lia. rewrite i8_small in Hrl' by lia.
        destruct (rotateLeft_ok env (setRight rl' n) l rl' rll r2 t1 Hl eq_refl Lrl Rrl)
          as (n' & top & t' & E & F & Kt & Lt & Rt & Ht & Kn & Ln & Rn & Hn' & Wn & Wt).
        change (key (setRight rl' n)) with (key n) in Kn.
        rewrite i8_small in Hn' by lia. rewrite i8_small in Ht by lia.
        assert (Fv : version t1 = version t) by apply F1.
        rewrite Fv in Wn, Wt.
        exists top, t'. split; [exact E |].
        split; [eapply stFrame_trans; eassumption |].
        assert (Wr2' : wf (Some (key rl)) hi r2).
        { apply (wf_build _ _ r2 rlr rr (key r)); auto; lia. }
        assert (Wn' : wf lo (Some (key rl)) n').
        { apply (wf_build _ _ n' l rll (key n)); auto; lia. }
        split.
        { apply (wf_build _ _ top n' r2 (key rl)); auto; try congruence; lia. }
        split.
        { rewrite (leafList_inner top n' r2 Lt Rt) by lia.
          rewrite (leafList_inner n' l rll Ln Rn) by lia.
          rewrite (leafList_inner r2 rlr rr Lr2 Rr2) by lia.
          rewrite (leafList_inner rl rll rlr Hrll Hrlr) by lia.
          rewrite <- !app_assoc. reflexivity. }
        split; [lia |].
        intros A. destruct (allNodes_inner _ n l r Hl Hr A) as (Pn & Al & Ar).
        destruct (allNodes_inner _ r rl rr Hrl Hrr Ar) as (Pr' & Arl & Arr).
        destruct (allNodes_inner _ rl rll rlr Hrll Hrlr Arl) as (Prl' & Arll & Arlr).
        apply (allNodes_build _ top n' r2); auto.
        -- apply (allNodes_build _ n' l rll); auto.
        -- apply (allNodes_build _ r2 rlr rr); auto.
    + exists n, t. split; [reflexivity |]. split; [apply stFrame_refl |].
      split; [eapply wf_inner; eauto |].
      split; [apply leafList_inner; auto; lia |].
      split; [lia | auto].
Qed.

(** ** Set *)

Lemma upsert_app_l (k : slice) (lf : Node) (a b : list Node) :
  Forall (fun x => Compare k (key x) = Lt) b ->
  upsert k lf (a ++ b) = upsert k lf a ++ b.
Proof.
  intros Hb. induction a as [|y a IH]; simpl.
  - destruct b as [|x b]; [reflexivity |].
    apply Forall_cons in Hb as [Hx _]. simpl. rewrite Hx. reflexivity.
  - destruct (Compare k (key y)); [reflexivity | reflexivity |].
    rewrite IH. reflexivity.
Qed.

Lemma upsert_app_r (k : slice) (lf : Node) (a b : list Node) :
  Forall (fun x => Compare k (key x) = Gt) a ->
  upsert k lf (a ++ b) = a ++ upsert k lf b.
Proof.
  induction a as [|y a IH]; intros Ha; simpl; [reflexivity |].
  apply Forall_cons in Ha as [Hy Ha]. rewrite Hy, (IH Ha). reflexivity.
Qed.

Lemma existsb_none (k : slice) (c : comparison) (ls : list Node) :
  c <> Eq ->
  Forall (fun x => Compare k (key x) = c) ls ->
  existsb (fun lf => Equal k (key lf)) ls = false.
Proof.
  intros Hc. induction ls as [|x ls IH]; intros H; simpl; [reflexivity |].
  apply Forall_cons in H as [Hx H]. unfold Equal at 1. rewrite Hx.
  rewrite (IH H). destruct c; [exfalso; apply Hc; reflexivity | reflexivity | reflexivity].
Qed.

(** The keys of the right subtree are above a key that goes left, the keys of
    the left subtree are below a key that goes right. *)
Lemma right_keys_above (lo hi : option slice) (k sep : slice) (r : Node) :
  wf (Some sep) hi r -> klt k sep ->
  Forall (fun x => Compare k (key x) = Lt) (leafList r).
Proof.
  intros W Hk. destruct (wf_leaves_bounds _ _ _ W) as [B _].
  eapply Forall_impl; [exact B |]. simpl. intros x [Hx _].
  eapply klt_le_trans; eauto.
Qed.

Lemma left_keys_below (lo : option slice) (k sep : slice) (l : Node) :
  wf lo (Some sep) l -> kle sep k ->
  Forall (fun x => Compare k (key x) = Gt) (leafList l).
Proof.
  intros W Hk. destruct (wf_leaves_bounds _ _ _ W) as [B _].
  eapply Forall_impl; [exact B |]. simpl. intros x [_ Hx].
  apply Compare_Gt. eapply klt_le_trans; eauto.
Qed.

(** What [recursiveSet] returns on a search tree: [node'] is the new subtree,
    [lf] the leaf that now holds the key. *)
Definition setPost (k : slice) (vb : list byte) (lo hi : option slice)
    (node : Node) (t : Tree) (node' lf : Node) (t' : Tree) (updated : bool) : Prop :=
  version t' = version t /\ root t' = root t /\
  wf lo hi node' /\
  subtreeHeight node' <= subtreeHeight node + 1 /\
  (updated = true -> subtreeHeight node' = subtreeHeight node) /\
  updated = hasKey k node /\
  leafList node' = upsert k lf (leafList node) /\
  (isLeaf lf = true /\ Compare k (key lf) = Eq /\ value lf = None /\
   hash lf =
   Some (LeafDigest 0 (size lf) (i64 (version t + 1)) (key lf) (Some vb))) /\
  (allNodes (working (version t)) node -> allNodes (working (version t)) node').

Lemma Compare_refl (a : slice) : Compare a a = Eq.
Proof. apply lex_refl. Qed.

Lemma recursiveSet_leaf (env : Env) (k : slice) (vb : list byte)
    (lo hi : option slice) (node : Node) (t : Tree) :
  isLeaf node = true -> above lo (key node) -> below hi (key node) ->
  above lo k -> below hi k -> poolFits 2 (pool t) ->
  exists node' lf t' updated,
    recursiveSet env node k (Some vb) t = Ok ((Some node', updated, None), t') /\
    setPost k vb lo hi node t node' lf t' updated.
Proof.
  intros Hleaf Ha Hb Hka Hkb Hp.
  assert (Hh : subtreeHeight node = 0) by (apply Z.eqb_eq; exact Hleaf).
  rewrite recursiveSet_eq, Hleaf.
  assert (LL : leafList node = [node]) by (rewrite leafList_eq, Hleaf; reflexivity).
  destruct (Compare k (key node)) eqn:Hc.
  - (* the key is there *)
    destruct (mutateNode_ok env node t) as (n1 & t1 & E1 & F1 & D1 & _ & W1).
    destruct D1 as (Dk & Dv & Dh & Ds & Dl & Dr & _).
    rewrite (bind_eq _ _ _ E1).
    unfold gets at 1. unfold bind at 1. unfold ret.
    destruct F1 as (Fv & _ & Fr & _).
    set (lf := set_value None (_hash (i64 (version t1 + 1)) (set_value (Some vb) n1))).
    assert (Lf : isLeaf lf = true).
    { unfold isLeaf. change (subtreeHeight lf) with (subtreeHeight n1).
      rewrite Dh. exact Hleaf. }
    exists lf, lf, t1, true. split; [reflexivity |].
    split; [exact Fv |]. split; [exact Fr |].
    split.
    { apply wf_leaf; [exact Lf | |]; change (key lf) with (key n1); rewrite Dk; assumption. }
    split; [change (subtreeHeight lf) with (subtreeHeight n1); lia |].
    split; [intros _; exact Dh |].
    split.
    { unfold hasKey. rewrite LL. simpl. unfold Equal. rewrite Hc. reflexivity. }
    split.
    { rewrite (leafList_eq lf), Lf, LL. cbn [upsert]. rewrite Hc. reflexivity. }
    split.
    { split; [exact Lf |]. split; [change (key lf) with (key n1); rewrite Dk; exact Hc |].
      split; [reflexivity |].
      unfold lf, _hash. cbn. unfold isLeaf. cbn. rewrite Dh, Hh. cbn.
      rewrite Fv. reflexivity. }
    intros A. rewrite allNodes_eq in A |- *. destruct A as (_ & Al & Ar).
    change (leftNode lf) with (leftNode n1). change (rightNode lf) with (rightNode n1).
    rewrite Dl, Dr. split; [| auto]. intros Hn. discriminate Hn.
  - (* the key goes to the left of the leaf *)
    destruct (Get_fits env 1 (pool t) ltac:(lia) Hp) as (p0 & pl1 & EG & Rp & Hp1).
    set (t0 := set_metrics (set_PoolGet (PoolGet (metrics t) + 2) (metrics t)) t).
    unfold modify at 1. unfold bind at 1. fold t0.
    assert (EG' : onPool (Get env) t0 = Ok (p0, set_pool pl1 t0)).
    { unfold onPool. change (pool t0) with (pool t). rewrite EG. reflexivity. }
    rewrite (bind_eq _ _ _ EG').
    unfold nextNodeKey at 1.
    unfold modify at 1, gets at 1, gets at 1, ret at 1, bind at 1, bind at 1, bind at 1, bind at 1.
    unfold gets at 1. unfold bind at 1.
    set (t1 := set_sequence _ (set_pool pl1 t0)).
    destruct (NewNode_ok env k (Some vb) (version t1) 0 t1 ltac:(lia) Hp1)
      as (lf & t2 & EN & Nv & Nr & _ & Nleaf & Nk & Nval & Nh & Ns & Nd & Nhash & Nl & Nrr & Nver).
    rewrite (bind_eq _ _ _ EN).
    unfold addWorkingBytes at 1, addWorkingSize at 1.
    unfold modify at 1, modify at 1, ret at 1, bind at 1, bind at 1.
    eexists. exists lf. eexists. exists false. split; [reflexivity |].
    split; [exact Nv |]. split; [exact Nr |].
    split.
    { eapply (wf_build lo hi _ lf node (key node)); try reflexivity.
      - apply wf_leaf; [exact Nleaf | rewrite Nk; exact Hka | rewrite Nk; exact Hc].
      - apply wf_leaf; [exact Hleaf | apply kle_refl | exact Hb].
      - cbn. rewrite Nh, Hh. reflexivity. }
    split; [cbn; lia |]. split; [discriminate |].
    split.
    { unfold hasKey. rewrite LL. simpl. unfold Equal. rewrite Hc. reflexivity. }
    split.
    { match goal with |- leafList ?x = _ =>
        rewrite (leafList_inner x lf node eq_refl eq_refl) by (cbn; lia) end.
      rewrite (leafList_eq lf), Nleaf, LL. cbn [upsert app]. rewrite Hc. reflexivity. }
    split.
    { split; [exact Nleaf |]. split; [rewrite Nk; apply Compare_refl |].
      split; [exact Nval |]. rewrite Nhash, Ns, Nk. reflexivity. }
    intros A. rewrite allNodes_eq. cbn.
    split; [intros _; split; reflexivity |]. split; [| exact A].
    rewrite allNodes_eq, Nl, Nrr. split; [| split; exact I].
    intros Hn. rewrite Nhash in Hn. discriminate Hn.
  - (* the key goes to the right of the leaf *)
    destruct (Get_fits env 1 (pool t) ltac:(lia) Hp) as (p0 & pl1 & EG & Rp & Hp1).
    set (t0 := set_metrics (set_PoolGet (PoolGet (metrics t) + 2) (metrics t)) t).
    unfold modify at 1. unfold bind at 1. fold t0.
    assert (EG' : onPool (Get env) t0 = Ok (p0, set_pool pl1 t0)).
    { unfold onPool. change (pool t0) with (pool t). rewrite EG. reflexivity. }
    rewrite (bind_eq _ _ _ EG').
    unfold nextNodeKey at 1.
    unfold modify at 1, gets at 1, gets at 1, ret at 1, bind at 1, bind at 1, bind at 1, bind at 1.
    unfold gets at 1. unfold bind at 1.
    set (t1 := set_sequence _ (set_pool pl1 t0)).
    destruct (NewNode_ok env k (Some vb) (version t1) 0 t1 ltac:(lia) Hp1)
      as (lf & t2 & EN & Nv & Nr & _ & Nleaf & Nk & Nval & Nh & Ns & Nd & Nhash & Nl & Nrr & Nver).
    rewrite (bind_eq _ _ _ EN).
    unfold addWorkingBytes at 1, addWorkingSize at 1.
    unfold modify at 1, modify at 1, ret at 1, bind at 1, bind at 1.
    eexists. exists lf. eexists. exists false. split; [reflexivity |].
    split; [exact Nv |]. split; [exact Nr |].
    split.
    { eapply (wf_build lo hi _ node lf k); try reflexivity.
      - apply wf_leaf; [exact Hleaf | exact Ha | apply Compare_Gt; exact Hc].
      - apply wf_leaf; [exact Nleaf | rewrite Nk; apply kle_refl | rewrite Nk; exact Hkb].
      - cbn. rewrite Nh, Hh. reflexivity. }
    split; [cbn; lia |]. split; [discriminate |].
    split.
    { unfold hasKey. rewrite LL. simpl. unfold Equal. rewrite Hc. reflexivity. }
    split.
    { match goal with |- leafList ?x = _ =>
        rewrite (leafList_inner x node lf eq_refl eq_refl) by (cbn; lia) end.
      rewrite (leafList_eq lf), Nleaf, LL. cbn [upsert app]. rewrite Hc. reflexivity. }
    split.
    { split; [exact Nleaf |]. split; [rewrite Nk; apply Compare_refl |].
      split; [exact Nval |]. rewrite Nhash, Ns, Nk. reflexivity. }
    intros A. rewrite allNodes_eq. cbn.
    split; [intros _; split; reflexivity |]. split; [exact A |].
    rewrite allNodes_eq, Nl, Nrr. split; [| split; exact I].
    intros Hn. rewrite Nhash in Hn. discriminate Hn.
Qed.

Lemma recursiveSetTail_ok (env : Env) (k : slice) (lo hi : option slice)
    (n l r : Node) (updated : bool) (t : Tree) :
  leftNode n = Some l -> rightNode n = Some r ->
  wf lo (Some (key n)) l -> wf (Some (key n)) hi r ->
  (updated = true ->
   subtreeHeight n = 1 + Z.max (subtreeHeight l) (subtreeHeight r)) ->
  1 + Z.max (subtreeHeight l) (subtreeHeight r) <= 127 ->
  exists n' t',
    recursiveSetTail env k n updated t = Ok ((Some n', updated, None), t') /\
    stFrame t t' /\ wf lo hi n' /\
    leafList n' = leafList l ++ leafList r /\
    subtreeHeight n' <= 1 + Z.max (subtreeHeight l) (subtreeHeight r) /\
    (updated = true -> subtreeHeight n' = subtreeHeight n) /\
    (working (version t) n -> allNodes (working (version t)) l ->
     allNodes (working (version t)) r -> allNodes (working (version t)) n').
Proof.
  intros Hl Hr Wl Wr Hup Hmax.
  pose proof (wf_height _ _ _ Wl) as Pl. pose proof (wf_height _ _ _ Wr) as Pr.
  unfold recursiveSetTail. destruct updated.
  - exists n, t. split; [reflexivity |]. split; [apply stFrame_refl |].
    specialize (Hup eq_refl).
    split; [eapply wf_inner; eauto |].
    split; [apply leafList_inner; auto; lia |].
    split; [lia |]. split; [reflexivity |].
    intros Pn Al Ar. apply (allNodes_build _ n l r); auto.
  - set (ns := if HasPrefix k (sortKey n) then _ else n).
    assert (X : key ns = key n /\ leftNode ns = leftNode n /\
                rightNode ns = rightNode n /\ hash ns = hash n /\
                dirty ns = dirty n /\ nodeKey ns = nodeKey n).
    { unfold ns. destruct (HasPrefix k (sortKey n)); [destruct (Compare k (key n)) |];
        repeat split. }
    destruct X as (Xk & Xl & Xr & Xh & Xd & Xn).
    rewrite Hl in Xl. rewrite Hr in Xr.
    rewrite (calcHeightAndSize_ok ns l r Xl Xr).
    rewrite (bind_eq _ _ _ (liftR_eq _ t)).
    set (n3 := set_size _ (set_subtreeHeight _ ns)).
    assert (H3 : subtreeHeight n3 = 1 + Z.max (subtreeHeight l) (subtreeHeight r)).
    { unfold n3. cbn. rewrite i8_small by lia. lia. }
    assert (K3 : key n3 = key n) by exact Xk.
    rewrite <- K3 in Wl, Wr.
    destruct (balance_ok env lo hi n3 l r t Xl Xr Wl Wr H3 ltac:(lia))
      as (n' & t' & E & F & W & LL & Hh & A).
    rewrite (bind_eq _ _ _ E). unfold ret.
    exists n', t'. split; [reflexivity |]. split; [exact F |]. split; [exact W |].
    split.
    { rewrite LL. apply leafList_inner; auto. lia. }
    split; [lia |]. split; [discriminate |].
    intros Pn Al Ar. apply A. apply (allNodes_build _ n3 l r); auto.
    intros Hn. change (hash n3) with (hash ns) in Hn. rewrite Xh in Hn.
    destruct (Pn Hn) as [Pd Pv].
    change (dirty n3) with (dirty ns). change (nodeKey n3) with (nodeKey ns).
    rewrite Xd, Xn. auto.
Qed.

Lemma hasKey_inner (k : slice) (n l r : Node) :
  leftNode n = Some l -> rightNode n = Some r -> 0 < subtreeHeight n ->
  hasKey k n = hasKey k l || hasKey k r.
Proof.
  intros Hl Hr Hh. unfold hasKey. rewrite (leafList_inner n l r Hl Hr Hh).
  apply existsb_app.
Qed.

(** [recursiveSet] on a search tree. *)
Lemma recursiveSet_ok (env : Env) (k : slice) (vb : list byte)
    (lo hi : option slice) (node : Node) :
  wf lo hi node ->
  forall t,
    above lo k -> below hi k -> subtreeHeight node <= 125 ->
    poolFits 2 (pool t) ->
    exists node' lf t' updated,
      recursiveSet env node k (Some vb) t = Ok ((Some node', updated, None), t') /\
      setPost k vb lo hi node t node' lf t' updated.
Proof.
  induction 1 as [lo hi node Hleaf Ha Hb | lo hi node l r El Er Wl IHl Wr IHr Hh];
    intros t Hka Hkb Hmax Hp.
  - apply recursiveSet_leaf; assumption.
  - pose proof (wf_height _ _ _ Wl) as Pl. pose proof (wf_height _ _ _ Wr) as Pr.
    pose proof (wf_inner_not_leaf lo hi node l r Wl Wr Hh) as Hnl.
    rewrite recursiveSet_eq, Hnl.
    destruct (addOrphan_ok node t) as (t1 & E1 & F1).
    destruct (mutateNode_ok env node t1) as (n1 & t2 & E2 & F2 & D2 & _ & W2).
    destruct D2 as (Dk & _ & Dh & _ & Dl & Dr & _).
    rewrite (bind_eq _ _ _ E1), (bind_eq _ _ _ E2). rewrite Dk.
    pose proof (stFrame_trans _ _ _ F1 F2) as F12.
    destruct F12 as (Fv & Fp & Fr & _).
    assert (Fv1 : version t1 = version t) by apply F1.
    rewrite Fv1 in W2.
    destruct (Compare k (key node)) eqn:Hc.
    + (* to the right, on an equal separator *)
      rewrite Er.
      destruct (IHr t2) as (child & lf & t3 & updated & E3 & P3).
      { simpl. unfold kle. rewrite (Compare_antisym k (key node)), Hc. discriminate. }
      { exact Hkb. } { lia. } { rewrite Fp. exact Hp. }
      destruct P3 as (Pv & Pr3 & Pw & Ph & Pu & Pk & Pll & Plf & Pa).
      rewrite (bind_eq _ _ _ E3).
      destruct (recursiveSetTail_ok env k lo hi (setRight child n1) l child updated t3)
        as (n' & t' & E4 & F4 & W4 & L4 & H4 & U4 & A4).
      { exact (eq_trans Dl El). } { reflexivity. }
      { change (key (setRight child n1)) with (key n1). rewrite Dk. exact Wl. }
      { change (key (setRight child n1)) with (key n1). rewrite Dk. exact Pw. }
      { intros U. change (subtreeHeight (setRight child n1)) with (subtreeHeight n1).
        rewrite Dh, Hh, (Pu U). reflexivity. }
      { lia. }
      rewrite E4. exists n', lf, t', updated. split; [reflexivity |].
      destruct F4 as (F4v & _ & F4r & _).
      split; [congruence |]. split; [congruence |]. split; [exact W4 |].
      split; [lia |].
      split.
      { intros U. rewrite (U4 U). exact Dh. }
      split.
      { rewrite (hasKey_inner k node l r El Er) by lia. rewrite <- Pk.
        unfold hasKey at 1.
        rewrite (existsb_none k Gt (leafList l)); [reflexivity | discriminate |].
        apply (left_keys_below lo k (key node) l Wl).
        unfold kle. rewrite (Compare_antisym k (key node)), Hc. discriminate. }
      split.
      { rewrite L4, Pll. rewrite (leafList_inner node l r El Er) by lia.
        symmetry. apply upsert_app_r.
        apply (left_keys_below lo k (key node) l Wl).
        unfold kle. rewrite (Compare_antisym k (key node)), Hc. discriminate. }
      split.
      { rewrite Fv in Plf. exact Plf. }
      intros A. destruct (allNodes_inner _ node l r El Er A) as (Pn & Al & Ar).
      rewrite Fv in Pa.
      assert (Ev : version t3 = version t) by congruence.
      rewrite Ev in A4. apply A4; [exact (W2 Pn) | exact Al | exact (Pa Ar)].
    + (* to the left *)
      rewrite El.
      destruct (IHl t2) as (child & lf & t3 & updated & E3 & P3).
      { exact Hka. } { exact Hc. } { lia. } { rewrite Fp. exact Hp. }
      destruct P3 as (Pv & Pr3 & Pw & Ph & Pu & Pk & Pll & Plf & Pa).
      rewrite (bind_eq _ _ _ E3).
      destruct (recursiveSetTail_ok env k lo hi (setLeft child n1) child r updated t3)
        as (n' & t' & E4 & F4 & W4 & L4 & H4 & U4 & A4).
      { reflexivity. } { exact (eq_trans Dr Er). }
      { change (key (setLeft child n1)) with (key n1). rewrite Dk. exact Pw. }
      { change (key (setLeft child n1)) with (key n1). rewrite Dk. exact Wr. }
      { intros U. change (subtreeHeight (setLeft child n1)) with (subtreeHeight n1).
        rewrite Dh, Hh, (Pu U). reflexivity. }
      { lia. }
      rewrite E4. exists n', lf, t', updated. split; [reflexivity |].
      destruct F4 as (F4v & _ & F4r & _).
      split; [congruence |]. split; [congruence |]. split; [exact W4 |].
      split; [lia |].
      split.
      { intros U. rewrite (U4 U). exact Dh. }
      split.
      { rewrite (hasKey_inner k node l r El Er) by lia. rewrite <- Pk.
        unfold hasKey at 1.
        rewrite (existsb_none k Lt (leafList r)); [symmetry; apply orb_false_r | discriminate |].
        apply (right_keys_above lo hi k (key node) r Wr Hc). }
      split.
      { rewrite L4, Pll. rewrite (leafList_inner node l r El Er) by lia.
        symmetry. apply upsert_app_l.
        apply (right_keys_above lo hi k (key node) r Wr Hc). }
      split.
      { rewrite Fv in Plf. exact Plf. }
      intros A. destruct (allNodes_inner _ node l r El Er A) as (Pn & Al & Ar).
      rewrite Fv in Pa.
      assert (Ev : version t3 = version t) by congruence.
      rewrite Ev in A4. apply A4; [exact (W2 Pn) | exact (Pa Al) | exact Ar].
    + (* to the right *)
      rewrite Er.
      destruct (IHr t2) as (child & lf & t3 & updated & E3 & P3).
      { simpl. unfold kle. rewrite (Compare_antisym k (key node)), Hc. discriminate. }
      { exact Hkb. } { lia. } { rewrite Fp. exact Hp. }
      destruct P3 as (Pv & Pr3 & Pw & Ph & Pu & Pk & Pll & Plf & Pa).
      rewrite (bind_eq _ _ _ E3).
      destruct (recursiveSetTail_ok env k lo hi (setRight child n1) l child updated t3)
        as (n' & t' & E4 & F4 & W4 & L4 & H4 & U4 & A4).
      { exact (eq_trans Dl El). } { reflexivity. }
      { change (key (setRight child n1)) with (key n1). rewrite Dk. exact Wl. }
      { change (key (setRight child n1)) with (key n1). rewrite Dk. exact Pw. }
      { intros U. change (subtreeHeight (setRight child n1)) with (subtreeHeight n1).
        rewrite Dh, Hh, (Pu U). reflexivity. }
      { lia. }
      rewrite E4. exists n', lf, t', updated. split; [reflexivity |].
      destruct F4 as (F4v & _ & F4r & _).
      split; [congruence |]. split; [congruence |]. split; [exact W4 |].
      split; [lia |].
      split.
      { intros U. rewrite (U4 U). exact Dh. }
      split.
      { rewrite (hasKey_inner k node l r El Er) by lia. rewrite <- Pk.
        unfold hasKey at 1.
        rewrite (existsb_none k Gt (leafList l)); [reflexivity | discriminate |].
        apply (left_keys_below lo k (key node) l Wl).
        unfold kle. rewrite (Compare_antisym k (key node)), Hc. discriminate. }
      split.
      { rewrite L4, Pll. rewrite (leafList_inner node l r El Er) by lia.
        symmetry. apply upsert_app_r.
        apply (left_keys_below lo k (key node) l Wl).
        unfold kle. rewrite (Compare_antisym k (key node)), Hc. discriminate. }
      split.
      { rewrite Fv in Plf. exact Plf. }
      intros A. destruct (allNodes_inner _ node l r El Er A) as (Pn & Al & Ar).
      rewrite Fv in Pa.
      assert (Ev : version t3 = version t) by congruence.
      rewrite Ev in A4. apply A4; [exact (W2 Pn) | exact Al | exact (Pa Ar)].
Qed.

(** ** C7: [Set] on a search tree *)

(** The tree is empty or a search tree whose height leaves room in an int8. *)
Definition treeOk (t : Tree) : Prop :=
  match root t with
  | None => True
  | Some rt => wf None None rt /\ subtreeHeight rt <= 125
  end.

Definition treeLeaves (t : Tree) : list Node :=
  match root t with Some rt => leafList rt | None => [] end.

Definition treeHasKey (k : slice) (t : Tree) : bool :=
  existsb (fun lf => Equal k (key lf)) (treeLeaves t).

Lemma upsert_In (k : slice) (lf : Node) (ls : list Node) : In lf (upsert k lf ls).
Proof.
  induction ls as [|x ls IH]; simpl; [auto |].
  destruct (Compare k (key x)); simpl; auto.
Qed.

Definition countSet (updated : bool) (t : Tree) : Tree :=
  set_metrics
    (if updated
     then set_TreeUpdate (TreeUpdate (metrics t) + 1) (metrics t)
     else set_TreeNewNode (TreeNewNode (metrics t) + 1) (metrics t)) t.

Lemma Tree_Set_root (env : Env) (k : slice) (vb : list byte) (t : Tree)
    (rt : Node) (node' : Node) (updated : bool) (t1 : Tree) :
  root t = Some rt ->
  recursiveSet env rt k (Some vb) t = Ok ((Some node', updated, None), t1) ->
  Tree_Set env k (Some vb) t =
  Ok ((updated, None), countSet updated (set_root (Some node') t1)).
Proof.
  intros Hr E. unfold Tree_Set, Tree_set, bind, gets, modify, ret.
  rewrite Hr, E. reflexivity.
Qed.

Lemma Tree_Set_empty (env : Env) (k : slice) (vb : list byte) (t : Tree)
    (lf : Node) (t1 : Tree) :
  root t = None ->
  NewNode env k (Some vb) (version t) t = Ok (lf, t1) ->
  Tree_Set env k (Some vb) t =
  Ok ((false, None), countSet false (set_root (Some lf) t1)).
Proof.
  intros Hr E. unfold Tree_Set, Tree_set, bind, gets, modify, ret.
  rewrite Hr, E. reflexivity.
Qed.


Lemma exPool_fits : poolFits 2 (pool exTree2).
Proof.
  split; [| split; [vm_compute; discriminate | vm_compute; discriminate]].
  unfold pool_ok. vm_compute free.
  repeat constructor. eexists. split; [vm_compute; reflexivity | repeat split].
Qed.

(** ** Remove *)

Definition removeKey (k : slice) (ls : list Node) : list Node :=
  List.filter (fun lf => negb (Equal k (key lf))) ls.

Definition freeLen (t : Tree) : Z := Z.of_nat (length (free (pool t))).

Lemma returnNode_ok (env : Env) (node : Node) (t : Tree) :
  freeLen t < freeCap ->
  exists t',
    returnNode env node t = Ok (resetNode node, t') /\
    version t' = version t /\ root t' = root t /\ freeLen t' = freeLen t + 1.
Proof.
  intros Hroom. unfold returnNode.
  assert (S1 : exists t1,
             (if dirty node
              then let* _ := addWorkingBytes (- sizeBytes env node) in addWorkingSize (-1)
              else ret tt) t = Ok (tt, t1) /\
             version t1 = version t /\ root t1 = root t /\ pool t1 = pool t).
  { destruct (dirty node); eexists; (split; [reflexivity | repeat split]). }
  destruct S1 as (t1 & E1 & V1 & R1 & P1).
  rewrite (bind_eq _ _ _ E1). unfold modify at 1. unfold bind at 1.
  unfold onPool, Put. cbn [pool set_orphans].
  rewrite send_Ok.
  - eexists. split; [reflexivity |]. cbn.
    split; [exact V1 |]. split; [exact R1 |].
    unfold freeLen. cbn. rewrite P1, length_app. simpl. lia.
  - cbn. rewrite P1. exact Hroom.
Qed.

Lemma removeKey_none (k : slice) (c : comparison) (ls : list Node) :
  c <> Eq ->
  Forall (fun x => Compare k (key x) = c) ls ->
  removeKey k ls = ls.
Proof.
  intros Hc. induction ls as [|x ls IH]; intros H; [reflexivity |].
  apply Forall_cons in H as [Hx H]. unfold removeKey in *. simpl.
  unfold Equal at 1. rewrite Hx.
  replace (negb match c with Eq => true | _ => false end) with true
    by (destruct c; [exfalso; apply Hc; reflexivity | reflexivity | reflexivity]).
  rewrite (IH H). reflexivity.
Qed.

Lemma removeKey_app (k : slice) (a b : list Node) :
  removeKey k (a ++ b) = removeKey k a ++ removeKey k b.
Proof. apply List.filter_app. Qed.

(** What [recursiveRemove] returns on a search tree. *)
Definition removePost (k : slice) (lo hi : option slice) (node : Node) (t : Tree)
    (newSelf : option Node) (newKey : slice) (t' : Tree) (removed : bool) : Prop :=
  version t' = version t /\ root t' = root t /\
  removed = hasKey k node /\
  (removed = false -> newSelf = Some node /\ newKey = None /\ t' = t) /\
  (removed = true ->
   match newSelf with
   | None =>
       isLeaf node = true /\ newKey = None /\ freeLen t' <= freeLen t + 1
   | Some n' =>
       wf lo hi n' /\
       leafList n' = removeKey k (leafList node) /\
       subtreeHeight n' <= subtreeHeight node /\
       freeLen t' <= freeLen t + 2 /\
       (newKey <> None ->
        above lo newKey /\ Forall (fun lf => kle newKey (key lf)) (leafList n')) /\
       (allNodes (working (version t)) node ->
        allNodes (working (version t)) n')
   end).

Lemma calc_balance_ok (env : Env) (lo hi : option slice) (n l r : Node) (t : Tree) :
  leftNode n = Some l -> rightNode n = Some r ->
  wf lo (Some (key n)) l -> wf (Some (key n)) hi r ->
  1 + Z.max (subtreeHeight l) (subtreeHeight r) <= 127 ->
  exists n3 n' t',
    calcHeightAndSize n = Ok n3 /\ balance env n3 t = Ok (n', t') /\
    stFrame t t' /\ wf lo hi n' /\
    leafList n' = leafList l ++ leafList r /\
    subtreeHeight n' <= 1 + Z.max (subtreeHeight l) (subtreeHeight r) /\
    (working (version t) n -> allNodes (working (version t)) l ->
     allNodes (working (version t)) r -> allNodes (working (version t)) n').
Proof.
  intros Hl Hr Wl Wr Hmax.
  pose proof (wf_height _ _ _ Wl) as Pl. pose proof (wf_height _ _ _ Wr) as Pr.
  set (n3 := set_size (i64 (size l + size r))
               (set_subtreeHeight
                  (i8 (Z.max (subtreeHeight l) (subtreeHeight r) + 1)) n)).
  assert (H3 : subtreeHeight n3 = 1 + Z.max (subtreeHeight l) (subtreeHeight r)).
  { unfold n3. cbn. rewrite i8_small by lia. lia. }
  destruct (balance_ok env lo hi n3 l r t Hl Hr Wl Wr H3 ltac:(lia))
    as (n' & t' & E & F & W & LL & Hh & A).
  exists n3, n', t'. split; [apply calcHeightAndSize_ok; assumption |].
  split; [exact E |]. split; [exact F |]. split; [exact W |].
  split.
  { rewrite LL. apply leafList_inner; auto. lia. }
  split; [lia |].
  intros Pn Al Ar. apply A. apply (allNodes_build _ n3 l r); auto.
Qed.

Lemma hasKey_leaf (k : slice) (n : Node) :
  isLeaf n = true -> hasKey k n = Equal k (key n).
Proof.
  intros H. unfold hasKey. rewrite leafList_eq, H. simpl. apply orb_false_r.
Qed.

Lemma kle_of_not_Lt (k s : slice) : Compare k s <> Lt -> kle s k.
Proof. apply not_klt_kle. Qed.

(** [recursiveRemove] on a search tree. *)
Lemma recursiveRemove_ok (env : Env) (k : slice) (lo hi : option slice) (node : Node) :
  wf lo hi node ->
  forall t,
    subtreeHeight node <= 127 -> freeLen t + 2 <= freeCap ->
    exists newSelf newKey t' removed,
      recursiveRemove env node k t = Ok ((newSelf, newKey, None, removed, None), t') /\
      removePost k lo hi node t newSelf newKey t' removed.
Proof.
  induction 1 as [lo hi node Hleaf Ha Hb | lo hi node l r El Er Wl IHl Wr IHr Hh];
    intros t Hmax Hroom.
  - rewrite recursiveRemove_eq, Hleaf.
    destruct (Equal k (key node)) eqn:He.
    + destruct (returnNode_ok env node t ltac:(lia)) as (t1 & E1 & V1 & R1 & L1).
      rewrite (bind_eq _ _ _ E1). unfold ret.
      exists None, None, t1, true. split; [reflexivity |].
      split; [exact V1 |]. split; [exact R1 |].
      split; [rewrite hasKey_leaf, He by exact Hleaf; reflexivity |].
      split; [discriminate |]. intros _.
      split; [exact Hleaf |]. split; [reflexivity | lia].
    + exists (Some node), None, t, false. split; [reflexivity |].
      split; [reflexivity |]. split; [reflexivity |].
      split; [rewrite hasKey_leaf, He by exact Hleaf; reflexivity |].
      split; [auto | discriminate].
  - pose proof (wf_height _ _ _ Wl) as Pl. pose proof (wf_height _ _ _ Wr) as Pr.
    pose proof (wf_inner_not_leaf lo hi node l r Wl Wr Hh) as Hnl.
    destruct (wf_leaves_bounds _ _ _ Wl) as [Bl Nl].
    destruct (wf_leaves_bounds _ _ _ Wr) as [Br Nr].
    assert (Alo : above lo (key node)).
    { destruct (leafList l) as [|x xs]; [congruence |].
      apply Forall_cons in Bl as [[B1 B2] _].
      eapply above_weaken; [exact B1 | apply klt_kle; exact B2]. }
    assert (Bhi : below hi (key node)).
    { destruct (leafList r) as [|x xs]; [congruence |].
      apply Forall_cons in Br as [[B1 B2] _].
      eapply below_weaken; [exact B2 | exact B1]. }
    rewrite recursiveRemove_eq, Hnl.
    destruct (Compare k (key node)) eqn:Hc.
    + (* into the right subtree *)
      assert (Hge : kle (key node) k).
      { unfold kle. rewrite (Compare_antisym k (key node)), Hc. discriminate. }
      rewrite Er.
      destruct (IHr t ltac:(lia) Hroom) as (newSelf & newKey & t1 & removed & E & P).
      rewrite (bind_eq _ _ _ E). cbv beta iota.
      destruct P as (Pv & Pr0 & Pk & Pf & Pt).
      assert (Kl : hasKey k l = false).
      { unfold hasKey. apply (existsb_none k Gt); [discriminate |].
        apply (left_keys_below lo k (key node) l Wl Hge). }
      assert (Kn : hasKey k node = hasKey k r).
      { rewrite (hasKey_inner k node l r El Er) by lia. rewrite Kl. reflexivity. }
      destruct removed.
      * destruct newSelf as [r'|].
        -- (* the right subtree is rebuilt *)
           destruct (Pt eq_refl) as (Wr' & Lr' & Hr' & Fr' & Kr' & Ar').
           cbn [negb].
           destruct (addOrphan_ok node t1) as (t2 & E2 & F2).
           destruct (mutateNode_ok env node t2) as (n1 & t3 & E3 & F3 & D3 & _ & W3).
           destruct D3 as (Dk & _ & Dh & _ & Dl & Dr & _).
           rewrite (bind_eq _ _ _ E2), (bind_eq _ _ _ E3).
           pose proof (stFrame_trans _ _ _ F2 F3) as F23.
           destruct F23 as (Fv & Fp & Fr & _).
           assert (Fv2 : version t2 = version t1) by apply F2.
           set (ns := match newKey with
                      | Some _ => set_key newKey (setRight r' n1)
                      | None => setRight r' n1
                      end).
           assert (X : leftNode ns = Some l /\ rightNode ns = Some r' /\
                       hash ns = hash n1 /\ dirty ns = dirty n1 /\
                       nodeKey ns = nodeKey n1 /\
                       wf lo (Some (key ns)) l /\ wf (Some (key ns)) hi r').
           { unfold ns. destruct newKey as [nk|] eqn:Enk.
             - destruct (Kr' ltac:(discriminate)) as [K1 K2]. simpl in K1.
               split; [exact (eq_trans Dl El) |]. split; [reflexivity |].
               split; [reflexivity |]. split; [reflexivity |]. split; [reflexivity |].
               change (key (set_key (Some nk) (setRight r' n1))) with (Some nk).
               split.
               + eapply wf_widen; [exact Wl | auto |].
                 intros k' Hk'. simpl in *. eapply klt_le_trans; eauto.
               + eapply wf_tighten; [exact Wr' |].
                 destruct (wf_leaves_bounds _ _ _ Wr') as [Br' _].
                 apply Forall_forall. intros x Hx.
                 rewrite Forall_forall in K2, Br'. split; [apply K2 | apply Br']; auto.
             - split; [exact (eq_trans Dl El) |]. split; [reflexivity |].
               split; [reflexivity |]. split; [reflexivity |]. split; [reflexivity |].
               change (key (setRight r' n1)) with (key n1). rewrite Dk. auto. }
           destruct X as (Xl & Xr & Xh & Xd & Xn & XWl & XWr).
           destruct (calc_balance_ok env lo hi ns l r' t3 Xl Xr XWl XWr ltac:(lia))
             as (n3 & n' & t4 & E4 & E5 & F5 & W5 & L5 & H5 & A5).
           rewrite E4. rewrite (bind_eq _ _ _ (liftR_eq _ t3)).
           rewrite (bind_eq _ _ _ E5). unfold ret.
           destruct F5 as (F5v & F5p & F5r & _).
           exists (Some n'), None, t4, true. split; [reflexivity |].
           split; [congruence |]. split; [congruence |].
           split; [rewrite Kn; exact Pk |].
           split; [discriminate |]. intros _.
           split; [exact W5 |].
           split.
           { rewrite L5, Lr', (leafList_inner node l r El Er) by lia.
             rewrite removeKey_app.
             rewrite (removeKey_none k Gt (leafList l)); [reflexivity | discriminate |].
             apply (left_keys_below lo k (key node) l Wl Hge). }
           split; [lia |].
           split; [unfold freeLen in *; rewrite F5p, Fp; exact Fr' |].
           split; [intros Hn; exfalso; apply Hn; reflexivity |].
           intros A. destruct (allNodes_inner _ node l r El Er A) as (Pn & Al & Ar).
           assert (Ev : version t3 = version t) by congruence.
           rewrite Ev in A5. rewrite Fv2, Pv in W3.
           apply A5; [| exact Al | exact (Ar' Ar)].
           intros Hn. rewrite Xh in Hn. rewrite Xd, Xn. exact (W3 Pn Hn).
        -- (* the right child was the leaf: the left child takes the place *)
           destruct (Pt eq_refl) as (Lr & Nk & Fl).
           cbn [negb]. unfold Node_left. rewrite El.
           rewrite (bind_eq _ _ _ (liftR_eq l t1)).
           destruct (returnNode_ok env node t1 ltac:(lia)) as (t2 & E2 & V2 & R2 & L2).
           rewrite (bind_eq _ _ _ E2). unfold ret.
           exists (Some l), None, t2, true. split; [reflexivity |].
           split; [congruence |]. split; [congruence |].
           split; [rewrite Kn; exact Pk |].
           split; [discriminate |]. intros _.
           split.
           { eapply wf_widen; [exact Wl | auto |].
             intros k' Hk'. eapply below_weaken; [exact Bhi | apply klt_kle; exact Hk']. }
           split.
           { rewrite (leafList_inner node l r El Er) by lia. rewrite removeKey_app.
             rewrite (removeKey_none k Gt (leafList l)); [| discriminate |].
             - rewrite (leafList_eq r), Lr. unfold removeKey. simpl.
               rewrite hasKey_leaf in Pk by exact Lr. rewrite <- Pk.
               simpl. rewrite app_nil_r. reflexivity.
             - apply (left_keys_below lo k (key node) l Wl Hge). }
           split; [lia |]. split; [lia |].
           split; [intros Hn; exfalso; apply Hn; reflexivity |].
           intros A. destruct (allNodes_inner _ node l r El Er A) as (_ & Al & _).
           exact Al.
      * (* the key is not there *)
        destruct (Pf eq_refl) as (S1 & S2 & S3). subst newSelf newKey t1.
        cbn [negb]. unfold ret.
        exists (Some node), None, t, false. split; [reflexivity |].
        split; [reflexivity |]. split; [reflexivity |].
        split; [rewrite Kn; exact Pk |].
        split; [auto | discriminate].
    + (* into the left subtree *)
      rewrite El.
      destruct (IHl t ltac:(lia) Hroom) as (newSelf & newKey & t1 & removed & E & P).
      rewrite (bind_eq _ _ _ E). cbv beta iota.
      destruct P as (Pv & Pr0 & Pk & Pf & Pt).
      assert (Kr : hasKey k r = false).
      { unfold hasKey. apply (existsb_none k Lt); [discriminate |].
        apply (right_keys_above lo hi k (key node) r Wr Hc). }
      assert (Kn : hasKey k node = hasKey k l).
      { rewrite (hasKey_inner k node l r El Er) by lia. rewrite Kr. apply orb_false_r. }
      destruct removed.
      * destruct newSelf as [l'|].
        -- (* the left subtree is rebuilt *)
           destruct (Pt eq_refl) as (Wl' & Ll' & Hl' & Fl' & Kl' & Al').
           cbn [negb].
           destruct (addOrphan_ok node t1) as (t2 & E2 & F2).
           destruct (mutateNode_ok env node t2) as (n1 & t3 & E3 & F3 & D3 & _ & W3).
           destruct D3 as (Dk & _ & Dh & _ & Dl & Dr & _).
           rewrite (bind_eq _ _ _ E2), (bind_eq _ _ _ E3).
           pose proof (stFrame_trans _ _ _ F2 F3) as F23.
           destruct F23 as (Fv & Fp & Fr & _).
           assert (Fv2 : version t2 = version t1) by apply F2.
           destruct (calc_balance_ok env lo hi (setLeft l' n1) l' r t3)
             as (n3 & n' & t4 & E4 & E5 & F5 & W5 & L5 & H5 & A5).
           { reflexivity. } { exact (eq_trans Dr Er). }
           { change (key (setLeft l' n1)) with (key n1). rewrite Dk. exact Wl'. }
           { change (key (setLeft l' n1)) with (key n1). rewrite Dk. exact Wr. }
           { lia. }
           rewrite E4. rewrite (bind_eq _ _ _ (liftR_eq _ t3)).
           rewrite (bind_eq _ _ _ E5). unfold ret.
           destruct F5 as (F5v & F5p & F5r & _).
           exists (Some n'), newKey, t4, true. split; [reflexivity |].
           split; [congruence |]. split; [congruence |].
           split; [rewrite Kn; exact Pk |].
           split; [discriminate |]. intros _.
           split; [exact W5 |].
           split.
           { rewrite L5, Ll', (leafList_inner node l r El Er) by lia.
             rewrite removeKey_app.
             rewrite (removeKey_none k Lt (leafList r)); [reflexivity | discriminate |].
             apply (right_keys_above lo hi k (key node) r Wr Hc). }
           split; [lia |].
           split; [unfold freeLen in *; rewrite F5p, Fp; exact Fl' |].
           split.
           { intros Hnk. destruct (Kl' Hnk) as [K1 K2]. split; [exact K1 |].
             rewrite L5. apply Forall_app. split; [exact K2 |].
             destruct (wf_leaves_bounds _ _ _ Wl') as [Bl' Nl'].
             destruct (leafList l') as [|x xs]; [congruence |].
             apply Forall_cons in K2 as [K2 _]. apply Forall_cons in Bl' as [[_ B2] _].
             simpl in B2.
             eapply Forall_impl; [exact Br |]. simpl. intros y [Hy _].
             eapply kle_trans; [| exact Hy]. apply klt_kle.
             eapply kle_lt_trans; eauto. }
           intros A. destruct (allNodes_inner _ node l r El Er A) as (Pn & Al & Ar).
           assert (Ev : version t3 = version t) by congruence.
           rewrite Ev in A5. rewrite Fv2, Pv in W3.
           apply A5; [exact (W3 Pn) | exact (Al' Al) | exact Ar].
        -- (* the left child was the leaf: the right child takes the place *)
           destruct (Pt eq_refl) as (Ll & Nk & Fl).
           cbn [negb]. unfold Node_right. rewrite Er.
           rewrite (bind_eq _ _ _ (liftR_eq r t1)).
           destruct (returnNode_ok env node t1 ltac:(lia)) as (t2 & E2 & V2 & R2 & L2).
           rewrite (bind_eq _ _ _ E2). unfold ret.
           exists (Some r), (key node), t2, true. split; [reflexivity |].
           split; [congruence |]. split; [congruence |].
           split; [rewrite Kn; exact Pk |].
           split; [discriminate |]. intros _.
           split.
           { eapply wf_widen; [exact Wr | | auto].
             intros k' Hk'. eapply above_weaken; [exact Alo | exact Hk']. }
           split.
           { rewrite (leafList_inner node l r El Er) by lia. rewrite removeKey_app.
             rewrite (removeKey_none k Lt (leafList r)); [| discriminate |].
             - rewrite (leafList_eq l), Ll. unfold removeKey. simpl.
               rewrite hasKey_leaf in Pk by exact Ll. rewrite <- Pk. reflexivity.
             - apply (right_keys_above lo hi k (key node) r Wr Hc). }
           split; [lia |]. split; [lia |].
           split.
           { intros _. split; [exact Alo |].
             eapply Forall_impl; [exact Br |]. simpl. intros y [Hy _]. exact Hy. }
           intros A. destruct (allNodes_inner _ node l r El Er A) as (_ & _ & Ar).
           exact Ar.
      * (* the key is not there *)
        destruct (Pf eq_refl) as (S1 & S2 & S3). subst newSelf newKey t1.
        cbn [negb]. unfold ret.
        exists (Some node), None, t, false. split; [reflexivity |].
        split; [reflexivity |]. split; [reflexivity |].
        split; [rewrite Kn; exact Pk |].
        split; [auto | discriminate].
    + (* into the right subtree *)
      assert (Hge : kle (key node) k).
      { unfold kle. rewrite (Compare_antisym k (key node)), Hc. discriminate. }
      rewrite Er.
      destruct (IHr t ltac:(lia) Hroom) as (newSelf & newKey & t1 & removed & E & P).
      rewrite (bind_eq _ _ _ E). cbv beta iota.
      destruct P as (Pv & Pr0 & Pk & Pf & Pt).
      assert (Kl : hasKey k l = false).
      { unfold hasKey. apply (existsb_none k Gt); [discriminate |].
        apply (left_keys_below lo k (key node) l Wl Hge). }
      assert (Kn : hasKey k node = hasKey k r).
      { rewrite (hasKey_inner k node l r El Er) by lia. rewrite Kl. reflexivity. }
      destruct removed.
      * destruct newSelf as [r'|].
        -- (* the right subtree is rebuilt *)
           destruct (Pt eq_refl) as (Wr' & Lr' & Hr' & Fr' & Kr' & Ar').
           cbn [negb].
           destruct (addOrphan_ok node t1) as (t2 & E2 & F2).
           destruct (mutateNode_ok env node t2) as (n1 & t3 & E3 & F3 & D3 & _ & W3).
           destruct D3 as (Dk & _ & Dh & _ & Dl & Dr & _).
           rewrite (bind_eq _ _ _ E2), (bind_eq _ _ _ E3).
           pose proof (stFrame_trans _ _ _ F2 F3) as F23.
           destruct F23 as (Fv & Fp & Fr & _).
           assert (Fv2 : version t2 = version t1) by apply F2.
           set (ns := match newKey with
                      | Some _ => set_key newKey (setRight r' n1)
                      | None => setRight r' n1
                      end).
           assert (X : leftNode ns = Some l /\ rightNode ns = Some r' /\
                       hash ns = hash n1 /\ dirty ns = dirty n1 /\
                       nodeKey ns = nodeKey n1 /\
                       wf lo (Some (key ns)) l /\ wf (Some (key ns)) hi r').
           { unfold ns. destruct newKey as [nk|] eqn:Enk.
             - destruct (Kr' ltac:(discriminate)) as [K1 K2]. simpl in K1.
               split; [exact (eq_trans Dl El) |]. split; [reflexivity |].
               split; [reflexivity |]. split; [reflexivity |]. split; [reflexivity |].
               change (key (set_key (Some nk) (setRight r' n1))) with (Some nk).
               split.
               + eapply wf_widen; [exact Wl | auto |].
                 intros k' Hk'. simpl in *. eapply klt_le_trans; eauto.
               + eapply wf_tighten; [exact Wr' |].
                 destruct (wf_leaves_bounds _ _ _ Wr') as [Br' _].
                 apply Forall_forall. intros x Hx.
                 rewrite Forall_forall in K2, Br'. split; [apply K2 | apply Br']; auto.
             - split; [exact (eq_trans Dl El) |]. split; [reflexivity |].
               split; [reflexivity |]. split; [reflexivity |]. split; [reflexivity |].
               change (key (setRight r' n1)) with (key n1). rewrite Dk. auto. }
           destruct X as (Xl & Xr & Xh & Xd & Xn & XWl & XWr).
           destruct (calc_balance_ok env lo hi ns l r' t3 Xl Xr XWl XWr ltac:(lia))
             as (n3 & n' & t4 & E4 & E5 & F5 & W5 & L5 & H5 & A5).
           rewrite E4. rewrite (bind_eq _ _ _ (liftR_eq _ t3)).
           rewrite (bind_eq _ _ _ E5). unfold ret.
           destruct F5 as (F5v & F5p & F5r & _).
           exists (Some n'), None, t4, true. split; [reflexivity |].
           split; [congruence |]. split; [congruence |].
           split; [rewrite Kn; exact Pk |].
           split; [discriminate |]. intros _.
           split; [exact W5 |].
           split.
           { rewrite L5, Lr', (leafList_inner node l r El Er) by lia.
             rewrite removeKey_app.
             rewrite (removeKey_none k Gt (leafList l)); [reflexivity | discriminate |].
             apply (left_keys_below lo k (key node) l Wl Hge). }
           split; [lia |].
           split; [unfold freeLen in *; rewrite F5p, Fp; exact Fr' |].
           split; [intros Hn; exfalso; apply Hn; reflexivity |].
           intros A. destruct (allNodes_inner _ node l r El Er A) as (Pn & Al & Ar).
           assert (Ev : version t3 = version t) by congruence.
           rewrite Ev in A5. rewrite Fv2, Pv in W3.
           apply A5; [| exact Al | exact (Ar' Ar)].
           intros Hn. rewrite Xh in Hn. rewrite Xd, Xn. exact (W3 Pn Hn).
        -- (* the right child was the leaf: the left child takes the place *)
           destruct (Pt eq_refl) as (Lr & Nk & Fl).
           cbn [negb]. unfold Node_left. rewrite El.
           rewrite (bind_eq _ _ _ (liftR_eq l t1)).
           destruct (returnNode_ok env node t1 ltac:(lia)) as (t2 & E2 & V2 & R2 & L2).
           rewrite (bind_eq _ _ _ E2). unfold ret.
           exists (Some l), None, t2, true. split; [reflexivity |].
           split; [congruence |]. split; [congruence |].
           split; [rewrite Kn; exact Pk |].
           split; [discriminate |]. intros _.
           split.
           { eapply wf_widen; [exact Wl | auto |].
             intros k' Hk'. eapply below_weaken; [exact Bhi | apply klt_kle; exact Hk']. }
           split.
           { rewrite (leafList_inner node l r El Er) by lia. rewrite removeKey_app.
             rewrite (removeKey_none k Gt (leafList l)); [| discriminate |].
             - rewrite (leafList_eq r), Lr. unfold removeKey. simpl.
               rewrite hasKey_leaf in Pk by exact Lr. rewrite <- Pk.
               simpl. rewrite app_nil_r. reflexivity.
             - apply (left_keys_below lo k (key node) l Wl Hge). }
           split; [lia |]. split; [lia |].
           split; [intros Hn; exfalso; apply Hn; reflexivity |].
           intros A. destruct (allNodes_inner _ node l r El Er A) as (_ & Al & _).
           exact Al.
      * (* the key is not there *)
        destruct (Pf eq_refl) as (S1 & S2 & S3). subst newSelf newKey t1.
        cbn [negb]. unfold ret.
        exists (Some node), None, t, false. split; [reflexivity |].
        split; [reflexivity |]. split; [reflexivity |].
        split; [rewrite Kn; exact Pk |].
        split; [auto | discriminate].
Qed.

Lemma removeKey_absent (k : slice) (ls : list Node) :
  existsb (fun lf => Equal k (key lf)) ls = false -> removeKey k ls = ls.
Proof.
  induction ls as [|x ls IH]; intros H; [reflexivity |].
  simpl in H. apply orb_false_iff in H as [H1 H2].
  unfold removeKey in *. simpl. rewrite H1. simpl. rewrite (IH H2). reflexivity.
Qed.

(** [Remove] at the root. *)
Definition countDelete (t : Tree) : Tree :=
  set_metrics (set_TreeDelete (TreeDelete (metrics t) + 1) (metrics t)) t.

Lemma Tree_Remove_root (env : Env) (k : slice) (t : Tree) (rt : Node)
    (newSelf : option Node) (newKey val : slice) (removed : bool) (t1 : Tree) :
  root t = Some rt ->
  recursiveRemove env rt k t = Ok ((newSelf, newKey, val, removed, None), t1) ->
  Tree_Remove env k t =
  if removed then Ok ((val, true, None), set_root newSelf (countDelete t1))
  else Ok ((None, false, None), t1).
Proof.
  intros Hr E. unfold Tree_Remove, bind, gets, modify, ret.
  rewrite Hr, E. destruct removed; reflexivity.
Qed.

Definition treeWorking (t : Tree) : Prop :=
  match root t with
  | Some rt => allNodes (working (version t)) rt
  | None => True
  end.

(** [Remove] on a search tree: the value returned is nil; [removed] tells
    whether the key was there; a tree without the key is left as it is; else
    the leaves are the former leaves without the leaf of the key. *)
Lemma Tree_Remove_ok (env : Env) (k : slice) (t : Tree) :
  treeOk t -> freeLen t + 2 <= freeCap ->
  exists removed t',
    Tree_Remove env k t = Ok ((None, removed, None), t') /\
    removed = treeHasKey k t /\
    (removed = false -> t' = t) /\
    treeLeaves t' = removeKey k (treeLeaves t) /\
    treeOk t' /\ version t' = version t /\
    (treeWorking t -> treeWorking t').
Proof.
  intros Hok Hroom. unfold treeOk, treeHasKey, treeLeaves, treeWorking in *.
  destruct (root t) as [rt|] eqn:Hr.
  - destruct Hok as [W Hh].
    destruct (recursiveRemove_ok env k None None rt W t ltac:(lia) Hroom)
      as (newSelf & newKey & t1 & removed & E & P).
    destruct P as (Pv & Pr & Pk & Pf & Pt).
    rewrite (Tree_Remove_root env k t rt _ _ _ _ _ Hr E).
    destruct removed.
    + eexists. eexists. split; [reflexivity |].
      split; [exact Pk |]. split; [discriminate |].
      specialize (Pt eq_refl). cbn [root set_root version countDelete set_metrics].
      destruct newSelf as [n'|].
      * destruct Pt as (W' & L' & H' & _ & _ & A').
        split; [exact L' |]. split; [split; [exact W' | lia] |].
        split; [exact Pv |]. rewrite Pv. exact A'.
      * destruct Pt as (Lf & _ & _).
        split.
        { rewrite leafList_eq, Lf. unfold removeKey. simpl.
          rewrite hasKey_leaf in Pk by exact Lf. rewrite <- Pk. reflexivity. }
        split; [exact I |]. split; [exact Pv | auto].
    + destruct (Pf eq_refl) as (_ & _ & Et). subst t1.
      exists false, t. split; [reflexivity |]. split; [exact Pk |].
      split; [reflexivity |]. rewrite Hr.
      split.
      { symmetry. apply removeKey_absent. symmetry. exact Pk. }
      split; [split; assumption |]. split; [reflexivity | auto].
  - exists false, t. split; [unfold Tree_Remove, bind, gets; rewrite Hr; reflexivity |].
    split; [reflexivity |]. split; [reflexivity |]. rewrite Hr.
    split; [reflexivity |]. split; [exact I |]. split; [reflexivity | auto].
Qed.

(** ** C3: nodes without hash *)

Lemma Tree_Set_keeps_working (env : Env) (k : slice) (vb : list byte) (t : Tree) :
  poolFits 2 (pool t) -> treeOk t -> treeWorking t ->
  exists res t', Tree_Set env k (Some vb) t = Ok (res, t') /\ treeWorking t'.
Proof.
  intros Hp Hok Hw. unfold treeOk, treeWorking in *.
  destruct (root t) as [rt|] eqn:Hr.
  - destruct Hok as [W Hh].
    destruct (recursiveSet_ok env k vb None None rt W t I I Hh Hp)
      as (node' & lf & t1 & updated & E & P).
    destruct P as (Pv & _ & _ & _ & _ & _ & _ & _ & Pa).
    rewrite (Tree_Set_root env k vb t rt _ _ _ Hr E).
    eexists. eexists. split; [reflexivity |].
    cbn [root countSet set_metrics set_root version]. rewrite Pv. exact (Pa Hw).
  - destruct (NewNode_ok env k (Some vb) (version t) 0 t ltac:(lia)
                (poolFits_weaken 2 1 _ ltac:(lia) Hp))
      as (lf & t1 & EN & Nv & Nr & _ & Nleaf & Nk & Nval & Nh & Ns & Nd & Nhash & Nl & Nrr & Nver).
    rewrite (Tree_Set_empty env k vb t _ _ Hr EN).
    eexists. eexists. split; [reflexivity |].
    cbn [root countSet set_metrics set_root version].
    rewrite allNodes_eq, Nl, Nrr. split; [| split; exact I].
    intros Hn. rewrite Nhash in Hn. discriminate Hn.
Qed.


Lemma exTree2_ok : treeOk exTree2.
Proof.
  unfold treeOk. vm_compute. split; [| discriminate].
  eapply wf_inner; [reflexivity | reflexivity | | | reflexivity].
  - apply wf_leaf; [reflexivity | exact I | reflexivity].
  - apply wf_leaf; [reflexivity | vm_compute; discriminate | exact I].
Qed.

Lemma exTree2_working : treeWorking exTree2.
Proof.
  unfold treeWorking. vm_compute.
  split; [intros _; split; reflexivity |].
  split; (split; [intros H; discriminate H | split; exact I]).
Qed.



(** ** C5: collapsing an inner node *)

Lemma Equal_Compare (a b : slice) : Equal a b = true -> Compare a b = Eq.
Proof. unfold Equal. destruct (Compare a b); congruence. Qed.

Lemma recursiveRemove_leaf_hit (env : Env) (l : Node) (k : slice) (t : Tree) :
  isLeaf l = true -> Equal k (key l) = true -> freeLen t < freeCap ->
  exists t1,
    recursiveRemove env l k t = Ok ((None, None, None, true, None), t1) /\
    freeLen t1 = freeLen t + 1.
Proof.
  intros Ll He Hroom. rewrite recursiveRemove_eq, Ll, He.
  destruct (returnNode_ok env l t Hroom) as (t1 & E1 & _ & _ & L1).
  rewrite (bind_eq _ _ _ E1). exists t1. split; [reflexivity | exact L1].
Qed.



Definition exRoot2 : Node :=
  match root exTree2 with Some n => n | None => zeroNode end.
Definition exLeft2 : Node :=
  match leftNode exRoot2 with Some n => n | None => zeroNode end.
Definition exRight2 : Node :=
  match rightNode exRoot2 with Some n => n | None => zeroNode end.

Lemma exRoot2_wf : wf None None exRoot2.
Proof.
  vm_compute.
  eapply wf_inner; [reflexivity | reflexivity | | | reflexivity].
  - apply wf_leaf; [reflexivity | exact I | reflexivity].
  - apply wf_leaf; [reflexivity | vm_compute; discriminate | exact I].
Qed.




(** * Further properties of the code *)

(** ** The node pool: growth *)

(** The slots that [grow] appends: [Node{poolId: i}] for each new index. *)
Definition freshSlots (start amount : nat) : list Node :=
  map (fun i => set_poolId i zeroNode) (seq start amount).

Lemma u64_range (z : Z) : 0 <= u64 z < 2 ^ 64.
Proof. unfold u64, wrap_u. apply Z.mod_pos_bound. lia. Qed.

Lemma u64_add_l (a b : Z) : u64 (u64 a + b) = u64 (a + b).
Proof. unfold u64, wrap_u. apply Zplus_mod_idemp_l. Qed.

Lemma grow_Ok_inv (env : Env) (amount : nat) :
  forall np np',
    grow env amount np = Ok np' ->
    free np' = free np ++ seq (length (nodes np)) amount /\
    nodes np' = nodes np ++ freshSlots (length (nodes np)) amount.
Proof.
  unfold freshSlots.
  induction amount as [|amount IH]; intros np np' H; simpl in H.
  - inversion H; subst. simpl. rewrite !app_nil_r. split; reflexivity.
  - unfold send in H.
    destruct (Z.of_nat (length (free np)) <? freeCap); [| discriminate].
    simpl in H. apply IH in H. simpl in H. destruct H as [Hf Hn].
    rewrite Hf, Hn. rewrite length_app. simpl.
    replace (length (nodes np) + 1)%nat with (S (length (nodes np))) by lia.
    rewrite <- !app_assoc. split; reflexivity.
Qed.

Lemma grow_exact (env : Env) (amount : nat) (np : nodePool) :
  0 <= poolSize np < 2 ^ 64 ->
  Z.of_nat (length (free np)) + Z.of_nat amount <= freeCap ->
  grow env amount np =
  Ok (mkPool (free np ++ seq (length (nodes np)) amount)
             (nodes np ++ freshSlots (length (nodes np)) amount)
             (u64 (poolSize np + Z.of_nat amount * nodeSize env))).
Proof.
  unfold freshSlots.
  revert np. induction amount as [|amount IH]; intros np Hsz Hcap.
  - simpl. rewrite !app_nil_r, Z.add_0_r.
    unfold u64, wrap_u. rewrite Z.mod_small by exact Hsz.
    destruct np; reflexivity.
  - simpl grow. rewrite send_Ok by lia. simpl rbind.
    rewrite IH.
    + simpl. rewrite length_app. simpl.
      replace (length (nodes np) + 1)%nat with (S (length (nodes np))) by lia.
      rewrite <- !app_assoc. simpl. rewrite u64_add_l.
      f_equal. f_equal. f_equal. lia.
    + simpl. apply u64_range.
    + simpl. rewrite length_app. simpl. lia.
Qed.

(** X1.  With room on the free list for [amount] more ids, [grow] appends
    [amount] zero nodes that carry their index as pool id, puts the new
    indices on the free list in increasing order behind the ids already
    there, and adds [amount * nodeSize] to [poolSize] (modulo 2^64). *)
Theorem grow_adds_slots (env : Env) (amount : nat) (np : nodePool) :
  0 <= poolSize np < 2 ^ 64 ->
  Z.of_nat (length (free np)) + Z.of_nat amount <= freeCap ->
  grow env amount np =
  Ok (mkPool (free np ++ seq (length (nodes np)) amount)
             (nodes np ++ freshSlots (length (nodes np)) amount)
             (u64 (poolSize np + Z.of_nat amount * nodeSize env))).
Proof. exact (grow_exact env amount np). Qed.

Lemma grow_adds_slots_witness :
  grow exEnv 2 emptyPool =
  Ok (mkPool (free emptyPool ++ seq (length (nodes emptyPool)) 2)
             (nodes emptyPool ++ freshSlots (length (nodes emptyPool)) 2)
             (u64 (poolSize emptyPool + Z.of_nat 2 * nodeSize exEnv))).
Proof.
  apply (grow_adds_slots exEnv 2 emptyPool).
  - simpl. lia.
  - simpl. unfold freeCap. lia.
Defined.

(** X2.  The free list is a channel of capacity 100,000,000 that nobody reads
    during [grow]: when the ids to add do not fit, [grow] blocks for good. *)
Theorem grow_blocks_when_full (env : Env) (amount : nat) (np : nodePool) :
  Z.of_nat (length (free np)) <= freeCap < Z.of_nat (length (free np)) + Z.of_nat amount ->
  grow env amount np = Blocked.
Proof.
  revert np. induction amount as [|amount IH]; intros np Hcap.
  - lia.
  - simpl. unfold send.
    destruct (Z.ltb_spec (Z.of_nat (length (free np))) freeCap) as [Hlt|Hge];
      [| reflexivity].
    simpl. apply IH. simpl. rewrite length_app. simpl. lia.
Qed.

Lemma grow_blocks_when_full_witness :
  grow exEnv (Z.to_nat 100000001) emptyPool = Blocked.
Proof.
  apply (grow_blocks_when_full exEnv (Z.to_nat 100000001) emptyPool).
  change (free emptyPool) with (@nil nat). unfold freeCap. simpl length. lia.
Defined.

(** X3.  [newNodePool] does not block: it returns a pool of 1,000,000 zero
    nodes, each with its index as pool id, all of them free in index order. *)
Theorem newNodePool_builds_free_slots (env : Env) :
  newNodePool env =
  Ok (mkPool (seq 0 (Z.to_nat initialNodePoolSize))
             (freshSlots 0 (Z.to_nat initialNodePoolSize))
             (u64 (initialNodePoolSize * nodeSize env))).
Proof.
  unfold newNodePool. rewrite grow_exact.
  - cbn [free nodes poolSize length app]. rewrite Z2Nat.id by (unfold initialNodePoolSize; lia).
    reflexivity.
  - cbn [poolSize]. lia.
  - cbn [free length]. rewrite Z2Nat.id by (unfold initialNodePoolSize; lia).
    unfold initialNodePoolSize, freeCap. lia.
Qed.

(** X4.  [Get] on a pool whose free list is empty doubles the pool and hands
    out the first of the new slots, a zero node with that index as pool id;
    the other new slots are free.  A pool without any slot cannot double:
    [Get] then waits on the empty channel for good. *)
Theorem Get_doubles_the_pool (env : Env) (np : nodePool) :
  free np = [] ->
  0 <= poolSize np < 2 ^ 64 ->
  Z.of_nat (length (nodes np)) <= freeCap ->
  Get env np =
  match nodes np with
  | [] => Blocked
  | _ :: _ =>
      Ok (set_poolId (length (nodes np)) zeroNode,
          mkPool (seq (S (length (nodes np))) (length (nodes np) - 1))
                 (nodes np ++ freshSlots (length (nodes np)) (length (nodes np)))
                 (u64 (poolSize np + Z.of_nat (length (nodes np)) * nodeSize env)))
  end.
Proof.
  intros Hfree Hsz Hcap. unfold Get. rewrite Hfree. cbn [length Nat.eqb].
  rewrite grow_exact by (try rewrite Hfree; simpl; lia).
  rewrite Hfree. cbn [rbind free nodes poolSize app].
  destruct (nodes np) as [|n0 ns] eqn:Hn; [reflexivity |].
  set (m := length (n0 :: ns)).
  assert (Hm : m = S (length ns)) by reflexivity.
  rewrite Hm at 2. cbn [seq].
  rewrite lookup_app_r by (fold m; lia).
  fold m. rewrite Nat.sub_diag. unfold freshSlots. rewrite Hm at 3. cbn [seq map lookup].
  simpl. rewrite Hm at 5. simpl. rewrite Nat.sub_0_r. reflexivity.
Qed.

Lemma Get_doubles_the_pool_witness :
  Get exEnv (mkPool [] [zeroNode] 1) =
  match nodes (mkPool [] [zeroNode] 1) with
  | [] => Blocked
  | _ :: _ =>
      Ok (set_poolId (length (nodes (mkPool [] [zeroNode] 1))) zeroNode,
          mkPool (seq (S (length (nodes (mkPool [] [zeroNode] 1))))
                      (length (nodes (mkPool [] [zeroNode] 1)) - 1))
                 (nodes (mkPool [] [zeroNode] 1)
                    ++ freshSlots (length (nodes (mkPool [] [zeroNode] 1)))
                         (length (nodes (mkPool [] [zeroNode] 1))))
                 (u64 (poolSize (mkPool [] [zeroNode] 1)
                       + Z.of_nat (length (nodes (mkPool [] [zeroNode] 1)))
                         * nodeSize exEnv)))
  end.
Proof.
  apply (Get_doubles_the_pool exEnv (mkPool [] [zeroNode] 1)).
  - reflexivity.
  - simpl. lia.
  - simpl. unfold freeCap. lia.
Defined.

(** ** The node pool: slots and their ids *)

(** Every slot holds a node that carries the index of the slot as pool id. *)
Definition slotsIndexed (np : nodePool) : Prop :=
  forall i n, nodes np !! i = Some n -> poolId n = i.

Lemma freshSlots_lookup (start amount i : nat) (n : Node) :
  freshSlots start amount !! i = Some n -> poolId n = (start + i)%nat.
Proof.
  unfold freshSlots. rewrite list_lookup_fmap.
  destruct (seq start amount !! i) as [j|] eqn:Hj; [| discriminate].
  apply lookup_seq in Hj as [Hj _]. simpl. intros H. inversion H; subst.
  reflexivity.
Qed.

Lemma slotsIndexed_grow (env : Env) (amount : nat) (np np' : nodePool) :
  slotsIndexed np -> grow env amount np = Ok np' -> slotsIndexed np'.
Proof.
  intros Hix Hg. apply grow_Ok_inv in Hg as [_ Hn].
  intros i n Hi. rewrite Hn in Hi.
  apply lookup_app_Some in Hi as [Hi | [Hge Hi]].
  - apply Hix. exact Hi.
  - apply freshSlots_lookup in Hi. lia.
Qed.

Lemma slotsIndexed_Put (node r : Node) (np np' : nodePool) :
  slotsIndexed np -> Put node np = Ok (r, np') -> slotsIndexed np'.
Proof.
  intros Hix HP. unfold Put in HP. unfold send in HP. simpl in HP.
  destruct (Z.of_nat (length (free np)) <? freeCap); [| discriminate].
  simpl in HP. inversion HP; subst; clear HP.
  intros i n Hi. simpl in Hi.
  destruct (Nat.eq_dec (poolId node) i) as [E|Hne].
  - subst i. apply list_lookup_insert_Some in Hi as [(_ & Hi & _) | (Hi & _)].
    + subst n. reflexivity.
    + congruence.
  - rewrite list_lookup_insert_ne in Hi by exact Hne. apply Hix. exact Hi.
Qed.

Lemma Get_Ok_inv (env : Env) (np np' : nodePool) (n : Node) :
  Get env np = Ok (n, np') ->
  exists np1 id,
    (if Nat.eqb (length (free np)) 0
     then grow env (length (nodes np)) np else Ok np) = Ok np1 /\
    free np1 = id :: free np' /\ nodes np1 !! id = Some n /\
    nodes np' = nodes np1 /\ hash n = None.
Proof.
  unfold Get. intros H. apply rbind_Ok in H as (np1 & H1 & H).
  destruct (free np1) as [|id rest] eqn:Hf; [discriminate |].
  destruct (nodes np1 !! id) as [nd|] eqn:Hn; [| discriminate].
  destruct (hash nd) eqn:Hh; [discriminate |].
  inversion H; subst; clear H.
  exists np1, id. repeat split; try assumption; reflexivity.
Qed.

(** X5.  In a pool where every slot holds a node with the slot's index as
    pool id, this stays so through [grow], [Put] and [Get], whatever their
    arguments; and [Get] on a pool with free slots hands out the node of the
    slot that has been free for longest, and takes that slot off the list. *)
Theorem pool_slots_keep_their_ids (env : Env) (np : nodePool) :
  slotsIndexed np ->
  (forall amount np', grow env amount np = Ok np' -> slotsIndexed np') /\
  (forall node r np', Put node np = Ok (r, np') -> slotsIndexed np') /\
  (forall n np',
     Get env np = Ok (n, np') ->
     slotsIndexed np' /\
     (free np <> [] ->
      free np = poolId n :: free np' /\ nodes np' = nodes np /\
      nodes np !! poolId n = Some n)).
Proof.
  intros Hix. split; [| split].
  - intros amount np' H. eapply slotsIndexed_grow; eassumption.
  - intros node r np' H. eapply slotsIndexed_Put; eassumption.
  - intros n np' H.
    apply Get_Ok_inv in H as (np1 & id & H1 & Hf & Hn & Hnodes & _).
    assert (Hix1 : slotsIndexed np1).
    { destruct (Nat.eqb (length (free np)) 0).
      - eapply slotsIndexed_grow; eassumption.
      - inversion H1; subst. exact Hix. }
    split.
    + intros i m Hi. rewrite Hnodes in Hi. apply Hix1. exact Hi.
    + intros Hne. destruct (free np) as [|a fr] eqn:Hfree; [congruence |].
      simpl in H1. inversion H1; subst np1. clear H1.
      rewrite Hfree in Hf. inversion Hf; subst.
      pose proof (Hix _ _ Hn) as Hid. rewrite Hid.
      repeat split; try reflexivity; assumption.
Qed.

Lemma exPool_indexed : slotsIndexed exPool.
Proof.
  intros i n Hi. vm_compute in Hi.
  destruct i as [|[|[|[|i]]]]; inversion Hi; reflexivity.
Qed.

Lemma pool_slots_keep_their_ids_witness :
  (forall amount np', grow exEnv amount exPool = Ok np' -> slotsIndexed np') /\
  (forall node r np', Put node exPool = Ok (r, np') -> slotsIndexed np') /\
  (forall n np',
     Get exEnv exPool = Ok (n, np') ->
     slotsIndexed np' /\
     (free exPool <> [] ->
      free exPool = poolId n :: free np' /\ nodes np' = nodes exPool /\
      nodes exPool !! poolId n = Some n)).
Proof.
  apply (pool_slots_keep_their_ids exEnv exPool). exact exPool_indexed.
Defined.



(** ** What a call leaves alone *)

(** [keeps R m]: whenever the call [m] returns, the trees before and after
    it are related by [R]. *)
Definition keeps {A : Type} (R : Tree -> Tree -> Prop) (m : M A) : Prop :=
  forall t a t', m t = Ok (a, t') -> R t t'.

(** A relation that holds across the writes of the mutation engine to the
    fields of its working set. *)
Class Tolerates (R : Tree -> Tree -> Prop) : Prop := {
  tol_refl : forall t, R t t;
  tol_trans : forall t1 t2 t3, R t1 t2 -> R t2 t3 -> R t1 t3;
  tol_sequence : forall x t, R t (set_sequence x t);
  tol_workingBytes : forall x t, R t (set_workingBytes x t);
  tol_workingSize : forall x t, R t (set_workingSize x t);
  tol_orphans : forall x t, R t (set_orphans x t);
  tol_metrics : forall x t, R t (set_metrics x t);
  tol_root : forall x t, R t (set_root x t)
}.

(** A relation that holds across the operations of the pool as well. *)
Class ToleratesPool (R : Tree -> Tree -> Prop) : Prop :=
  tol_pool : forall x t, R t (set_pool x t).

Section Keeps.
Context {R : Tree -> Tree -> Prop} `{!Tolerates R}.

Lemma keeps_ret {A : Type} (a : A) : keeps R (ret a).
Proof. intros t a' t' H. inversion H; subst. apply tol_refl. Qed.

Lemma keeps_gets {A : Type} (f : Tree -> A) : keeps R (gets f).
Proof. intros t a' t' H. inversion H; subst. apply tol_refl. Qed.

Lemma keeps_panic {A : Type} (msg : string) : keeps R (@panic A msg).
Proof. intros t a' t' H. discriminate H. Qed.

Lemma keeps_liftR {A : Type} (r : Res A) : keeps R (liftR r).
Proof. intros t a' t' H. apply liftR_Ok in H as [_ ->]. apply tol_refl. Qed.

Lemma keeps_bind {A B : Type} (m : M A) (f : A -> M B) :
  keeps R m -> (forall a, keeps R (f a)) -> keeps R (bind m f).
Proof.
  intros Hm Hf t b t' H. apply bind_Ok in H as (a & t1 & H1 & H2).
  eapply tol_trans; [eapply Hm; exact H1 | eapply Hf; exact H2].
Qed.

Lemma keeps_modify (f : Tree -> Tree) :
  (forall t, R t (f t)) -> keeps R (modify f).
Proof. intros Hf t a t' H. inversion H; subst. apply Hf. Qed.

Lemma keeps_onPool `{!ToleratesPool R} {A : Type}
    (op : nodePool -> Res (A * nodePool)) :
  keeps R (onPool op).
Proof.
  intros t a t' H. unfold onPool in H. apply rbind_Ok in H as ([a1 p1] & _ & H).
  inversion H; subst. apply tol_pool.
Qed.

End Keeps.

Ltac keeps_field :=
  intros;
  first [ apply tol_sequence | apply tol_workingBytes | apply tol_workingSize
        | apply tol_orphans | apply tol_metrics | apply tol_root | apply tol_pool ].

Ltac keeps_step :=
  first
    [ apply keeps_ret | apply keeps_gets | apply keeps_panic | apply keeps_liftR
    | solve [auto]
    | apply keeps_onPool
    | apply keeps_modify; keeps_field
    | apply keeps_bind; [ | intros ? ]
    | match goal with
      | |- keeps _ (match ?x with _ => _ end) => destruct x
      end ].

Ltac keeps_auto := repeat keeps_step.

Section KeepsOps.
Context {R : Tree -> Tree -> Prop} `{!Tolerates R}.
Variable env : Env.

Lemma keeps_nextNodeKey : keeps R nextNodeKey.
Proof. unfold nextNodeKey. keeps_auto. Qed.

Lemma keeps_addWorking (n : Z) :
  keeps R (addWorkingBytes n) /\ keeps R (addWorkingSize n).
Proof. unfold addWorkingBytes, addWorkingSize. split; keeps_auto. Qed.

Lemma keeps_mutateNode (node : Node) : keeps R (mutateNode env node).
Proof.
  unfold mutateNode. pose proof keeps_nextNodeKey.
  pose proof (fun n => proj1 (keeps_addWorking n)).
  pose proof (fun n => proj2 (keeps_addWorking n)).
  keeps_auto.
Qed.

Lemma keeps_addOrphan (node : Node) : keeps R (addOrphan node).
Proof. unfold addOrphan. keeps_auto. Qed.

Lemma keeps_rotateRight (node : Node) : keeps R (rotateRight env node).
Proof.
  unfold rotateRight.
  pose proof keeps_mutateNode. pose proof keeps_addOrphan.
  repeat first [ solve [auto] | apply keeps_liftR | apply keeps_bind; [ | intros ? ] ].
Qed.

Lemma keeps_rotateLeft (node : Node) : keeps R (rotateLeft env node).
Proof.
  unfold rotateLeft.
  pose proof keeps_mutateNode. pose proof keeps_addOrphan.
  repeat first [ solve [auto] | apply keeps_liftR | apply keeps_bind; [ | intros ? ] ].
Qed.

Lemma keeps_balance (node : Node) : keeps R (balance env node).
Proof.
  unfold balance.
  pose proof keeps_rotateRight. pose proof keeps_rotateLeft.
  repeat first [ solve [auto] | apply keeps_liftR | apply keeps_ret
               | apply keeps_bind; [ | intros ? ]
               | match goal with
                 | |- keeps _ (if ?x then _ else _) => destruct x
                 end ].
Qed.

Lemma keeps_recursiveSetTail (k : slice) (node : Node) (updated : bool) :
  keeps R (recursiveSetTail env k node updated).
Proof.
  unfold recursiveSetTail. pose proof keeps_balance.
  destruct updated; [apply keeps_ret |].
  repeat first [ solve [auto] | apply keeps_liftR | apply keeps_ret
               | apply keeps_bind; [ | intros ? ] ].
Qed.

Lemma keeps_NewNode `{!ToleratesPool R} (k v : slice) (ver : Z) :
  keeps R (NewNode env k v ver).
Proof.
  unfold NewNode. pose proof keeps_nextNodeKey.
  pose proof (fun n => proj1 (keeps_addWorking n)).
  pose proof (fun n => proj2 (keeps_addWorking n)).
  keeps_auto.
Qed.

Lemma keeps_returnNode `{!ToleratesPool R} (node : Node) :
  keeps R (returnNode env node).
Proof.
  unfold returnNode.
  pose proof (fun n => proj1 (keeps_addWorking n)).
  pose proof (fun n => proj2 (keeps_addWorking n)).
  keeps_auto.
Qed.

Lemma keeps_recursiveSet `{!ToleratesPool R} (k v : slice) (node : Node) :
  keeps R (recursiveSet env node k v).
Proof.
  induction node as [node IHl IHr] using Node_children_ind.
  rewrite recursiveSet_eq.
  pose proof keeps_nextNodeKey. pose proof keeps_NewNode.
  pose proof keeps_mutateNode. pose proof keeps_addOrphan.
  pose proof keeps_recursiveSetTail.
  pose proof (fun n => proj1 (keeps_addWorking n)).
  pose proof (fun n => proj2 (keeps_addWorking n)).
  destruct (isLeaf node).
  - destruct (Compare k (key node)); keeps_auto.
  - apply keeps_bind; [auto | intros ?].
    apply keeps_bind; [auto | intros node1].
    destruct (Compare k (key node1)).
    + destruct (rightNode node) as [r|]; [| apply keeps_liftR].
      simpl in IHr. keeps_auto.
    + destruct (leftNode node) as [l|]; [| apply keeps_liftR].
      simpl in IHl. keeps_auto.
    + destruct (rightNode node) as [r|]; [| apply keeps_liftR].
      simpl in IHr. keeps_auto.
Qed.

Lemma keeps_Tree_Set `{!ToleratesPool R} (k v : slice) : keeps R (Tree_Set env k v).
Proof.
  unfold Tree_Set, Tree_set.
  pose proof keeps_recursiveSet. pose proof keeps_NewNode.
  destruct v; keeps_auto.
Qed.

Lemma keeps_recursiveRemove `{!ToleratesPool R} (k : slice) (node : Node) :
  keeps R (recursiveRemove env node k).
Proof.
  induction node as [node IHl IHr] using Node_children_ind.
  rewrite recursiveRemove_eq.
  pose proof keeps_returnNode. pose proof keeps_balance.
  pose proof keeps_mutateNode. pose proof keeps_addOrphan.
  destruct (isLeaf node).
  - destruct (Equal k (key node)); keeps_auto.
  - destruct (Compare k (key node)).
    + destruct (rightNode node) as [r|]; [| apply keeps_liftR].
      simpl in IHr. keeps_auto.
    + destruct (leftNode node) as [l|]; [| apply keeps_liftR].
      simpl in IHl. keeps_auto.
    + destruct (rightNode node) as [r|]; [| apply keeps_liftR].
      simpl in IHr. keeps_auto.
Qed.

Lemma keeps_Tree_Remove `{!ToleratesPool R} (k : slice) : keeps R (Tree_Remove env k).
Proof.
  unfold Tree_Remove. pose proof keeps_recursiveRemove.
  keeps_auto.
Qed.

End KeepsOps.

(** ** [Set] and [Remove] work in memory only *)

(** The committed version, the backend and what is queued for it. *)
Definition storeFrame (t t' : Tree) : Prop :=
  version t' = version t /\ sql t' = sql t /\
  lastCheckpoint t' = lastCheckpoint t /\ leaves t' = leaves t /\
  branches t' = branches t /\ checkpointerCh t' = checkpointerCh t.

#[local] Instance storeFrame_Tolerates : Tolerates storeFrame.
Proof.
  split; try (intros; repeat split; reflexivity).
  intros a b c (?&?&?&?&?&?) (?&?&?&?&?&?). repeat split; congruence.
Qed.

#[local] Instance storeFrame_ToleratesPool : ToleratesPool storeFrame.
Proof. intros x t. repeat split. Qed.

(** X7.  Whatever [Set] and [Remove] return, they leave the committed
    version, the SQL backend, the last checkpoint, the vectors of hashed
    leaves and branches and the checkpointer's queue as they were: nothing
    is written to the store before [SaveVersion]. *)
Theorem Set_and_Remove_write_nothing_to_the_store
    (env : Env) (k v : slice) (t : Tree) :
  (forall res t', Tree_Set env k v t = Ok (res, t') -> storeFrame t t') /\
  (forall res t', Tree_Remove env k t = Ok (res, t') -> storeFrame t t').
Proof.
  split; intros res t' H.
  - exact (keeps_Tree_Set env k v t res t' H).
  - exact (keeps_Tree_Remove env k t res t' H).
Qed.

(** ** Node keys *)

(** [n] calls of [nextNodeKey] in a row. *)
Fixpoint drawKeys (n : nat) : M (list NodeKey) :=
  match n with
  | O => ret []
  | S n' =>
      let* nk := nextNodeKey in
      let* nks := drawKeys n' in
      ret (nk :: nks)
  end.

Lemma u32_add_l (a b : Z) : u32 (u32 a + b) = u32 (a + b).
Proof. unfold u32, wrap_u. apply Zplus_mod_idemp_l. Qed.

Lemma drawKeys_eq (n : nat) :
  forall t,
    drawKeys n t =
    Ok (map (fun i => NewNodeKey (i64 (version t + 1)) (u32 (sequence t + Z.of_nat i)))
            (seq 1 n),
        if Nat.eqb n 0 then t
        else set_sequence (u32 (sequence t + Z.of_nat n)) t).
Proof.
  induction n as [|n IH]; intros t; [reflexivity |].
  cbn [drawKeys]. unfold nextNodeKey at 1.
  unfold bind, modify, gets, ret. cbn [Nat.eqb].
  rewrite IH. cbn [version sequence set_sequence].
  f_equal. apply f_equal2.
  - cbn [seq map]. f_equal.
    rewrite <- (seq_shift n 1), map_map. apply map_ext. intros i.
    rewrite u32_add_l. f_equal. f_equal. lia.
  - destruct n as [|n]; cbn [Nat.eqb]; [reflexivity |].
    unfold set_sequence. cbn [version root metrics sql lastCheckpoint orphans pool
         checkpointerCh workingBytes workingSize branches leaves sequence].
    rewrite u32_add_l. f_equal. f_equal. lia.
Qed.

Lemma u32_inj (s i j : Z) :
  0 <= i < 2 ^ 32 -> 0 <= j < 2 ^ 32 -> u32 (s + i) = u32 (s + j) -> i = j.
Proof.
  unfold u32, wrap_u. intros Hi Hj H.
  assert (E : (s + i - (s + j)) mod 2 ^ 32 = 0).
  { rewrite Zminus_mod, H, Z.sub_diag. reflexivity. }
  replace (s + i - (s + j)) with (i - j) in E by lia.
  apply Z.mod_divide in E; [| lia]. destruct E as [q Hq]. nia.
Qed.

(** X8.  The node keys handed out by successive calls of [nextNodeKey] all
    carry the working version (the committed version plus one), and up to
    2^32 of them in a row are pairwise distinct: the sequence number counts
    up modulo 2^32. *)
Theorem node_keys_are_distinct (n : nat) (t : Tree) :
  Z.of_nat n <= 2 ^ 32 ->
  exists nks t',
    drawKeys n t = Ok (nks, t') /\
    length nks = n /\ NoDup nks /\
    Forall (fun nk => Version nk = i64 (version t + 1)) nks /\
    version t' = version t /\ root t' = root t.
Proof.
  intros Hn. rewrite drawKeys_eq. eexists. eexists. split; [reflexivity |].
  split; [rewrite length_map, length_seq; reflexivity |].
  split; [| split; [| split]].
  - apply NoDup_fmap_2_strong; [| apply NoDup_seq].
    intros i j Hi Hj E.
    apply elem_of_seq in Hi. apply elem_of_seq in Hj.
    inversion E as [E1].
    assert (Z.of_nat (i - 1) = Z.of_nat (j - 1)); [| lia].
    apply (u32_inj (sequence t + 1)); [lia | lia |].
    replace (sequence t + 1 + Z.of_nat (i - 1)) with (sequence t + Z.of_nat i) by lia.
    replace (sequence t + 1 + Z.of_nat (j - 1)) with (sequence t + Z.of_nat j) by lia.
    exact E1.
  - apply Forall_forall. intros nk Hnk.
    apply list_elem_of_fmap in Hnk as (i & -> & _). reflexivity.
  - destruct (Nat.eqb n 0); reflexivity.
  - destruct (Nat.eqb n 0); reflexivity.
Qed.

Lemma node_keys_are_distinct_witness :
  exists nks t',
    drawKeys 3 exTree2 = Ok (nks, t') /\
    length nks = 3%nat /\ NoDup nks /\
    Forall (fun nk => Version nk = i64 (version exTree2 + 1)) nks /\
    version t' = version exTree2 /\ root t' = root exTree2.
Proof.
  apply (node_keys_are_distinct 3 exTree2). simpl. lia.
Defined.

(** ** Copy on write *)

(** X9.  [mutateNode] always returns.  The node comes back without hash; a
    second [mutateNode] on it changes neither the node nor the tree, and
    [addOrphan] on it records nothing.  A node that had no hash is left as it
    was.  A node that had a hash gets the next node key of the working
    version, and it is counted in the working set (size plus one, bytes plus
    [sizeBytes]) exactly when it was not dirty. *)
Theorem mutateNode_touches_once (env : Env) (node : Node) (t : Tree) :
  exists node' t',
    mutateNode env node t = Ok (node', t') /\
    hash node' = None /\
    mutateNode env node' t' = Ok (node', t') /\
    addOrphan node' t' = Ok (tt, t') /\
    (hash node = None -> node' = node /\ t' = t) /\
    (hash node <> None ->
     dirty node' = true /\
     nodeKey node' = NewNodeKey (i64 (version t + 1)) (u32 (sequence t + 1)) /\
     sequence t' = u32 (sequence t + 1) /\
     workingSize t' = (if dirty node then workingSize t else i64 (workingSize t + 1)) /\
     workingBytes t' =
       (if dirty node then workingBytes t
        else u64 (workingBytes t + sizeBytes env node'))).
Proof.
  unfold mutateNode at 1. destruct (hash node) as [h|] eqn:Hh.
  - destruct (dirty node) eqn:Hd.
    + eexists. eexists. split.
      { unfold bind, nextNodeKey, bind, modify, gets, ret. cbn. rewrite Hd. reflexivity. }
      split; [reflexivity |]. split; [reflexivity |]. split; [reflexivity |].
      split; [discriminate |]. intros _. cbn. rewrite Hd. repeat split; reflexivity.
    + eexists. eexists. split.
      { unfold bind, nextNodeKey, addWorkingBytes, addWorkingSize, bind, modify, gets, ret.
        cbn. rewrite Hd. reflexivity. }
      split; [reflexivity |]. split; [reflexivity |]. split; [reflexivity |].
      split; [discriminate |]. intros _. cbn. repeat split; reflexivity.
  - exists node, t. split; [reflexivity |]. split; [exact Hh |].
    split; [unfold mutateNode; rewrite Hh; reflexivity |].
    split; [unfold addOrphan; rewrite Hh; reflexivity |].
    split; [intros _; split; reflexivity | congruence].
Qed.

(** ** [Set] and the pool *)

Definition samePool (t t' : Tree) : Prop := pool t' = pool t.

#[local] Instance samePool_Tolerates : Tolerates samePool.
Proof.
  split; try (intros; reflexivity).
  unfold samePool. intros a b c H1 H2. congruence.
Qed.

Lemma Get_fits_inv (env : Env) (n : Z) (t t' : Tree) (nd : Node) :
  0 <= n -> poolFits (n + 1) (pool t) ->
  onPool (Get env) t = Ok (nd, t') -> poolFits n (pool t').
Proof.
  intros Hn Hp H. destruct (Get_fits env n (pool t) Hn Hp) as (nd' & p' & HG & _ & Hp').
  unfold onPool in H. rewrite HG in H. simpl in H. inversion H; subst. exact Hp'.
Qed.

Lemma NewNode_fits_inv (env : Env) (k v : slice) (ver n : Z) (t t' : Tree) (nd : Node) :
  0 <= n -> poolFits (n + 1) (pool t) ->
  NewNode env k v ver t = Ok (nd, t') -> poolFits n (pool t').
Proof.
  intros Hn Hp H.
  destruct (NewNode_ok env k v ver n t Hn Hp) as (nd' & t1 & E & _ & _ & Hp' & _).
  rewrite E in H. inversion H; subst. exact Hp'.
Qed.

(** One leaf is reached, and there at most two nodes are taken. *)
Lemma recursiveSet_pool (env : Env) (k v : slice) (node : Node) :
  forall t res t' n,
    recursiveSet env node k v t = Ok (res, t') ->
    0 <= n -> poolFits (n + 2) (pool t) -> poolFits n (pool t').
Proof.
  induction node as [node IHl IHr] using Node_children_ind.
  intros t res t' n H Hn Hp. rewrite recursiveSet_eq in H.
  assert (Split : forall t0 res0 t0' (leafFirst : bool) (keyOf : slice),
    pool t0 = pool t ->
    (let* parent := onPool (Get env) in
     let* nk := nextNodeKey in
     let parent := set_nodeKey nk parent in
     let parent := set_sortKey (MinRightToken env k (key node)) parent in
     let parent := set_key keyOf parent in
     let parent := set_subtreeHeight 1 parent in
     let parent := set_size 2 parent in
     let parent := set_dirty true parent in
     let* ver := gets version in
     let* leaf := NewNode env k v ver in
     let parent := if leafFirst then setRight node (setLeft leaf parent)
                   else setRight leaf (setLeft node parent) in
     let* _ := addWorkingBytes (sizeBytes env parent) in
     let* _ := addWorkingSize 1 in
     ret (Some parent, false, @None error)) t0 = Ok (res0, t0') ->
    poolFits n (pool t0')).
  { intros t0 res0 t0' leafFirst keyOf E0 H0.
    inv_bind H0 as parent t1 HG.
    apply (Get_fits_inv env (n + 1)) in HG;
      [| lia | rewrite E0; replace (n + 1 + 1) with (n + 2) by lia; exact Hp].
    inv_bind H0 as nk t2 Hk. apply (keeps_nextNodeKey (R := samePool)) in Hk.
    inv_bind H0 as ver t3 Hv. inv_ok Hv.
    inv_bind H0 as leaf t4 HN.
    apply (NewNode_fits_inv env k v _ n) in HN; [| lia | rewrite Hk; exact HG].
    inv_bind H0 as u1 t5 Hb. apply (proj1 (keeps_addWorking (R := samePool) _)) in Hb.
    inv_bind H0 as u2 t6 Hs. apply (proj2 (keeps_addWorking (R := samePool) _)) in Hs.
    inv_ok H0. rewrite Hs, Hb. exact HN. }
  destruct (isLeaf node).
  - destruct (Compare k (key node)).
    + inv_bind H as n1 t1 Hm. apply (keeps_mutateNode (R := samePool)) in Hm.
      cbv zeta in H. inv_bind H as ver t2 Hv. inv_ok Hv. inv_ok H.
      rewrite Hm. apply (poolFits_weaken (n + 2)); [lia | exact Hp].
    + inv_bind H as u t1 Hmet. inv_ok Hmet.
      apply (Split _ res t' true (key node)) in H; [exact H | reflexivity].
    + inv_bind H as u t1 Hmet. inv_ok Hmet.
      apply (Split _ res t' false k) in H; [exact H | reflexivity].
  - clear Split.
    inv_bind H as u t1 Ho. apply (keeps_addOrphan (R := samePool)) in Ho.
    inv_bind H as node1 t2 Hm. apply (keeps_mutateNode (R := samePool)) in Hm.
    assert (E2 : pool t2 = pool t) by (rewrite Hm; exact Ho).
    assert (Tail : forall (child : Node) upd (side : Node -> Node -> Node) tA resA tB,
      poolFits n (pool tA) ->
      recursiveSetTail env k (side child node1) upd tA = Ok (resA, tB) ->
      poolFits n (pool tB)).
    { intros child upd side tA resA tB HA HT.
      apply (keeps_recursiveSetTail (R := samePool)) in HT. rewrite HT. exact HA. }
    destruct (Compare k (key node1)).
    + destruct (rightNode node) as [r|]; [| inv_ok H; discriminate].
      simpl in IHr. inv_bind H as resr t3 Hr.
      apply (IHr _ _ _ n) in Hr; [| lia | rewrite E2; exact Hp].
      destruct resr as [[[c|] upd] [e|]]; try (inv_ok H; exact Hr); try discriminate H.
      exact (Tail _ _ setRight _ _ _ Hr H).
    + destruct (leftNode node) as [l|]; [| inv_ok H; discriminate].
      simpl in IHl. inv_bind H as resl t3 Hl.
      apply (IHl _ _ _ n) in Hl; [| lia | rewrite E2; exact Hp].
      destruct resl as [[[c|] upd] [e|]]; try (inv_ok H; exact Hl); try discriminate H.
      exact (Tail _ _ setLeft _ _ _ Hl H).
    + destruct (rightNode node) as [r|]; [| inv_ok H; discriminate].
      simpl in IHr. inv_bind H as resr t3 Hr.
      apply (IHr _ _ _ n) in Hr; [| lia | rewrite E2; exact Hp].
      destruct resr as [[[c|] upd] [e|]]; try (inv_ok H; exact Hr); try discriminate H.
      exact (Tail _ _ setRight _ _ _ Hr H).
Qed.

(** ** [Set] and [Remove] one after the other *)

(** The height of the root, -1 for the empty tree. *)
Definition treeHeight (t : Tree) : Z :=
  match root t with Some rt => subtreeHeight rt | None => -1 end.

Lemma Tree_Set_full (env : Env) (k : slice) (vb : list byte) (t : Tree) (n : Z) :
  0 <= n -> poolFits (n + 2) (pool t) -> treeOk t ->
  exists updated lf rt' t',
    Tree_Set env k (Some vb) t = Ok ((updated, None), t') /\
    updated = treeHasKey k t /\
    root t' = Some rt' /\ wf None None rt' /\
    subtreeHeight rt' <= treeHeight t + 1 /\
    treeLeaves t' = upsert k lf (treeLeaves t) /\
    isLeaf lf = true /\ Compare k (key lf) = Eq /\
    hash lf = Some (LeafDigest 0 (size lf) (i64 (version t + 1)) (key lf) (Some vb)) /\
    poolFits n (pool t') /\ version t' = version t.
Proof.
  intros Hn Hp Hok.
  assert (Hp2 : poolFits 2 (pool t)) by (apply (poolFits_weaken (n + 2)); [lia | exact Hp]).
  unfold treeOk, treeHasKey, treeLeaves, treeHeight in *.
  destruct (root t) as [rt|] eqn:Hr.
  - destruct Hok as [W Hh].
    destruct (recursiveSet_ok env k vb None None rt W t I I Hh Hp2)
      as (node' & lf & t1 & updated & E & P).
    pose proof (recursiveSet_pool env k (Some vb) rt t _ t1 n E Hn Hp) as Hp1.
    destruct P as (Pv & Pr & Pw & Ph & _ & Pk & Pl & (L1 & L2 & L3 & L4) & _).
    rewrite (Tree_Set_root env k vb t rt _ _ _ Hr E).
    exists updated, lf, node'. eexists. split; [reflexivity |].
    cbn [root countSet set_metrics set_root version pool].
    split; [exact Pk |]. split; [reflexivity |]. split; [exact Pw |].
    split; [exact Ph |]. split; [exact Pl |].
    split; [exact L1 |]. split; [exact L2 |]. split; [exact L4 |].
    split; [exact Hp1 | exact Pv].
  - destruct (NewNode_ok env k (Some vb) (version t) (n + 1) t ltac:(lia)
                ltac:(replace (n + 1 + 1) with (n + 2) by lia; exact Hp))
      as (lf & t1 & EN & Nv & Nr & Np & Nleaf & Nk & Nval & Nh & Ns & Nd & Nhash & Nl & Nrr & Nver).
    rewrite (Tree_Set_empty env k vb t _ _ Hr EN).
    exists false, lf, lf. eexists. split; [reflexivity |].
    cbn [root countSet set_metrics set_root version pool].
    split; [reflexivity |]. split; [reflexivity |].
    split; [apply wf_leaf; [exact Nleaf | exact I | exact I] |].
    split; [lia |].
    assert (LL : leafList lf = [lf]) by (rewrite leafList_eq, Nleaf; reflexivity).
    split; [exact LL |]. split; [exact Nleaf |].
    split; [rewrite Nk; apply Compare_refl |].
    split; [rewrite Nhash, Ns, Nk; reflexivity |].
    split; [apply (poolFits_weaken (n + 1)); [lia | exact Np] | exact Nv].
Qed.

Lemma Tree_Remove_full (env : Env) (k : slice) (t : Tree) (rt : Node) :
  root t = Some rt -> wf None None rt -> subtreeHeight rt <= 127 ->
  freeLen t + 2 <= freeCap ->
  exists removed t',
    Tree_Remove env k t = Ok ((None, removed, None), t') /\
    removed = hasKey k rt /\
    (removed = false -> t' = t) /\
    treeLeaves t' = removeKey k (leafList rt) /\
    match root t' with
    | None => True
    | Some rt' => wf None None rt' /\ subtreeHeight rt' <= subtreeHeight rt
    end /\
    freeLen t' <= freeLen t + 2 /\ version t' = version t.
Proof.
  intros Hr W Hh Hroom. unfold treeLeaves.
  destruct (recursiveRemove_ok env k None None rt W t Hh Hroom)
    as (newSelf & newKey & t1 & removed & E & P).
  destruct P as (Pv & Pr & Pk & Pf & Pt).
  rewrite (Tree_Remove_root env k t rt _ _ _ _ _ Hr E).
  destruct removed.
  - eexists. eexists. split; [reflexivity |].
    split; [exact Pk |]. split; [discriminate |].
    specialize (Pt eq_refl).
    cbn [root set_root version countDelete set_metrics freeLen pool].
    unfold freeLen in *. cbn [pool set_root countDelete set_metrics].
    destruct newSelf as [n'|].
    + destruct Pt as (W' & L' & H' & F' & _ & _).
      split; [exact L' |]. split; [split; assumption |]. split; [exact F' | exact Pv].
    + destruct Pt as (Lf & _ & F').
      split.
      { rewrite leafList_eq, Lf. unfold removeKey. simpl.
        rewrite hasKey_leaf in Pk by exact Lf. rewrite <- Pk. reflexivity. }
      split; [exact I |]. split; [lia | exact Pv].
  - destruct (Pf eq_refl) as (_ & _ & Et). subst t1.
    exists false, t. split; [reflexivity |]. split; [exact Pk |].
    split; [reflexivity |]. rewrite Hr.
    split.
    { symmetry. apply removeKey_absent. symmetry. exact Pk. }
    split; [split; [exact W | lia] |]. split; [lia | reflexivity].
Qed.

Lemma removeKey_upsert (k : slice) (lf : Node) (ls : list Node) :
  Compare k (key lf) = Eq ->
  existsb (fun x => Equal k (key x)) ls = false ->
  removeKey k (upsert k lf ls) = ls.
Proof.
  intros Hlf.
  assert (Hd : Equal k (key lf) = true) by (unfold Equal; rewrite Hlf; reflexivity).
  induction ls as [|x ls IH]; intros Hno.
  - unfold removeKey. simpl. rewrite Hd. reflexivity.
  - simpl in Hno. apply orb_false_iff in Hno as [Hx Hrest].
    assert (Hc : Compare k (key x) <> Eq).
    { unfold Equal in Hx. destruct (Compare k (key x)); congruence. }
    simpl. destruct (Compare k (key x)) eqn:Hcx; [congruence | |].
    + unfold removeKey. simpl. rewrite Hd, Hx. simpl. f_equal.
      exact (removeKey_absent k ls Hrest).
    + unfold removeKey. simpl. rewrite Hx. simpl. f_equal. exact (IH Hrest).
Qed.

Lemma upsert_upsert (k : slice) (a b : Node) (ls : list Node) :
  Compare k (key b) = Eq ->
  upsert k a (upsert k b ls) = upsert k a ls.
Proof.
  intros Hb. induction ls as [|x ls IH]; simpl.
  - rewrite Hb. reflexivity.
  - destruct (Compare k (key x)) eqn:Hc; simpl.
    + rewrite Hb. reflexivity.
    + rewrite Hb. reflexivity.
    + rewrite Hc, IH. reflexivity.
Qed.

Lemma upsert_length (k : slice) (a b : Node) (ls : list Node) :
  Compare k (key b) = Eq ->
  length (upsert k a (upsert k b ls)) = length (upsert k b ls).
Proof.
  intros Hb. induction ls as [|x ls IH]; simpl.
  - rewrite Hb. reflexivity.
  - destruct (Compare k (key x)) eqn:Hc; simpl.
    + rewrite Hb. reflexivity.
    + rewrite Hb. reflexivity.
    + rewrite Hc. simpl. rewrite IH. reflexivity.
Qed.

Lemma upsert_hasKey (k : slice) (lf : Node) (ls : list Node) :
  Compare k (key lf) = Eq ->
  existsb (fun x => Equal k (key x)) (upsert k lf ls) = true.
Proof.
  intros Hlf.
  assert (Hd : Equal k (key lf) = true) by (unfold Equal; rewrite Hlf; reflexivity).
  induction ls as [|x ls IH]; simpl.
  - rewrite Hd. reflexivity.
  - destruct (Compare k (key x)) eqn:Hc; simpl.
    + rewrite Hd. reflexivity.
    + rewrite Hd. reflexivity.
    + rewrite IH. apply orb_true_r.
Qed.

Lemma removeKey_hasKey (k : slice) (ls : list Node) :
  existsb (fun x => Equal k (key x)) (removeKey k ls) = false.
Proof.
  unfold removeKey. induction ls as [|x ls IH]; [reflexivity |].
  simpl. destruct (Equal k (key x)) eqn:Hx; simpl; [exact IH |].
  rewrite Hx, IH. reflexivity.
Qed.

Lemma poolFits_room (n : Z) (p : nodePool) :
  2 <= n -> poolFits n p -> Z.of_nat (length (free p)) + 2 <= freeCap.
Proof.
  intros Hn (_ & Hne & Hcap).
  assert (1 <= Z.of_nat (length (nodes p))).
  { destruct (nodes p); [congruence | simpl; lia]. }
  assert (3 <= 2 ^ n - 1).
  { assert (2 ^ 2 <= 2 ^ n) by (apply Z.pow_le_mono_r; lia). lia. }
  nia.
Qed.

(** X10.  On a tree that does not hold the key, [Set] of the key followed by
    [Remove] of the key succeeds with [updated = false] and
    [removed = true], and the leaves of the tree are again the leaves it had,
    in the same order; an empty tree is empty again. *)
Theorem Set_then_Remove_restores_the_leaves
    (env : Env) (k : slice) (vb : list byte) (t : Tree) :
  poolFits 4 (pool t) -> treeOk t -> treeHasKey k t = false ->
  exists t1 t2,
    Tree_Set env k (Some vb) t = Ok ((false, None), t1) /\
    Tree_Remove env k t1 = Ok ((None, true, None), t2) /\
    treeLeaves t2 = treeLeaves t /\
    (root t2 = None <-> root t = None) /\
    version t2 = version t.
Proof.
  intros Hp Hok Hno.
  destruct (Tree_Set_full env k vb t 2 ltac:(lia) Hp Hok)
    as (updated & lf & rt1 & t1 & E1 & Hu & Hr1 & W1 & Hh1 & Hl1 & _ & Hc & _ & Hp1 & Hv1).
  rewrite Hno in Hu. subst updated.
  assert (Hh : treeHeight t <= 125).
  { unfold treeHeight, treeOk in *. destruct (root t); [apply Hok | lia]. }
  destruct (Tree_Remove_full env k t1 rt1 Hr1 W1 ltac:(lia)
              (poolFits_room 2 _ ltac:(lia) Hp1))
    as (removed & t2 & E2 & Hrm & _ & Hl2 & Hw2 & _ & Hv2).
  assert (Hl1' : leafList rt1 = upsert k lf (treeLeaves t)).
  { unfold treeLeaves in Hl1 at 1. rewrite Hr1 in Hl1. exact Hl1. }
  assert (removed = true).
  { rewrite Hrm. unfold hasKey. rewrite Hl1'. apply upsert_hasKey. exact Hc. }
  clear Hrm. subst removed.
  exists t1, t2. split; [exact E1 |]. split; [exact E2 |].
  assert (HL : treeLeaves t2 = treeLeaves t).
  { rewrite Hl2, Hl1'. apply removeKey_upsert; assumption. }
  split; [exact HL |]. split; [| congruence].
  unfold treeLeaves, treeOk in *.
  destruct (root t) as [rt|], (root t2) as [rt2|]; split; try congruence; intros _.
  - destruct (wf_leaves_bounds _ _ _ (proj1 Hok)) as [_ Hne]. congruence.
  - destruct (wf_leaves_bounds _ _ _ (proj1 Hw2)) as [_ Hne]. congruence.
Qed.

Lemma exPool_fits4 : poolFits 4 (pool exTree2).
Proof.
  split; [| split; [vm_compute; discriminate | vm_compute; discriminate]].
  unfold pool_ok. vm_compute free.
  repeat constructor. eexists. split; [vm_compute; reflexivity | repeat split].
Qed.

Lemma Set_then_Remove_restores_the_leaves_witness :
  exists t1 t2,
    Tree_Set exEnv (str "c") (Some (list_byte_of_string "3")) exTree2
      = Ok ((false, None), t1) /\
    Tree_Remove exEnv (str "c") t1 = Ok ((None, true, None), t2) /\
    treeLeaves t2 = treeLeaves exTree2 /\
    (root t2 = None <-> root exTree2 = None) /\
    version t2 = version exTree2.
Proof.
  apply (Set_then_Remove_restores_the_leaves exEnv (str "c")
           (list_byte_of_string "3") exTree2).
  - exact exPool_fits4.
  - exact exTree2_ok.
  - vm_compute. reflexivity.
Defined.

(** X11.  [Set] of a key followed by [Set] of the same key: the second call
    returns [updated = true] and adds no leaf, and the leaves of the tree are
    those that the second call alone would give: the leaf of the key carries
    the digest of the second value. *)
Theorem Set_twice_keeps_the_last_value
    (env : Env) (k : slice) (v1 v2 : list byte) (t : Tree) :
  poolFits 4 (pool t) -> treeOk t -> treeHeight t <= 124 ->
  exists updated t1 lf t2,
    Tree_Set env k (Some v1) t = Ok ((updated, None), t1) /\
    Tree_Set env k (Some v2) t1 = Ok ((true, None), t2) /\
    treeLeaves t2 = upsert k lf (treeLeaves t) /\
    length (treeLeaves t2) = length (treeLeaves t1) /\
    isLeaf lf = true /\ Compare k (key lf) = Eq /\
    hash lf = Some (LeafDigest 0 (size lf) (i64 (version t + 1)) (key lf) (Some v2)).
Proof.
  intros Hp Hok Hh.
  destruct (Tree_Set_full env k v1 t 2 ltac:(lia) Hp Hok)
    as (updated & lf1 & rt1 & t1 & E1 & Hu & Hr1 & W1 & Hh1 & Hl1 & _ & Hc1 & _ & Hp1 & Hv1).
  assert (Hok1 : treeOk t1) by (unfold treeOk; rewrite Hr1; split; [exact W1 | lia]).
  destruct (Tree_Set_full env k v2 t1 0 ltac:(lia) Hp1 Hok1)
    as (updated2 & lf2 & rt2 & t2 & E2 & Hu2 & Hr2 & W2 & _ & Hl2 & Hlf2 & Hc2 & Hhash2 & _ & _).
  assert (updated2 = true).
  { rewrite Hu2. unfold treeHasKey. rewrite Hl1. apply upsert_hasKey. exact Hc1. }
  clear Hu2. subst updated2.
  exists updated, t1, lf2, t2. split; [exact E1 |]. split; [exact E2 |].
  split; [rewrite Hl2, Hl1; apply upsert_upsert; exact Hc1 |].
  split; [rewrite Hl2, Hl1; apply upsert_length; exact Hc1 |].
  split; [exact Hlf2 |]. split; [exact Hc2 |]. rewrite Hhash2, Hv1. reflexivity.
Qed.

Lemma Set_twice_keeps_the_last_value_witness :
  exists updated t1 lf t2,
    Tree_Set exEnv (str "c") (Some (list_byte_of_string "3")) exTree2
      = Ok ((updated, None), t1) /\
    Tree_Set exEnv (str "c") (Some (list_byte_of_string "4")) t1
      = Ok ((true, None), t2) /\
    treeLeaves t2 = upsert (str "c") lf (treeLeaves exTree2) /\
    length (treeLeaves t2) = length (treeLeaves t1) /\
    isLeaf lf = true /\ Compare (str "c") (key lf) = Eq /\
    hash lf = Some (LeafDigest 0 (size lf) (i64 (version exTree2 + 1)) (key lf)
                      (Some (list_byte_of_string "4"))).
Proof.
  apply (Set_twice_keeps_the_last_value exEnv (str "c")
           (list_byte_of_string "3") (list_byte_of_string "4") exTree2).
  - exact exPool_fits4.
  - exact exTree2_ok.
  - vm_compute. discriminate.
Defined.

(** X12.  [Remove] of a key followed by [Remove] of the same key: whatever
    the first call returns, the second returns [removed = false] and leaves
    the tree exactly as the first call left it. *)
Theorem Remove_twice_changes_nothing_more (env : Env) (k : slice) (t : Tree) :
  treeOk t -> freeLen t + 4 <= freeCap ->
  exists removed t1,
    Tree_Remove env k t = Ok ((None, removed, None), t1) /\
    removed = treeHasKey k t /\
    Tree_Remove env k t1 = Ok ((None, false, None), t1).
Proof.
  intros Hok Hroom. unfold treeOk, treeHasKey, treeLeaves in *.
  destruct (root t) as [rt|] eqn:Hr.
  - destruct Hok as [W Hh].
    destruct (Tree_Remove_full env k t rt Hr W ltac:(lia) ltac:(lia))
      as (removed & t1 & E1 & Hrm & _ & Hl1 & Hw1 & Hf1 & _).
    exists removed, t1. split; [exact E1 |]. split; [exact Hrm |].
    unfold treeLeaves in Hl1.
    destruct (root t1) as [rt1|] eqn:Hr1.
    + destruct Hw1 as [W1 Hh1].
      destruct (Tree_Remove_full env k t1 rt1 Hr1 W1 ltac:(lia) ltac:(lia))
        as (removed2 & t2 & E2 & Hrm2 & Hsame & _).
      assert (removed2 = false).
      { rewrite Hrm2. unfold hasKey. rewrite Hl1. apply removeKey_hasKey. }
      clear Hrm2. subst removed2. rewrite (Hsame eq_refl) in E2. exact E2.
    + unfold Tree_Remove, bind, gets. rewrite Hr1. reflexivity.
  - exists false, t.
    assert (E : Tree_Remove env k t = Ok ((None, false, None), t))
      by (unfold Tree_Remove, bind, gets; rewrite Hr; reflexivity).
    split; [exact E |]. split; [reflexivity | exact E].
Qed.

Lemma Remove_twice_changes_nothing_more_witness :
  exists removed t1,
    Tree_Remove exEnv (str "a") exTree2 = Ok ((None, removed, None), t1) /\
    removed = treeHasKey (str "a") exTree2 /\
    Tree_Remove exEnv (str "a") t1 = Ok ((None, false, None), t1).
Proof.
  apply (Remove_twice_changes_nothing_more exEnv (str "a") exTree2).
  - exact exTree2_ok.
  - vm_compute. discriminate.
Defined.

(** ** The order of the leaves *)

(** The keys of the leaves increase strictly from left to right. *)
Fixpoint keysIncrease (ls : list Node) : Prop :=
  match ls with
  | [] => True
  | x :: ls' => Forall (fun y => klt (key x) (key y)) ls' /\ keysIncrease ls'
  end.

Lemma keysIncrease_app (a b : list Node) :
  keysIncrease a -> keysIncrease b ->
  Forall (fun x => Forall (fun y => klt (key x) (key y)) b) a ->
  keysIncrease (a ++ b).
Proof.
  induction a as [|x a IH]; intros Ha Hb Hab; [exact Hb |].
  simpl in *. destruct Ha as [Hx Ha]. apply Forall_cons in Hab as [Hxb Hab].
  split; [apply Forall_app; split; assumption | apply IH; assumption].
Qed.

Lemma wf_keysIncrease (lo hi : option slice) (n : Node) :
  wf lo hi n -> keysIncrease (leafList n).
Proof.
  induction 1 as [lo hi n Hleaf Ha Hb | lo hi n l r El Er Wl IHl Wr IHr Hh].
  - rewrite leafList_eq, Hleaf. simpl. split; [constructor | exact I].
  - pose proof (wf_height _ _ _ Wl). pose proof (wf_height _ _ _ Wr).
    rewrite (leafList_inner n l r El Er) by lia.
    apply keysIncrease_app; [exact IHl | exact IHr |].
    destruct (wf_leaves_bounds _ _ _ Wl) as [Bl _].
    destruct (wf_leaves_bounds _ _ _ Wr) as [Br _].
    eapply Forall_impl; [exact Bl |]. simpl. intros x [_ Hx].
    eapply Forall_impl; [exact Br |]. simpl. intros y [Hy _].
    exact (klt_le_trans _ _ _ Hx Hy).
Qed.

(** X13.  The keys of the leaves of a search tree increase strictly from
    left to right, so no key is held twice, and this is so again after [Set]
    and after [Remove], which both return without error. *)
Theorem leaves_stay_in_key_order
    (env : Env) (k : slice) (vb : list byte) (t : Tree) :
  poolFits 2 (pool t) -> treeOk t -> freeLen t + 2 <= freeCap ->
  keysIncrease (treeLeaves t) /\
  (exists updated t',
     Tree_Set env k (Some vb) t = Ok ((updated, None), t') /\
     keysIncrease (treeLeaves t')) /\
  (exists removed t',
     Tree_Remove env k t = Ok ((None, removed, None), t') /\
     keysIncrease (treeLeaves t')).
Proof.
  intros Hp Hok Hroom.
  assert (Sorted : forall t0, treeOk t0 -> keysIncrease (treeLeaves t0)).
  { intros t0 H0. unfold treeOk, treeLeaves in *.
    destruct (root t0) as [rt|]; [| exact I].
    exact (wf_keysIncrease _ _ _ (proj1 H0)). }
  split; [exact (Sorted t Hok) |]. split.
  - destruct (Tree_Set_full env k vb t 0 ltac:(lia) Hp Hok)
      as (updated & lf & rt1 & t1 & E1 & _ & Hr1 & W1 & _).
    exists updated, t1. split; [exact E1 |].
    unfold treeLeaves. rewrite Hr1. exact (wf_keysIncrease _ _ _ W1).
  - destruct (Tree_Remove_ok env k t Hok Hroom)
      as (removed & t1 & E1 & _ & _ & _ & Hok1 & _).
    exists removed, t1. split; [exact E1 | exact (Sorted t1 Hok1)].
Qed.

Lemma leaves_stay_in_key_order_witness :
  keysIncrease (treeLeaves exTree2) /\
  (exists updated t',
     Tree_Set exEnv (str "a") (Some (list_byte_of_string "3")) exTree2
       = Ok ((updated, None), t') /\
     keysIncrease (treeLeaves t')) /\
  (exists removed t',
     Tree_Remove exEnv (str "a") exTree2 = Ok ((None, removed, None), t') /\
     keysIncrease (treeLeaves t')).
Proof.
  apply (leaves_stay_in_key_order exEnv (str "a") (list_byte_of_string "3") exTree2).
  - exact exPool_fits.
  - exact exTree2_ok.
  - vm_compute. discriminate.
Defined.

(** ** The working set across [Set] and [Remove] on the empty tree *)

Lemma i64_small (z : Z) : - 2 ^ 63 <= z < 2 ^ 63 -> i64 z = z.
Proof.
  intros H. unfold i64, wrap_s.
  rewrite Z.mod_small by lia. lia.
Qed.

Lemma u64_small (z : Z) : 0 <= z < 2 ^ 64 -> u64 z = z.
Proof. intros H. unfold u64, wrap_u. apply Z.mod_small. exact H. Qed.

Lemma u64_add_sub (a b : Z) : 0 <= a < 2 ^ 64 -> u64 (u64 (a + b) + - b) = a.
Proof.
  intros H. rewrite u64_add_l. replace (a + b + - b) with a by lia.
  apply u64_small. exact H.
Qed.

Lemma i64_add_l (a b : Z) : i64 (i64 a + b) = i64 (a + b).
Proof.
  unfold i64, wrap_s.
  replace ((a + 2 ^ (64 - 1)) mod 2 ^ 64 - 2 ^ (64 - 1) + b + 2 ^ (64 - 1))
    with ((a + 2 ^ (64 - 1)) mod 2 ^ 64 + b) by lia.
  rewrite Zplus_mod_idemp_l. f_equal. f_equal. lia.
Qed.

Lemma i64_add_sub (a : Z) : - 2 ^ 63 <= a < 2 ^ 63 -> i64 (i64 (a + 1) + -1) = a.
Proof.
  intros H. rewrite i64_add_l. replace (a + 1 + -1) with a by lia.
  apply i64_small. exact H.
Qed.

(** The leaf that [NewNode] makes of the pool node [nd]. *)
Definition freshLeaf (nk : NodeKey) (k v : slice) (ver : Z) (nd : Node) : Node :=
  set_dirty true
    (set_value None
       (_hash (i64 (ver + 1))
          (set_size 1 (set_subtreeHeight 0 (set_value v
             (set_sortKey k (set_key k (set_nodeKey nk nd)))))))).

Lemma NewNode_exact (env : Env) (k v : slice) (ver : Z) (t : Tree)
    (nd : Node) (p' : nodePool) :
  Get env (pool t) = Ok (nd, p') ->
  NewNode env k v ver t =
  Ok (freshLeaf (NewNodeKey (i64 (version t + 1)) (u32 (sequence t + 1))) k v ver nd,
      set_workingSize (i64 (workingSize t + 1))
        (set_workingBytes
           (u64 (workingBytes t +
                 sizeBytes env
                   (freshLeaf (NewNodeKey (i64 (version t + 1)) (u32 (sequence t + 1)))
                              k v ver nd)))
           (set_sequence (u32 (sequence t + 1)) (set_pool p' t)))).
Proof.
  intros HG. unfold NewNode, onPool, bind. rewrite HG.
  unfold nextNodeKey, addWorkingBytes, addWorkingSize, bind, modify, gets, ret.
  reflexivity.
Qed.

Lemma returnNode_exact (env : Env) (node : Node) (t : Tree) :
  dirty node = true -> freeLen t < freeCap ->
  returnNode env node t =
  Ok (resetNode node,
      set_pool (mkPool (free (pool t) ++ [poolId node])
                       (<[poolId node := resetNode node]> (nodes (pool t)))
                       (poolSize (pool t)))
        (set_orphans (orphans t ++ [mkDiff None true (key node) (subtreeHeight node)])
           (set_workingSize (i64 (workingSize t + -1))
              (set_workingBytes (u64 (workingBytes t + - sizeBytes env node)) t)))).
Proof.
  intros Hd Hroom. unfold returnNode. rewrite Hd.
  unfold addWorkingBytes, addWorkingSize, onPool, Put, bind, modify, gets, ret.
  cbn [pool set_orphans set_workingSize set_workingBytes].
  change (poolId (resetNode node)) with (poolId node).
  rewrite send_Ok by exact Hroom. reflexivity.
Qed.

Lemma Tree_Remove_only_leaf (env : Env) (k : slice) (t : Tree) (lf : Node) (t1 : Tree) :
  root t = Some lf -> isLeaf lf = true -> Equal k (key lf) = true ->
  returnNode env lf t = Ok (resetNode lf, t1) ->
  Tree_Remove env k t = Ok ((None, true, None), set_root None (countDelete t1)).
Proof.
  intros Hr Hleaf Hk E.
  assert (ER : recursiveRemove env lf k t = Ok ((None, None, None, true, None), t1)).
  { rewrite recursiveRemove_eq, Hleaf, Hk. rewrite (bind_eq _ _ _ E). reflexivity. }
  rewrite (Tree_Remove_root env k t lf _ _ _ _ _ Hr ER). reflexivity.
Qed.


Lemma exPool_fits0 : poolFits 2 (pool exTree0).
Proof.
  split; [| split; [vm_compute; discriminate | vm_compute; discriminate]].
  unfold pool_ok. vm_compute free.
  repeat constructor; eexists; (split; [vm_compute; reflexivity | repeat split]).
Qed.


(** ** The counting helpers of the tests *)

(** [pooledTreeCount] (tree_test.go): both children are resolved before the
    recursive calls.  Go's [int] is taken as 64 bits wide. *)
Fixpoint pooledTreeCount (node : Node) {struct node} : Res Z :=
  if isLeaf node then Ok 1
  else
    match leftNode node with
    | None => Fetch (leftNodeKey node)
    | Some l =>
        match rightNode node with
        | None => Fetch (rightNodeKey node)
        | Some r =>
            do cl <- pooledTreeCount l;
            do cr <- pooledTreeCount r;
            Ok (i64 (i64 (1 + cl) + cr))
        end
    end.

Section TestHelpers.
(** [maxInt8] is called by the tests and not defined in the sources. *)
Variable maxInt8 : Z -> Z -> Z.

(** [pooledTreeHeight] (tree_test.go), an [int8]. *)
Fixpoint pooledTreeHeight (node : Node) {struct node} : Res Z :=
  if isLeaf node then Ok 1
  else
    match leftNode node with
    | None => Fetch (leftNodeKey node)
    | Some l =>
        match rightNode node with
        | None => Fetch (rightNodeKey node)
        | Some r =>
            do hl <- pooledTreeHeight l;
            do hr <- pooledTreeHeight r;
            Ok (i8 (1 + maxInt8 hl hr))
        end
    end.

End TestHelpers.

Lemma pooledTreeCount_eq (node : Node) :
  pooledTreeCount node =
  if isLeaf node then Ok 1
  else
    match leftNode node with
    | None => Fetch (leftNodeKey node)
    | Some l =>
        match rightNode node with
        | None => Fetch (rightNodeKey node)
        | Some r =>
            do cl <- pooledTreeCount l;
            do cr <- pooledTreeCount r;
            Ok (i64 (i64 (1 + cl) + cr))
        end
    end.
Proof. destruct node; reflexivity. Qed.

Lemma pooledTreeHeight_eq (maxInt8 : Z -> Z -> Z) (node : Node) :
  pooledTreeHeight maxInt8 node =
  if isLeaf node then Ok 1
  else
    match leftNode node with
    | None => Fetch (leftNodeKey node)
    | Some l =>
        match rightNode node with
        | None => Fetch (rightNodeKey node)
        | Some r =>
            do hl <- pooledTreeHeight maxInt8 l;
            do hr <- pooledTreeHeight maxInt8 r;
            Ok (i8 (1 + maxInt8 hl hr))
        end
    end.
Proof. destruct node; reflexivity. Qed.

Lemma i64_add_r (a b : Z) : i64 (a + i64 b) = i64 (a + b).
Proof. rewrite Z.add_comm, i64_add_l, Z.add_comm. reflexivity. Qed.

(** X15.  The assertion of [TestTree_Build] on the height: on a search tree
    that is resident in memory, with a height of at most 126,
    [pooledTreeHeight] returns the stored [subtreeHeight] of the root plus
    one. *)
Theorem pooledTreeHeight_is_subtreeHeight_plus_one
    (maxInt8 : Z -> Z -> Z) (lo hi : option slice) (node : Node) :
  (forall a b, maxInt8 a b = Z.max a b) ->
  wf lo hi node -> subtreeHeight node <= 126 ->
  pooledTreeHeight maxInt8 node = Ok (subtreeHeight node + 1).
Proof.
  intros Hmax W. induction W as [lo hi n Hleaf Ha Hb | lo hi n l r El Er Wl IHl Wr IHr Hh];
    intros Hle; rewrite pooledTreeHeight_eq.
  - rewrite Hleaf. apply Z.eqb_eq in Hleaf. rewrite Hleaf. reflexivity.
  - rewrite (wf_inner_not_leaf _ _ _ _ _ Wl Wr Hh), El, Er.
    pose proof (wf_height _ _ _ Wl). pose proof (wf_height _ _ _ Wr).
    rewrite IHl by lia. rewrite IHr by lia. simpl rbind.
    rewrite Hmax, i8_small by lia. f_equal. lia.
Qed.

Lemma pooledTreeHeight_is_subtreeHeight_plus_one_witness :
  pooledTreeHeight Z.max exRoot2 = Ok (subtreeHeight exRoot2 + 1).
Proof.
  apply (pooledTreeHeight_is_subtreeHeight_plus_one Z.max None None exRoot2).
  - reflexivity.
  - exact exRoot2_wf.
  - vm_compute. discriminate.
Defined.

(** X16.  On a search tree that is resident in memory, [pooledTreeCount]
    returns twice the number of leaves minus one (as an int64): every inner
    node has exactly two children. *)
Theorem pooledTreeCount_counts_the_nodes (lo hi : option slice) (node : Node) :
  wf lo hi node ->
  pooledTreeCount node = Ok (i64 (2 * Z.of_nat (length (leafList node)) - 1)).
Proof.
  induction 1 as [lo hi n Hleaf Ha Hb | lo hi n l r El Er Wl IHl Wr IHr Hh];
    rewrite pooledTreeCount_eq.
  - rewrite Hleaf, leafList_eq, Hleaf. reflexivity.
  - rewrite (wf_inner_not_leaf _ _ _ _ _ Wl Wr Hh), El, Er, IHl, IHr.
    pose proof (wf_height _ _ _ Wl). pose proof (wf_height _ _ _ Wr).
    rewrite (leafList_inner n l r El Er) by lia.
    simpl rbind. rewrite length_app. f_equal.
    rewrite (i64_add_r 1), i64_add_l, i64_add_r.
    f_equal. lia.
Qed.

Lemma pooledTreeCount_counts_the_nodes_witness :
  pooledTreeCount exRoot2 = Ok (i64 (2 * Z.of_nat (length (leafList exRoot2)) - 1)).
Proof.
  apply (pooledTreeCount_counts_the_nodes None None exRoot2). exact exRoot2_wf.
Defined.

(** ** What [SaveVersion] returns *)

Lemma detach_hash (isLeafChild isDirtyChild : bool) (child node nodeL : Node)
    (t t' : Tree) (res : Node) :
  hash nodeL = hash node ->
  (if isLeafChild then
     let* _ := (if negb isDirtyChild
                then let* _ := onPool (Put child) in ret tt
                else ret tt) in
     ret nodeL
   else ret node) t = Ok (res, t') ->
  hash res = hash node.
Proof.
  intros Hh. destruct isLeafChild.
  - intros H. inv_ok H. inv_ok H. exact Hh.
  - intros H. inv_ok H. reflexivity.
Qed.

Lemma deepHash_hashed (node : Node) (t t' : Tree) (res : Node * bool * bool) :
  deepHash node t = Ok (res, t') -> hash (fst (fst res)) <> None.
Proof.
  intros H. rewrite deepHash_eq in H. cbv zeta in H.
  inv_bind H as ver t1 Hver. inv_ok Hver.
  inv_bind H as idx t2 Hidx. inv_ok Hidx.
  inv_bind H as u t3 Happ.
  destruct (hash node) as [h|] eqn:Hh; [inv_ok H; simpl; congruence |].
  destruct (leftNode node) as [l|]; [| inv_ok H; discriminate].
  inv_bind H as resl t4 Hl. simpl in H.
  destruct (rightNode node) as [r|]; [| inv_ok H; discriminate].
  inv_bind H as resr t5 Hr.
  inv_bind H as n1 t6 Hd1. apply detach_hash in Hd1; [| reflexivity].
  inv_bind H as n2 t7 Hd2. apply detach_hash in Hd2; [| reflexivity].
  inv_bind H as u2 t8 Hal. inv_ok H. simpl.
  rewrite Hd2, Hd1. discriminate.
Qed.

Lemma deepHashRoot_hashed (t t' : Tree) :
  deepHashRoot t = Ok (tt, t') ->
  exists rt h, root t' = Some rt /\ hash rt = Some h.
Proof.
  unfold deepHashRoot. intros H. inv_ok H. inv_ok H0.
  destruct (root t0) as [rt|]; [| discriminate].
  inv_ok H. apply deepHash_hashed in H0. inv_ok H.
  destruct (hash (fst (fst a))) as [h|] eqn:Hh; [| congruence].
  exists (fst (fst a)), h. split; [reflexivity | exact Hh].
Qed.

Lemma SaveVersion_hashes (t t' : Tree) (res : option Digest * Z * option error) :
  SaveVersion t = Ok (res, t') ->
  exists t1, deepHashRoot (bumped t) = Ok (tt, t1).
Proof.
  unfold SaveVersion. intros H.
  inv_bind H as u1 t1 H1. inv_ok H1.
  inv_bind H as u2 t2 H2. inv_ok H2.
  inv_bind H as u3 t3 H3. destruct u3. exists t3. exact H3.
Qed.

(** X17.  When [SaveVersion] returns without an error, one of two things
    happened.  Either the save went through: the hash returned is the hash of
    the root, which is not nil, the version returned is the former version
    plus one and is now the version of the tree, the vectors of leaves and
    branches and the orphan log are empty, the sequence counter is zero, and
    the last write to the backend is the root record of that version.  Or
    the version being saved is 1 and the switch to the next shard failed:
    then the hash returned is nil and the version returned is 0, although the
    version of the tree was incremented to 1. *)
Theorem SaveVersion_without_error
    (t t' : Tree) (db : SqliteDb) (h : option Digest) (v : Z) :
  sql t = Some db ->
  SaveVersion t = Ok ((h, v, None), t') ->
  (h <> None /\ v = i64 (version t + 1) /\ version t' = v /\
   leaves t' = [] /\ branches t' = [] /\ orphans t' = [] /\ sequence t' = 0 /\
   exists db' rt ops,
     sql t' = Some db' /\ root t' = Some rt /\ hash rt = h /\
     written db' = written db ++ ops ++ [OpSaveRoot v (Some rt)]) \/
  (h = None /\ v = 0 /\ i64 (version t + 1) = 1 /\ version t' = 1 /\
   fails db KNextShard = true).
Proof.
  intros Hsql H.
  destruct (SaveVersion_hashes _ _ _ H) as (t1 & Hdeep).
  rewrite (SaveVersion_spec t Hsql Hdeep) in H.
  destruct (deepHashRoot_frame _ Hdeep) as [(Hv & Hs & _ & _ & _ & _ & Hsq & _) _].
  destruct (deepHashRoot_hashed _ _ Hdeep) as (rt & hr & Hrt & Hhr).
  change (version (bumped t)) with (i64 (version t + 1)) in Hv.
  change (sequence (bumped t)) with 0 in Hs.
  change (sql (bumped t)) with (sql t) in Hsq. rewrite Hsql in Hsq.
  unfold afterHashing in H.
  destruct (fails db KBatchSetLeaves); [discriminate |].
  set (t2 := counted (logged [OpBatchSet (leaves t1) true] t1)) in H.
  assert (Done : forall ops,
    (if fails db KSaveRoot
     then Ok ((None, version t1, Some (errSaveRoot (errBackend KSaveRoot))),
              cleared (logged ops t2))
     else Ok ((rootHash t1, version t1, None),
              logged [OpSaveRoot (version t1) (root t1)] (cleared (logged ops t2))))
    = Ok ((h, v, None), t') ->
    h <> None /\ v = i64 (version t + 1) /\ version t' = v /\
    leaves t' = [] /\ branches t' = [] /\ orphans t' = [] /\ sequence t' = 0 /\
    exists db' rt ops,
      sql t' = Some db' /\ root t' = Some rt /\ hash rt = h /\
      written db' = written db ++ ops ++ [OpSaveRoot v (Some rt)]).
  { intros ops E. destruct (fails db KSaveRoot); [discriminate |].
    inversion E; subst; clear E.
    unfold rootHash, childHash. rewrite Hrt, Hhr.
    split; [discriminate |]. split; [exact Hv |]. split; [reflexivity |].
    split; [reflexivity |]. split; [reflexivity |]. split; [reflexivity |].
    split; [exact Hs |].
    eexists. exists rt, ([OpBatchSet (leaves t1) true] ++ ops).
    split.
    { unfold logged, cleared, t2, counted, logged. cbn. rewrite Hsq. cbn. reflexivity. }
    split; [exact Hrt |]. split; [exact Hhr |].
    cbn. rewrite <- !app_assoc. reflexivity. }
  destruct (version t1 =? 1) eqn:Hone.
  - apply Z.eqb_eq in Hone.
    unfold shardKinds in H. cbn [find] in H.
    destruct (fails db KNextShard) eqn:F1.
    { cbn in H. inversion H; subst; clear H. right.
      split; [reflexivity |]. split; [reflexivity |].
      split; [rewrite <- Hv; exact Hone |]. split; [exact Hone | reflexivity]. }
    destruct (fails db KBatchSetBranches); [discriminate |].
    destruct (fails db KMapVersions); [discriminate |].
    destruct (fails db KAddShardQuery); [discriminate |].
    destruct (fails db KExec); [discriminate |].
    cbn [shardOutcome fst snd] in H. left. exact (Done _ H).
  - cbn [fst snd] in H. left. exact (Done _ H).
Qed.

Lemma SaveVersion_without_error_witness :
  (rootHash exTree3 <> None /\ 1 = i64 (version exTree2 + 1) /\ version exTree3 = 1 /\
   leaves exTree3 = [] /\ branches exTree3 = [] /\ orphans exTree3 = [] /\
   sequence exTree3 = 0 /\
   exists db' rt ops,
     sql exTree3 = Some db' /\ root exTree3 = Some rt /\ hash rt = rootHash exTree3 /\
     written db' = written okDb ++ ops ++ [OpSaveRoot 1 (Some rt)]) \/
  (rootHash exTree3 = None /\ 1 = 0 /\ i64 (version exTree2 + 1) = 1 /\
   version exTree3 = 1 /\ fails okDb KNextShard = true).
Proof.
  apply (SaveVersion_without_error exTree2 exTree3 okDb (rootHash exTree3) 1).
  - vm_compute. reflexivity.
  - vm_compute. reflexivity.
Defined.

Lemma deepHash_of_a_hashed_node (node : Node) (t : Tree) (h : Digest) :
  hash node = Some h -> Version (nodeKey node) <> version t ->
  deepHash node t = Ok ((node, isLeaf node, false), t).
Proof.
  intros Hh Hv. rewrite deepHash_eq. unfold bind, gets, ret, modify. cbv beta zeta.
  rewrite (proj2 (Z.eqb_neq _ _) Hv), Hh. reflexivity.
Qed.

(** X18.  [SaveVersion] on a tree whose root is hashed and belongs to an
    earlier version (nothing was set or removed since the root was hashed):
    when the version to save is not 1 and the backend takes the writes, the
    call returns the hash the root already has under the next version, does
    not touch the root, and writes the leaves that were pending and the root
    record and nothing else. *)
Theorem SaveVersion_of_an_unchanged_tree
    (t : Tree) (db : SqliteDb) (rt : Node) (h : Digest) :
  sql t = Some db -> root t = Some rt -> hash rt = Some h ->
  Version (nodeKey rt) <> i64 (version t + 1) ->
  i64 (version t + 1) <> 1 ->
  fails db KBatchSetLeaves = false -> fails db KSaveRoot = false ->
  exists t',
    SaveVersion t = Ok ((Some h, i64 (version t + 1), None), t') /\
    root t' = Some rt /\ version t' = i64 (version t + 1) /\
    sql t' =
      Some (mkSql (written db ++
                     [OpBatchSet (leaves t) true;
                      OpSaveRoot (i64 (version t + 1)) (Some rt)])
                  (fails db)) /\
    leaves t' = [] /\ branches t' = [] /\ orphans t' = [] /\
    pool t' = pool t /\ workingSize t' = workingSize t.
Proof.
  intros Hsql Hr Hh Hver Hone F1 F2.
  assert (Hdeep : deepHashRoot (bumped t) = Ok (tt, bumped t)).
  { unfold deepHashRoot. unfold gets at 1. unfold bind at 1.
    change (root (bumped t)) with (root t). rewrite Hr.
    rewrite (bind_eq _ _ _ (deepHash_of_a_hashed_node rt (bumped t) h Hh Hver)).
    unfold modify. cbn [fst]. f_equal. f_equal.
    rewrite <- Hr. destruct t; reflexivity. }
  rewrite (SaveVersion_spec t Hsql Hdeep). unfold afterHashing.
  rewrite F1, F2.
  change (version (bumped t)) with (i64 (version t + 1)).
  apply Z.eqb_neq in Hone. rewrite Hone. cbn [fst snd].
  eexists. split.
  { unfold rootHash, childHash. change (root (bumped t)) with (root t).
    rewrite Hr, Hh. reflexivity. }
  unfold logged, cleared, counted, logged, bumped. cbn. rewrite Hsql. cbn.
  rewrite <- !app_assoc. repeat split; try reflexivity. exact Hr.
Qed.

Definition exDbA : SqliteDb :=
  match sql exTreeA with Some db => db | None => okDb end.
Definition exRootA : Node :=
  match root exTreeA with Some n => n | None => zeroNode end.
Definition exHashA : Digest :=
  match hash exRootA with Some h => h | None => LeafDigest 0 0 0 None None end.

Lemma SaveVersion_of_an_unchanged_tree_witness :
  exists t',
    SaveVersion exTreeA = Ok ((Some exHashA, i64 (version exTreeA + 1), None), t') /\
    root t' = Some exRootA /\ version t' = i64 (version exTreeA + 1) /\
    sql t' =
      Some (mkSql (written exDbA ++
                     [OpBatchSet (leaves exTreeA) true;
                      OpSaveRoot (i64 (version exTreeA + 1)) (Some exRootA)])
                  (fails exDbA)) /\
    leaves t' = [] /\ branches t' = [] /\ orphans t' = [] /\
    pool t' = pool exTreeA /\ workingSize t' = workingSize exTreeA.
Proof.
  apply (SaveVersion_of_an_unchanged_tree exTreeA exDbA exRootA exHashA).
  - vm_compute. reflexivity.
  - vm_compute. reflexivity.
  - vm_compute. reflexivity.
  - vm_compute. discriminate.
  - vm_compute. discriminate.
  - vm_compute. reflexivity.
  - vm_compute. reflexivity.
Defined.

(** ** LoadVersion *)

(** The errors of [LoadVersion]: "sql is nil", or the error of [LoadRoot]. *)
Inductive loadError (E : Type) : Type :=
| errSqlIsNil
| errLoadRoot (e : E).
Arguments errSqlIsNil {E}.
Arguments errLoadRoot {E} e.

Section Load.
Variable E : Type.
(** [SqliteDb.LoadRoot] is not part of the sources: it is taken as the root
    and the error it returns for a version. *)
Variable LoadRoot : SqliteDb -> Z -> option Node * option E.

(** [Tree.LoadVersion]; the call of [tree.cache.Swap] is left out. *)
Definition LoadVersion (v : Z) : M (option (loadError E)) :=
  let* db := gets sql in
  match db with
  | None => ret (Some errSqlIsNil)
  | Some db =>
      let* _ := modify (set_version v) in
      let* _ := modify (set_root None) in
      let* _ := modify (set_orphans []) in
      let* _ := modify (set_workingBytes 0) in
      let* _ := modify (set_workingSize 0) in
      let r := LoadRoot db v in
      let* _ := modify (set_root (fst r)) in
      match snd r with
      | Some e => ret (Some (errLoadRoot e))
      | None =>
          let* _ := modify (set_lastCheckpoint v) in
          ret None
      end
  end.

End Load.
Arguments LoadVersion {E} LoadRoot v _.

Lemma buildCheckpoint_old_node (env : Env) (node : Node) (args : checkpointArgs) (t : Tree) :
  Version (nodeKey node) <= lastCheckpoint t ->
  buildCheckpoint env node args t = Ok ((node, args), t).
Proof.
  intros H. rewrite buildCheckpoint_eq. unfold gets at 1. unfold bind at 1.
  rewrite (proj2 (Z.leb_le _ _) H). reflexivity.
Qed.

(** The tree that [LoadVersion] leaves when [LoadRoot] returned [r]. *)
Definition afterLoad {E : Type} (r : option Node * option E) (v : Z) (t : Tree) : Tree :=
  let t1 :=
    set_root (fst r)
      (set_workingSize 0 (set_workingBytes 0 (set_orphans []
         (set_root None (set_version v t))))) in
  match snd r with
  | Some _ => t1
  | None => set_lastCheckpoint v t1
  end.

Lemma LoadVersion_eq (E : Type) (LoadRoot : SqliteDb -> Z -> option Node * option E)
    (v : Z) (t : Tree) (db : SqliteDb) :
  sql t = Some db ->
  LoadVersion LoadRoot v t =
  Ok (option_map errLoadRoot (snd (LoadRoot db v)), afterLoad (LoadRoot db v) v t).
Proof.
  intros Hs. unfold LoadVersion. unfold gets at 1. unfold bind at 1. rewrite Hs.
  unfold bind, modify, ret, afterLoad.
  destruct (snd (LoadRoot db v)); reflexivity.
Qed.

Lemma asyncCheckpoint_nothing_new (env : Env) (t : Tree) (rt : Node) :
  root t = Some rt -> Version (nodeKey rt) <= lastCheckpoint t -> workingSize t = 0 ->
  asyncCheckpoint env t =
  Ok (None, set_checkpointerCh (checkpointerCh t ++ [mkArgs [] [] (version t)]) t).
Proof.
  intros Hr Hv Hws. unfold asyncCheckpoint.
  unfold gets at 1. unfold bind at 1. unfold gets at 1. unfold bind at 1. rewrite Hr.
  rewrite (bind_eq _ _ _
             (bind_eq _ _ _ (buildCheckpoint_old_node env rt (mkArgs [] [] (version t)) t Hv))).
  unfold modify at 1. unfold bind at 1. unfold ret at 1.
  unfold gets at 1. unfold bind at 1.
  cbn [snd fst argsSet length workingSize set_root]. rewrite Hws.
  cbn [Z.of_nat negb]. change (i64 0 =? 0) with true. cbn [negb].
  unfold modify, bind, ret. f_equal. f_equal.
  rewrite <- Hr. destruct t; reflexivity.
Qed.


(** ** db.go: the store that keeps nodes in a map *)

#[local] Instance NodeKey_eq_dec : EqDecision NodeKey.
Proof. solve_decision. Defined.

#[local] Instance NodeKey_countable : Countable NodeKey.
Proof.
  apply (inj_countable' (fun nk => (Version nk, Sequence nk))
                        (fun p => NewNodeKey (fst p) (snd p))).
  intros [v s]. reflexivity.
Qed.

(** db.go is written against a [Node] that has, besides the fields above,
    the field [frameId]. *)
Record framedNode := mkFramed {
  theNode : Node;
  frameId : Z
}.

(** [mapDB]: the counters are Go [int]s, taken as 64 bits wide. *)
Record mapDB := mkMapDB {
  dbNodes : gmap NodeKey framedNode;
  setCount : Z;
  deleteCount : Z;
  dbLastCheckpoint : Z
}.

Definition newMapDB : mapDB := mkMapDB ∅ 0 0 0.

(** The copy of the node that [mapDB.Set] stores. *)
Definition stored (node : framedNode) : framedNode :=
  mkFramed (set_rightNode None (set_leftNode None (set_dirty false (theNode node))))
           (-1).

(** [mapDB.Set]: the store after the call and the error returned. *)
Definition mapDB_Set (node : framedNode) (db : mapDB) : mapDB * option error :=
  (mkMapDB (<[nodeKey (theNode node) := stored node]> (dbNodes db))
           (i64 (setCount db + 1)) (deleteCount db) (dbLastCheckpoint db),
   None).

(** [mapDB.Get]: the node is a copy of the entry, nil when there is none. *)
Definition mapDB_Get (nk : NodeKey) (db : mapDB) : option framedNode * option error :=
  (dbNodes db !! nk, None).

(** [mapDB.Delete]. *)
Definition mapDB_Delete (nk : NodeKey) (db : mapDB) : mapDB * option error :=
  (mkMapDB (delete nk (dbNodes db)) (setCount db) (i64 (deleteCount db + 1))
           (dbLastCheckpoint db),
   None).

(** X20.  [mapDB.Set] followed by [mapDB.Get] of the node's key returns,
    without error, the node as it was stored: a copy that is not dirty, holds
    no child pointers and has frame id -1, and agrees with the node in every
    other field.  The entries under other keys are as before.  Storing what
    [Get] returned changes no entry, and storing a node twice gives the same
    entries as storing it once, while [setCount] counts every call. *)
Theorem mapDB_Get_after_Set (node : framedNode) (db : mapDB) :
  let db1 := fst (mapDB_Set node db) in
  let n := theNode (stored node) in
  mapDB_Get (nodeKey (theNode node)) db1 = (Some (stored node), None) /\
  dirty n = false /\ leftNode n = None /\ rightNode n = None /\
  frameId (stored node) = -1 /\
  set_dirty (dirty (theNode node))
    (set_leftNode (leftNode (theNode node))
       (set_rightNode (rightNode (theNode node)) n)) = theNode node /\
  (forall nk, nk <> nodeKey (theNode node) -> mapDB_Get nk db1 = mapDB_Get nk db) /\
  dbNodes (fst (mapDB_Set (stored node) db1)) = dbNodes db1 /\
  dbNodes (fst (mapDB_Set node db1)) = dbNodes db1 /\
  setCount (fst (mapDB_Set node db1)) = i64 (i64 (setCount db + 1) + 1) /\
  snd (mapDB_Set node db) = None.
Proof.
  cbv zeta. unfold mapDB_Get, mapDB_Set. cbn [fst snd dbNodes setCount].
  split; [rewrite lookup_insert_eq; reflexivity |].
  split; [reflexivity |]. split; [reflexivity |]. split; [reflexivity |].
  split; [reflexivity |].
  split; [destruct node as [[] ?]; reflexivity |].
  split; [intros nk Hne; rewrite lookup_insert_ne by congruence; reflexivity |].
  split.
  { change (nodeKey (theNode (stored node))) with (nodeKey (theNode node)).
    change (stored (stored node)) with (stored node).
    apply insert_insert_eq. }
  split; [apply insert_insert_eq |]. split; reflexivity.
Qed.

(** X21.  A key that [mapDB] does not hold is not an error: [Get] returns a
    nil node and a nil error, on a new store and after [Delete] of the key.
    [Delete] leaves the entries under other keys as they are and counts every
    call, also when the key was not there, in which case the entries are
    unchanged; a node stored and then deleted leaves the entries of a store
    that did not hold its key as they were. *)
Theorem mapDB_Get_of_a_missing_key (nk : NodeKey) (node : framedNode) (db : mapDB) :
  mapDB_Get nk newMapDB = (None, None) /\
  mapDB_Get nk (fst (mapDB_Delete nk db)) = (None, None) /\
  (forall nk', nk' <> nk ->
     mapDB_Get nk' (fst (mapDB_Delete nk db)) = mapDB_Get nk' db) /\
  deleteCount (fst (mapDB_Delete nk db)) = i64 (deleteCount db + 1) /\
  snd (mapDB_Delete nk db) = None /\
  (fst (mapDB_Get nk db) = None -> dbNodes (fst (mapDB_Delete nk db)) = dbNodes db) /\
  (fst (mapDB_Get (nodeKey (theNode node)) db) = None ->
   dbNodes (fst (mapDB_Delete (nodeKey (theNode node)) (fst (mapDB_Set node db))))
   = dbNodes db).
Proof.
  unfold mapDB_Get, mapDB_Delete, mapDB_Set, newMapDB. cbn [fst snd dbNodes deleteCount].
  split; [rewrite lookup_empty; reflexivity |].
  split; [rewrite lookup_delete_eq; reflexivity |].
  split; [intros nk' Hne; rewrite lookup_delete_ne by congruence; reflexivity |].
  split; [reflexivity |]. split; [reflexivity |].
  split; [intros H; apply delete_id; exact H |].
  intros H. rewrite delete_insert_eq. apply delete_id. exact H.
Qed.

(** ** What a checkpoint collects *)

(** The nodes of a subtree that is resident in memory, the node before its
    left subtree before its right subtree. *)
Fixpoint nodeList (n : Node) : list Node :=
  match n with
  | mkNode _ _ _ _ _ _ _ ht _ _ _ l r =>
      if Z.eqb ht 0 then [n]
      else
        n :: match l, r with
             | Some l', Some r' => nodeList l' ++ nodeList r'
             | _, _ => []
             end
  end.

Lemma nodeList_eq (n : Node) :
  nodeList n =
  if isLeaf n then [n]
  else n :: match leftNode n, rightNode n with
            | Some l, Some r => nodeList l ++ nodeList r
            | _, _ => []
            end.
Proof. destruct n; reflexivity. Qed.

(** [c] is the copy that [buildCheckpoint] makes of [m] in a reset node of
    the pool. *)
Definition isCopy (m c : Node) : Prop :=
  nodeKey c = nodeKey m /\ key c = key m /\ hash c = hash m /\
  subtreeHeight c = subtreeHeight m /\ size c = size m /\
  leftNodeKey c = leftNodeKey m /\ rightNodeKey c = rightNodeKey m /\
  leftNode c = None /\ rightNode c = None /\ value c = None /\ dirty c = false.

(** The node that [buildCheckpoint] leaves in the tree. *)
Definition detached (n : Node) : Node :=
  if isLeaf n then set_dirty false n
  else set_rightNode None (set_leftNode None (set_dirty false n)).

Lemma Get_pop (env : Env) (p : nodePool) (id : nat) (rest : list nat) :
  pool_ok p -> free p = id :: rest ->
  exists n,
    wasReset n /\
    Get env p = Ok (n, mkPool rest (nodes p) (poolSize p)) /\
    pool_ok (mkPool rest (nodes p) (poolSize p)).
Proof.
  intros Hok Hf. unfold pool_ok in Hok. rewrite Hf in Hok.
  apply Forall_cons in Hok as [(n & Hn & Hr) Hrest].
  exists n. split; [exact Hr |]. split; [| exact Hrest].
  unfold Get. rewrite Hf. cbn [length Nat.eqb rbind]. rewrite Hf, Hn.
  destruct Hr as (_ & _ & _ & _ & _ & Hh & _). rewrite Hh. reflexivity.
Qed.

Lemma nodeList_length (lo hi : option slice) (n : Node) :
  wf lo hi n ->
  Z.of_nat (length (nodeList n)) = 2 * Z.of_nat (length (leafList n)) - 1.
Proof.
  induction 1 as [lo hi n Hleaf Ha Hb | lo hi n l r El Er Wl IHl Wr IHr Hh].
  - rewrite nodeList_eq, leafList_eq, Hleaf. reflexivity.
  - pose proof (wf_height _ _ _ Wl). pose proof (wf_height _ _ _ Wr).
    rewrite nodeList_eq, (wf_inner_not_leaf _ _ _ _ _ Wl Wr Hh), El, Er.
    rewrite (leafList_inner n l r El Er) by lia.
    cbn [length]. rewrite !length_app. lia.
Qed.

Lemma buildCheckpoint_ok (env : Env) (lo hi : option slice) (node : Node) :
  wf lo hi node ->
  forall args t,
    Forall (fun m => lastCheckpoint t < Version (nodeKey m)) (nodeList node) ->
    pool_ok (pool t) ->
    (length (nodeList node) <= length (free (pool t)))%nat ->
    exists copies p',
      buildCheckpoint env node args t =
        Ok ((detached node,
             mkArgs (argsSet args ++ copies) (argsDelete args) (argsVersion args)),
            set_pool p' t) /\
      Forall2 isCopy (nodeList node) copies /\
      pool_ok p' /\
      free p' = drop (length (nodeList node)) (free (pool t)).
Proof.
  induction 1 as [lo hi n Hleaf Ha Hb | lo hi n l r El Er Wl IHl Wr IHr Hh];
    intros args t Hnew Hok Hlen; rewrite nodeList_eq in Hnew, Hlen |- *.
  - rewrite Hleaf in *. apply Forall_cons in Hnew as [Hn _].
    destruct (free (pool t)) as [|id rest] eqn:Hf; [simpl in Hlen; lia |].
    destruct (Get_pop env (pool t) id rest Hok Hf) as (n0 & Hr & HG & Hok').
    rewrite buildCheckpoint_eq. unfold gets at 1. unfold bind at 1.
    rewrite (proj2 (Z.leb_gt _ _) Hn). cbv zeta.
    assert (EG : onPool (Get env) t = Ok (n0, set_pool (mkPool rest (nodes (pool t)) (poolSize (pool t))) t)).
    { unfold onPool. rewrite HG. reflexivity. }
    rewrite (bind_eq _ _ _ EG).
    change (isLeaf (set_dirty false n)) with (isLeaf n). rewrite Hleaf.
    eexists. eexists. split.
    { unfold ret, detached. rewrite Hleaf. reflexivity. }
    split; [| split; [exact Hok' | reflexivity]].
    constructor; [| constructor].
    destruct Hr as (_ & _ & _ & Hl & Hrr & _ & _ & Hv & _ & _ & Hd).
    repeat split; try reflexivity; assumption.
  - pose proof (wf_inner_not_leaf _ _ _ _ _ Wl Wr Hh) as Hnl.
    rewrite Hnl, El, Er in *.
    apply Forall_cons in Hnew as [Hn Hnew]. apply Forall_app in Hnew as [Hnl' Hnr'].
    cbn [length] in Hlen. rewrite length_app in Hlen.
    destruct (free (pool t)) as [|id rest] eqn:Hf; [simpl in Hlen; lia |].
    destruct (Get_pop env (pool t) id rest Hok Hf) as (n0 & Hr & HG & Hok').
    rewrite buildCheckpoint_eq. unfold gets at 1. unfold bind at 1.
    rewrite (proj2 (Z.leb_gt _ _) Hn). cbv zeta.
    set (t1 := set_pool (mkPool rest (nodes (pool t)) (poolSize (pool t))) t).
    assert (EG : onPool (Get env) t = Ok (n0, t1)).
    { unfold onPool. rewrite HG. reflexivity. }
    rewrite (bind_eq _ _ _ EG).
    change (isLeaf (set_dirty false n)) with (isLeaf n). rewrite Hnl.
    change (leftNode (set_dirty false n)) with (leftNode n).
    change (rightNode (set_dirty false n)) with (rightNode n).
    rewrite El, Er.
    match goal with
    | |- context [mkArgs (argsSet args ++ [?c]) _ _] => set (c0 := c)
    end.
    destruct (IHl (mkArgs (argsSet args ++ [c0]) (argsDelete args) (argsVersion args)) t1)
      as (cl & p1 & El1 & Cl & Ok1 & F1).
    { exact Hnl'. } { exact Hok'. } { simpl in Hlen |- *. lia. }
    rewrite (bind_eq _ _ _ (bind_eq _ _ _ El1)).
    unfold ret at 1. cbv beta. cbn [snd argsSet argsDelete argsVersion].
    destruct (IHr (mkArgs ((argsSet args ++ [c0]) ++ cl) (argsDelete args) (argsVersion args))
                  (set_pool p1 t1))
      as (cr & p2 & Er1 & Cr & Ok2 & F2).
    { exact Hnr'. } { exact Ok1. }
    { cbn [pool set_pool]. rewrite F1. unfold t1. cbn [pool set_pool free].
      rewrite length_drop. simpl in Hlen. lia. }
    cbn [argsSet argsDelete argsVersion] in Er1.
    rewrite (bind_eq _ _ _ (bind_eq _ _ _ Er1)).
    unfold ret. cbv beta. cbn [snd].
    exists (c0 :: cl ++ cr), p2. split.
    { unfold detached. rewrite Hnl.
      replace (((argsSet args ++ [c0]) ++ cl) ++ cr) with (argsSet args ++ c0 :: cl ++ cr)
        by (rewrite <- !app_assoc; reflexivity).
      reflexivity. }
    split.
    { constructor; [| apply Forall2_app; assumption].
      destruct Hr as (_ & _ & _ & Hl & Hrr & _ & _ & Hv & _ & _ & Hd).
      unfold c0. repeat split; try reflexivity; assumption. }
    split; [exact Ok2 |].
    rewrite F2. cbn [pool set_pool]. rewrite F1. unfold t1. cbn [pool set_pool free length].
    rewrite drop_drop. cbn [drop]. f_equal. rewrite length_app. lia.
Qed.


(** A tree with the keys "a" and "b" over a pool of eight slots. *)
Definition exPool8 : nodePool :=
  match grow exEnv 8 emptyPool with Ok p => p | _ => emptyPool end.
Definition exTreeW : Tree :=
  run exTree0 (Tree_Set exEnv (str "b") (str "2"))
    (run exTree0 (Tree_Set exEnv (str "a") (str "1")) (NewTree (Some okDb) exPool8)).
Definition exRootW : Node :=
  match root exTreeW with Some n => n | None => zeroNode end.

Lemma exRootW_wf : wf None None exRootW.
Proof.
  vm_compute.
  eapply wf_inner; [reflexivity | reflexivity | | | reflexivity].
  - apply wf_leaf; [reflexivity | exact I | reflexivity].
  - apply wf_leaf; [reflexivity | vm_compute; discriminate | exact I].
Qed.

Lemma exTreeW_pool_ok : pool_ok (pool exTreeW).
Proof.
  unfold pool_ok. vm_compute free.
  repeat constructor; eexists; (split; [vm_compute; reflexivity | repeat split]).
Qed.


(** ** Sizes, dirty flags, node keys and the working-set counter *)

Definition isLeafHash (h : option Digest) : Prop :=
  match h with Some (LeafDigest _ _ _ _ _) => True | _ => False end.

(** What the mutation engine keeps of every node it holds in memory while
    the version numbered [v] is being built: the node is dirty, a node with
    two children has the sum of their sizes as size, a node that carries the
    hash of a leaf has no children and size 1, and the node key is of
    version [v]. *)
Definition acct (v : Z) (m : Node) : Prop :=
  dirty m = true /\
  (forall l r, leftNode m = Some l -> rightNode m = Some r ->
               size m = i64 (size l + size r)) /\
  (isLeafHash (hash m) -> leftNode m = None /\ rightNode m = None /\ size m = 1) /\
  Version (nodeKey m) = v.

(** A node of height 0 has size 1 and no children. *)
Definition leafSz (m : Node) : Prop :=
  subtreeHeight m = 0 -> size m = 1 /\ leftNode m = None /\ rightNode m = None.

Definition kids (P : Node -> Prop) (m : Node) : Prop :=
  onChild (allNodes P) (leftNode m) /\ onChild (allNodes P) (rightNode m).

(** The working-set counter, the pool and the version are as before. *)
Definition sameWork (t t' : Tree) : Prop :=
  workingSize t' = workingSize t /\ pool t' = pool t /\ version t' = version t.

Lemma sameWork_refl (t : Tree) : sameWork t t.
Proof. repeat split. Qed.

Lemma sameWork_trans (a b c : Tree) : sameWork a b -> sameWork b c -> sameWork a c.
Proof. unfold sameWork. intros (? & ? & ?) (? & ? & ?). repeat split; congruence. Qed.

Lemma addOrphan_inv (n : Node) (t t' : Tree) (u : unit) :
  addOrphan n t = Ok (u, t') -> sameWork t t'.
Proof.
  unfold addOrphan. destruct (hash n); intros H; inv_ok H; repeat split.
Qed.

Lemma mutateNode_inv (env : Env) (n n' : Node) (t t' : Tree) :
  mutateNode env n t = Ok (n', t') -> dirty n = true ->
  sameData n n' /\ dirty n' = true /\ hash n' = None /\ sameWork t t' /\
  (Version (nodeKey n) = i64 (version t + 1) ->
   Version (nodeKey n') = i64 (version t + 1)).
Proof.
  unfold mutateNode. intros H Hd. destruct (hash n) eqn:Hh.
  - unfold nextNodeKey, bind, modify, gets, ret in H. cbn in H. rewrite Hd in H.
    inversion H; subst; clear H.
    split; [repeat split |]. split; [exact Hd |]. split; [reflexivity |].
    split; [repeat split | intros _; reflexivity].
  - inv_ok H.
    split; [repeat split |]. split; [exact Hd |]. split; [exact Hh |].
    split; [repeat split | intros Hn; exact Hn].
Qed.

Lemma allNodes_kids (P : Node -> Prop) (n : Node) :
  allNodes P n -> P n /\ kids P n.
Proof. rewrite allNodes_eq. unfold kids. tauto. Qed.

Lemma kids_same (P : Node -> Prop) (n n' : Node) :
  sameData n n' -> kids P n -> kids P n'.
Proof.
  intros (_ & _ & _ & _ & Dl & Dr & _). unfold kids. rewrite Dl, Dr. tauto.
Qed.

Lemma calc_inv (v : Z) (n n' : Node) :
  calcHeightAndSize n = Ok n' ->
  dirty n = true -> hash n = None -> Version (nodeKey n) = v -> kids (acct v) n ->
  allNodes (acct v) n' /\ leftNode n' = leftNode n /\ rightNode n' = rightNode n /\
  hash n' = None /\ dirty n' = true.
Proof.
  unfold calcHeightAndSize, Node_left, Node_right, kids.
  intros H Hd Hh Hnk [Kl Kr].
  destruct (leftNode n) as [l|] eqn:El; [| discriminate].
  destruct (rightNode n) as [r|] eqn:Er; [| discriminate].
  simpl in H. inversion H; subst; clear H.
  split; [| repeat split; assumption].
  rewrite allNodes_eq. cbn. rewrite El, Er. split; [| split; assumption].
  split; [exact Hd |]. split; [| split; [| reflexivity]].
  - intros l0 r0 E1 E2. cbn in E1, E2. rewrite El in E1. rewrite Er in E2.
    inversion E1; inversion E2; subst. reflexivity.
  - cbn. rewrite Hh. simpl. tauto.
Qed.

Lemma Node_left_inv (n l : Node) (t t' : Tree) :
  liftR (Node_left n) t = Ok (l, t') -> leftNode n = Some l /\ t' = t.
Proof.
  intros H. apply liftR_Ok in H as [H ->]. unfold Node_left in H.
  destruct (leftNode n); inversion H. split; reflexivity.
Qed.

Lemma Node_right_inv (n r : Node) (t t' : Tree) :
  liftR (Node_right n) t = Ok (r, t') -> rightNode n = Some r /\ t' = t.
Proof.
  intros H. apply liftR_Ok in H as [H ->]. unfold Node_right in H.
  destruct (rightNode n); inversion H. split; reflexivity.
Qed.

(** [addOrphan] and then [mutateNode] on a dirty node of version [v]. *)
Lemma touch_inv (env : Env) (v : Z) (n n1 : Node) (t t1 t2 : Tree) (u : unit) :
  addOrphan n t = Ok (u, t1) -> mutateNode env n t1 = Ok (n1, t2) ->
  i64 (version t + 1) = v -> dirty n = true -> Version (nodeKey n) = v ->
  sameData n n1 /\ dirty n1 = true /\ hash n1 = None /\
  Version (nodeKey n1) = v /\ sameWork t t2 /\ i64 (version t2 + 1) = v.
Proof.
  intros Ho Hm Hv Hd Hnk.
  apply addOrphan_inv in Ho. pose proof Ho as (_ & _ & Vo).
  apply mutateNode_inv in Hm as (D & Hd1 & Hh1 & W1 & N1); [| exact Hd].
  split; [exact D |]. split; [exact Hd1 |]. split; [exact Hh1 |].
  rewrite Vo, Hv in N1. split; [exact (N1 Hnk) |].
  pose proof (sameWork_trans _ _ _ Ho W1) as W.
  split; [exact W |]. destruct W as (_ & _ & V). rewrite V. exact Hv.
Qed.

Lemma rotateRight_inv (env : Env) (v : Z) (n res : Node) (t t' : Tree) :
  rotateRight env n t = Ok (res, t') ->
  i64 (version t + 1) = v -> dirty n = true -> Version (nodeKey n) = v ->
  kids (acct v) n ->
  allNodes (acct v) res /\ sameWork t t'.
Proof.
  unfold rotateRight. intros H Hv Hd Hnk [Kl Kr].
  inv_bind H as u1 t1 H1. inv_bind H as n1 t2 H2.
  destruct (touch_inv env v n n1 t t1 t2 u1 H1 H2 Hv Hd Hnk)
    as (D2 & Hd2 & Hh2 & Hn2 & W2 & Hv2).
  inv_bind H as l t3 H3. apply Node_left_inv in H3 as [El ->].
  assert (El0 : leftNode n = Some l) by (destruct D2 as (_ & _ & _ & _ & Dl & _); congruence).
  rewrite El0 in Kl. simpl in Kl. apply allNodes_kids in Kl as [(Ld & _ & _ & Ln) Kk].
  inv_bind H as u2 t4 H4. inv_bind H as l1 t5 H5.
  destruct (touch_inv env v l l1 t2 t4 t5 u2 H4 H5 Hv2 Ld Ln)
    as (D5 & Hd5 & Hh5 & Hn5 & W5 & _).
  inv_bind H as inner t6 H6. apply Node_right_inv in H6 as [Eri ->].
  inv_bind H as n2 t7 H7. apply liftR_Ok in H7 as [H7 ->].
  apply liftR_Ok in H as [H ->].
  pose proof (kids_same _ _ _ D5 Kk) as [K5l K5r].
  rewrite Eri in K5r. simpl in K5r.
  apply (calc_inv v) in H7 as (A7 & _ & _ & Hh7 & Hd7);
    [| exact Hd2 | exact Hh2 | exact Hn2 |].
  2:{ split; [exact K5r |]. cbn. destruct D2 as (_ & _ & _ & _ & _ & Dr & _).
      rewrite Dr. exact Kr. }
  apply (calc_inv v) in H as (A & _); [| exact Hd5 | exact Hh5 | exact Hn5 |].
  2:{ split; [exact K5l | exact A7]. }
  split; [exact A | exact (sameWork_trans _ _ _ W2 W5)].
Qed.

Lemma rotateLeft_inv (env : Env) (v : Z) (n res : Node) (t t' : Tree) :
  rotateLeft env n t = Ok (res, t') ->
  i64 (version t + 1) = v -> dirty n = true -> Version (nodeKey n) = v ->
  kids (acct v) n ->
  allNodes (acct v) res /\ sameWork t t'.
Proof.
  unfold rotateLeft. intros H Hv Hd Hnk [Kl Kr].
  inv_bind H as u1 t1 H1. inv_bind H as n1 t2 H2.
  destruct (touch_inv env v n n1 t t1 t2 u1 H1 H2 Hv Hd Hnk)
    as (D2 & Hd2 & Hh2 & Hn2 & W2 & Hv2).
  inv_bind H as r t3 H3. apply Node_right_inv in H3 as [Er ->].
  assert (Er0 : rightNode n = Some r) by (destruct D2 as (_ & _ & _ & _ & _ & Dr & _); congruence).
  rewrite Er0 in Kr. simpl in Kr. apply allNodes_kids in Kr as [(Rd & _ & _ & Rn) Kk].
  inv_bind H as u2 t4 H4. inv_bind H as r1 t5 H5.
  destruct (touch_inv env v r r1 t2 t4 t5 u2 H4 H5 Hv2 Rd Rn)
    as (D5 & Hd5 & Hh5 & Hn5 & W5 & _).
  inv_bind H as inner t6 H6. apply Node_left_inv in H6 as [Eli ->].
  inv_bind H as n2 t7 H7. apply liftR_Ok in H7 as [H7 ->].
  apply liftR_Ok in H as [H ->].
  pose proof (kids_same _ _ _ D5 Kk) as [K5l K5r].
  rewrite Eli in K5l. simpl in K5l.
  apply (calc_inv v) in H7 as (A7 & _ & _ & Hh7 & Hd7);
    [| exact Hd2 | exact Hh2 | exact Hn2 |].
  2:{ split; [| exact K5l]. cbn. destruct D2 as (_ & _ & _ & _ & Dl & _ & _).
      rewrite Dl. exact Kl. }
  apply (calc_inv v) in H as (A & _); [| exact Hd5 | exact Hh5 | exact Hn5 |].
  2:{ split; [exact A7 | exact K5r]. }
  split; [exact A | exact (sameWork_trans _ _ _ W2 W5)].
Qed.

Lemma balance_inv (env : Env) (v : Z) (n res : Node) (t t' : Tree) :
  balance env n t = Ok (res, t') ->
  i64 (version t + 1) = v -> allNodes (acct v) n ->
  allNodes (acct v) res /\ sameWork t t'.
Proof.
  unfold balance. intros H Hv A.
  pose proof (allNodes_kids _ _ A) as [(Hd & _ & _ & Hnk) [Kl Kr]].
  inv_bind H as bf t1 H1. apply liftR_Ok in H1 as [_ ->].
  destruct (bf >? 1).
  - inv_bind H as l t2 H2. apply Node_left_inv in H2 as [El ->].
    inv_bind H as lbf t3 H3. apply liftR_Ok in H3 as [_ ->].
    destruct (lbf >=? 0).
    + apply (rotateRight_inv env v) in H;
        [exact H | exact Hv | exact Hd | exact Hnk | split; assumption].
    + inv_bind H as l' t4 H4.
      rewrite El in Kl. simpl in Kl.
      pose proof (allNodes_kids _ _ Kl) as [(Ld & _ & _ & Ln) Kk].
      apply (rotateLeft_inv env v) in H4 as [A4 W4];
        [| exact Hv | exact Ld | exact Ln | exact Kk].
      assert (Hv4 : i64 (version t4 + 1) = v)
        by (destruct W4 as (_ & _ & V4); rewrite V4; exact Hv).
      apply (rotateRight_inv env v) in H as [A5 W5];
        [| exact Hv4 | exact Hd | exact Hnk | split; [exact A4 | exact Kr]].
      split; [exact A5 | exact (sameWork_trans _ _ _ W4 W5)].
  - destruct (bf <? -1).
    + inv_bind H as r t2 H2. apply Node_right_inv in H2 as [Er ->].
      inv_bind H as rbf t3 H3. apply liftR_Ok in H3 as [_ ->].
      destruct (rbf <=? 0).
      * apply (rotateLeft_inv env v) in H;
          [exact H | exact Hv | exact Hd | exact Hnk | split; assumption].
      * inv_bind H as r' t4 H4.
        rewrite Er in Kr. simpl in Kr.
        pose proof (allNodes_kids _ _ Kr) as [(Rd & _ & _ & Rn) Kk].
        apply (rotateRight_inv env v) in H4 as [A4 W4];
          [| exact Hv | exact Rd | exact Rn | exact Kk].
        assert (Hv4 : i64 (version t4 + 1) = v)
          by (destruct W4 as (_ & _ & V4); rewrite V4; exact Hv).
        apply (rotateLeft_inv env v) in H as [A5 W5];
          [| exact Hv4 | exact Hd | exact Hnk | split; [exact Kl | exact A4]].
        split; [exact A5 | exact (sameWork_trans _ _ _ W4 W5)].
    + inv_ok H. split; [exact A | apply sameWork_refl].
Qed.

Lemma tail_inv (env : Env) (v : Z) (k : slice) (node : Node) (upd : bool) (t t' : Tree)
    (res : option Node * bool * option error) :
  recursiveSetTail env k node upd t = Ok (res, t') ->
  i64 (version t + 1) = v ->
  dirty node = true -> hash node = None -> Version (nodeKey node) = v ->
  kids (acct v) node ->
  (upd = true -> acct v node) ->
  exists n', res = (Some n', upd, None) /\ allNodes (acct v) n' /\ sameWork t t' /\
             (upd = true -> size n' = size node).
Proof.
  unfold recursiveSetTail. intros H Hv Hd Hh Hnk K Hu. destruct upd.
  - inv_ok H. exists node. split; [reflexivity |].
    split; [rewrite allNodes_eq; split; [apply Hu; reflexivity | exact K] |].
    split; [apply sameWork_refl | reflexivity].
  - cbv zeta in H. inv_bind H as n2 t1 Hc. apply liftR_Ok in Hc as [Hc ->].
    apply (calc_inv v) in Hc as (A & _).
    + inv_bind H as n3 t2 Hb. apply (balance_inv env v) in Hb as [A3 W3];
        [| exact Hv | exact A].
      inv_ok H. exists n3. split; [reflexivity |]. split; [exact A3 |].
      split; [exact W3 | discriminate].
    + destruct (HasPrefix k (sortKey node)); [destruct (Compare k (key node)) |]; exact Hd.
    + destruct (HasPrefix k (sortKey node)); [destruct (Compare k (key node)) |]; exact Hh.
    + destruct (HasPrefix k (sortKey node)); [destruct (Compare k (key node)) |]; exact Hnk.
    + destruct (HasPrefix k (sortKey node)); [destruct (Compare k (key node)) |]; exact K.
Qed.

Lemma Get_reset_inv (env : Env) (n : Z) (t t' : Tree) (nd : Node) :
  0 <= n -> poolFits (n + 1) (pool t) ->
  onPool (Get env) t = Ok (nd, t') ->
  wasReset nd /\ poolFits n (pool t') /\ workingSize t' = workingSize t /\
  version t' = version t.
Proof.
  intros Hn Hp H. destruct (Get_fits env n (pool t) Hn Hp) as (nd' & p' & HG & Hr & Hp').
  unfold onPool in H. rewrite HG in H. simpl in H. inversion H; subst.
  split; [exact Hr |]. split; [exact Hp' |]. split; reflexivity.
Qed.

Lemma NewNode_inv (env : Env) (k v : slice) (ver n : Z) (t t' : Tree) (lf : Node) :
  0 <= n -> poolFits (n + 1) (pool t) ->
  NewNode env k v ver t = Ok (lf, t') ->
  poolFits n (pool t') /\
  dirty lf = true /\ size lf = 1 /\ leftNode lf = None /\ rightNode lf = None /\
  subtreeHeight lf = 0 /\ isLeafHash (hash lf) /\
  Version (nodeKey lf) = i64 (version t + 1) /\
  workingSize t' = i64 (workingSize t + 1) /\ version t' = version t.
Proof.
  intros Hn Hp H. destruct (Get_fits env n (pool t) Hn Hp) as (nd & p' & HG & Hr & Hp').
  rewrite (NewNode_exact env k v ver t nd p' HG) in H. inversion H; subst; clear H.
  destruct Hr as (_ & _ & _ & Hl & Hrr & _).
  split; [exact Hp' |]. repeat split; assumption.
Qed.

Lemma acct_bare (v : Z) (lf : Node) :
  dirty lf = true -> size lf = 1 -> leftNode lf = None -> rightNode lf = None ->
  Version (nodeKey lf) = v ->
  allNodes (acct v) lf.
Proof.
  intros Hd Hs Hl Hr Hnk. rewrite allNodes_eq, Hl, Hr. split; [| split; exact I].
  split; [exact Hd |]. split; [intros l r E; congruence |].
  split; [intros _; repeat split; assumption | exact Hnk].
Qed.

(** What [recursiveSet] does to the sizes, the dirty flags, the node keys and
    the counter of the working set: a new key adds two nodes, an update
    none. *)
Lemma recursiveSet_acct (env : Env) (v : Z) (k val : slice) (node : Node) :
  forall t res t',
    recursiveSet env node k val t = Ok (res, t') ->
    i64 (version t + 1) = v ->
    allNodes (acct v) node -> allNodes leafSz node -> poolFits 2 (pool t) ->
    exists node' upd,
      res = (Some node', upd, None) /\ allNodes (acct v) node' /\
      workingSize t' = (if upd then workingSize t else i64 (workingSize t + 2)) /\
      (upd = true -> size node' = size node) /\
      version t' = version t.
Proof.
  induction node as [node IHl IHr] using Node_children_ind.
  intros t res t' H Hv A L Hp. subst v. rewrite recursiveSet_eq in H.
  pose proof (allNodes_kids _ _ A) as [(Hd & Hsz & Hlh & Hnk) [Kl Kr]].
  pose proof (allNodes_kids _ _ L) as [Lz [Ll Lr]].
  assert (Split : forall t0 res0 t0' (leafFirst : bool) (keyOf : slice),
    pool t0 = pool t -> workingSize t0 = workingSize t -> version t0 = version t ->
    size node = 1 ->
    (let* parent := onPool (Get env) in
     let* nk := nextNodeKey in
     let parent := set_nodeKey nk parent in
     let parent := set_sortKey (MinRightToken env k (key node)) parent in
     let parent := set_key keyOf parent in
     let parent := set_subtreeHeight 1 parent in
     let parent := set_size 2 parent in
     let parent := set_dirty true parent in
     let* ver := gets version in
     let* leaf := NewNode env k val ver in
     let parent := if leafFirst then setRight node (setLeft leaf parent)
                   else setRight leaf (setLeft node parent) in
     let* _ := addWorkingBytes (sizeBytes env parent) in
     let* _ := addWorkingSize 1 in
     ret (Some parent, false, @None error)) t0 = Ok (res0, t0') ->
    exists node' upd,
      res0 = (Some node', upd, None) /\ allNodes (acct (i64 (version t + 1))) node' /\
      workingSize t0' = (if upd then workingSize t else i64 (workingSize t + 2)) /\
      (upd = true -> size node' = size node) /\
      version t0' = version t).
  { intros t0 res0 t0' leafFirst keyOf E0 W0 V0 Hs1 H0.
    inv_bind H0 as parent t1 HG.
    apply (Get_reset_inv env 1) in HG as (Hr & HG & W1 & V1);
      [| lia | rewrite E0; exact Hp].
    inv_bind H0 as nk t2 Hk.
    unfold nextNodeKey in Hk. inv_bind Hk as u0 t20 Hk0. inv_ok Hk0.
    inv_bind Hk as v1 t21 Hk1. inv_ok Hk1. inv_bind Hk as s1 t22 Hk2. inv_ok Hk2. inv_ok Hk.
    inv_bind H0 as ver t3 Hver. inv_ok Hver.
    inv_bind H0 as leaf t4 HN.
    apply (NewNode_inv env k val _ 0) in HN
      as (_ & Nd & Ns & Nl & Nr & Nh & Nlh & Nnk & NW & NV); [| lia | exact HG].
    cbn [version set_sequence] in Nnk, NV. rewrite V1, V0 in Nnk.
    cbv zeta in H0.
    inv_bind H0 as u1 t5 Hb. unfold addWorkingBytes in Hb. inv_ok Hb.
    inv_bind H0 as u2 t6 Hs. unfold addWorkingSize in Hs. inv_ok Hs.
    inv_ok H0. eexists. exists false. split; [reflexivity |].
    destruct Hr as (_ & _ & _ & _ & _ & Hph & _).
    pose proof (acct_bare _ leaf Nd Ns Nl Nr Nnk) as Aleaf.
    assert (Hpk : i64 (version t1 + 1) = i64 (version t + 1)) by (rewrite V1, V0; reflexivity).
    split; [| split; [| split; [discriminate |]]].
    - rewrite allNodes_eq. destruct leafFirst; cbn.
      + split; [| split; [exact Aleaf | exact A]].
        split; [reflexivity |]. split; [| split; [| exact Hpk]].
        * intros l0 r0 E1 E2. inversion E1; inversion E2; subst.
          rewrite Ns, Hs1. reflexivity.
        * cbn. rewrite Hph. simpl. tauto.
      + split; [| split; [exact A | exact Aleaf]].
        split; [reflexivity |]. split; [| split; [| exact Hpk]].
        * intros l0 r0 E1 E2. inversion E1; inversion E2; subst.
          rewrite Ns, Hs1. reflexivity.
        * cbn. rewrite Hph. simpl. tauto.
    - cbn. rewrite NW. cbn. rewrite W1, W0. rewrite i64_add_l. f_equal. lia.
    - cbn. rewrite NV, V1, V0. reflexivity. }
  destruct (isLeaf node) eqn:Hleaf.
  - assert (Hh0 : subtreeHeight node = 0) by (apply Z.eqb_eq; exact Hleaf).
    destruct (Lz Hh0) as (Hs1 & Hl0 & Hr0).
    destruct (Compare k (key node)).
    + inv_bind H as n1 t1 Hm.
      apply mutateNode_inv in Hm as (D1 & Hd1 & _ & (W1 & _ & V1) & N1); [| exact Hd].
      cbv zeta in H. inv_bind H as ver t2 Hver. inv_ok Hver. inv_ok H.
      destruct D1 as (_ & _ & Dh & Ds & Dl & Dr & _).
      eexists. exists true. split; [reflexivity |].
      split; [| split; [exact W1 | split; [intros _; cbn; exact Ds | exact V1]]].
      apply acct_bare; cbn; try congruence.
      exact (N1 Hnk).
    + inv_bind H as u t1 Hmet. inv_ok Hmet.
      apply (Split _ res t' true (key node)) in H;
        [exact H | reflexivity | reflexivity | reflexivity | exact Hs1].
    + inv_bind H as u t1 Hmet. inv_ok Hmet.
      apply (Split _ res t' false k) in H;
        [exact H | reflexivity | reflexivity | reflexivity | exact Hs1].
  - clear Split.
    inv_bind H as u t1 Ho. inv_bind H as node1 t2 Hm.
    destruct (touch_inv env _ node node1 t t1 t2 u Ho Hm eq_refl Hd Hnk)
      as (D1 & Hd1 & Hh1 & Hn1 & (W2 & P2 & V2) & Hv2).
    destruct D1 as (_ & _ & _ & Ds & Dl & Dr & _).
    assert (Tail : forall (left : bool) (c child : Node) upd tA resA,
      (if left then leftNode node else rightNode node) = Some c ->
      allNodes (acct (i64 (version t + 1))) child ->
      (upd = true -> size child = size c) ->
      workingSize tA = (if upd then workingSize t else i64 (workingSize t + 2)) ->
      version tA = version t ->
      recursiveSetTail env k
        (if left then setLeft child node1 else setRight child node1) upd tA
        = Ok (resA, t') ->
      exists node' upd',
        resA = (Some node', upd', None) /\ allNodes (acct (i64 (version t + 1))) node' /\
        workingSize t' = (if upd' then workingSize t else i64 (workingSize t + 2)) /\
        (upd' = true -> size node' = size node) /\
        version t' = version t).
    { intros left c child upd tA resA Ec Ac Hsame WA VA HT.
      apply (tail_inv env (i64 (version t + 1))) in HT
        as (n' & -> & An & (Wn & _ & Vn) & Hn).
      - exists n', upd. split; [reflexivity |]. split; [exact An |].
        split; [rewrite Wn; exact WA |].
        split; [| rewrite Vn; exact VA].
        intros Hu. rewrite (Hn Hu). destruct left; cbn; exact Ds.
      - rewrite VA. reflexivity.
      - destruct left; exact Hd1.
      - destruct left; exact Hh1.
      - destruct left; exact Hn1.
      - destruct left; split; cbn.
        + exact Ac.
        + rewrite Dr. exact Kr.
        + rewrite Dl. exact Kl.
        + exact Ac.
      - intros Hu. destruct left.
        + split; [exact Hd1 |]. split; [| split; [| exact Hn1]].
          * intros l0 r0 E1 E2. cbn in E1, E2. injection E1 as <-. rewrite Dr in E2.
            cbn. rewrite Ds, (Hsame Hu). apply Hsz; assumption.
          * cbn. rewrite Hh1. simpl. tauto.
        + split; [exact Hd1 |]. split; [| split; [| exact Hn1]].
          * intros l0 r0 E1 E2. cbn in E1, E2. injection E2 as <-. rewrite Dl in E1.
            cbn. rewrite Ds, (Hsame Hu). apply Hsz; assumption.
          * cbn. rewrite Hh1. simpl. tauto. }
    assert (Hp2 : poolFits 2 (pool t2)) by (rewrite P2; exact Hp).
    destruct (Compare k (key node1)).
    + destruct (rightNode node) as [r|] eqn:Er; [| inv_ok H; discriminate].
      simpl in IHr, Kr, Lr. inv_bind H as resr t3 Hr.
      apply IHr in Hr as (c & upd & -> & Ac & Wc & Sc & Vc);
        [| exact Hv2 | exact Kr | exact Lr | exact Hp2].
      rewrite W2 in Wc. rewrite V2 in Vc.
      exact (Tail false r c upd t3 res eq_refl Ac Sc Wc Vc H).
    + destruct (leftNode node) as [l|] eqn:El; [| inv_ok H; discriminate].
      simpl in IHl, Kl, Ll. inv_bind H as resl t3 Hl.
      apply IHl in Hl as (c & upd & -> & Ac & Wc & Sc & Vc);
        [| exact Hv2 | exact Kl | exact Ll | exact Hp2].
      rewrite W2 in Wc. rewrite V2 in Vc.
      exact (Tail true l c upd t3 res eq_refl Ac Sc Wc Vc H).
    + destruct (rightNode node) as [r|] eqn:Er; [| inv_ok H; discriminate].
      simpl in IHr, Kr, Lr. inv_bind H as resr t3 Hr.
      apply IHr in Hr as (c & upd & -> & Ac & Wc & Sc & Vc);
        [| exact Hv2 | exact Kr | exact Lr | exact Hp2].
      rewrite W2 in Wc. rewrite V2 in Vc.
      exact (Tail false r c upd t3 res eq_refl Ac Sc Wc Vc H).
Qed.

Lemma returnNode_inv (env : Env) (node n' : Node) (t t' : Tree) :
  returnNode env node t = Ok (n', t') -> dirty node = true ->
  workingSize t' = i64 (workingSize t + -1) /\ version t' = version t.
Proof.
  unfold returnNode. intros H Hd. rewrite Hd in H.
  inv_bind H as u t1 H1. inv_bind H1 as u0 t0 H0.
  unfold addWorkingBytes in H0. inv_ok H0.
  unfold addWorkingSize in H1. inv_ok H1.
  inv_bind H as u2 t2 H2. inv_ok H2.
  unfold onPool in H. apply rbind_Ok in H as ([nd p1] & HP & H).
  inversion H; subst; clear H. split; reflexivity.
Qed.

(** What [recursiveRemove] does to the sizes, the dirty flags, the node keys
    and the counter of the working set: a removal takes the leaf away and,
    unless the leaf was the whole subtree, its parent as well. *)
Lemma recursiveRemove_acct (env : Env) (v : Z) (k : slice) (node : Node) :
  forall t res t',
    recursiveRemove env node k t = Ok (res, t') ->
    i64 (version t + 1) = v ->
    allNodes (acct v) node ->
    exists newSelf newKey val removed,
      res = (newSelf, newKey, val, removed, None) /\
      version t' = version t /\
      (removed = false -> t' = t /\ newSelf = Some node) /\
      (removed = true ->
       match newSelf with
       | Some n' => allNodes (acct v) n' /\ workingSize t' = i64 (workingSize t + -2)
       | None => workingSize t' = i64 (workingSize t + -1)
       end).
Proof.
  induction node as [node IHl IHr] using Node_children_ind.
  intros t res t' H Hv A. subst v. rewrite recursiveRemove_eq in H.
  pose proof (allNodes_kids _ _ A) as [(Hd & Hsz & Hlh & Hnk) [Kl Kr]].
  assert (Two : forall a, i64 (i64 (a + -1) + -1) = i64 (a + -2)).
  { intros a. rewrite i64_add_l. f_equal. lia. }
  destruct (isLeaf node).
  - destruct (Equal k (key node)).
    + inv_bind H as n1 t1 Hret. inv_ok H.
      apply returnNode_inv in Hret as [Wr Vr]; [| exact Hd].
      eexists. eexists. eexists. exists true. split; [reflexivity |].
      split; [exact Vr |]. split; [discriminate | intros _; exact Wr].
    + inv_ok H. eexists. eexists. eexists. exists false. split; [reflexivity |].
      split; [reflexivity |].
      split; [intros _; split; reflexivity | discriminate].
  - assert (Rebuild : forall (side : Node -> Node) (t1 : Tree) (u : unit) (t2 : Tree)
        (n1 : Node) (t3 : Tree) (n4 n3 : Node) (tB : Tree),
      version t1 = version t -> workingSize t1 = i64 (workingSize t + -2) ->
      addOrphan node t1 = Ok (u, t2) -> mutateNode env node t2 = Ok (n1, t3) ->
      (forall m, dirty (side m) = dirty m /\ hash (side m) = hash m /\
                 Version (nodeKey (side m)) = Version (nodeKey m)) ->
      (sameData node n1 -> kids (acct (i64 (version t + 1))) (side n1)) ->
      liftR (calcHeightAndSize (side n1)) t3 = Ok (n4, t3) ->
      balance env n4 t3 = Ok (n3, tB) ->
      allNodes (acct (i64 (version t + 1))) n3 /\
      workingSize tB = i64 (workingSize t + -2) /\ version tB = version t).
    { intros side t1 u t2 n1 t3 n4 n3 tB V1 W1 Ho Hm Hside K2 Hc HB.
      assert (Hv1 : i64 (version t1 + 1) = i64 (version t + 1)) by (rewrite V1; reflexivity).
      destruct (touch_inv env _ node n1 t1 t2 t3 u Ho Hm Hv1 Hd Hnk)
        as (D1 & Hd1 & Hh1 & Hn1 & (W3 & _ & V3) & Hv3).
      destruct (Hside n1) as (Sd & Sh & Sn).
      apply liftR_Ok in Hc as [Hc _].
      apply (calc_inv (i64 (version t + 1))) in Hc as (A4 & _);
        [| rewrite Sd; exact Hd1 | rewrite Sh; exact Hh1 | rewrite Sn; exact Hn1
         | exact (K2 D1)].
      apply (balance_inv env (i64 (version t + 1))) in HB as [A3 (WB & _ & VB)];
        [| exact Hv3 | exact A4].
      split; [exact A3 |].
      split; [rewrite WB, W3; exact W1 | rewrite VB, V3; exact V1]. }
    destruct (Compare k (key node)).
    + destruct (rightNode node) as [r|] eqn:Er; [| inv_ok H; discriminate].
      simpl in IHr, Kr. inv_bind H as resr t1 Hr.
      apply IHr in Hr as (ns & nk & val & removed & -> & V1 & Hf & Ht);
        [| reflexivity | exact Kr].
      destruct removed; simpl in H.
      * specialize (Ht eq_refl). destruct ns as [newRight|].
        -- destruct Ht as [An Wn].
           inv_bind H as u t2 Ho. inv_bind H as n1 t3 Hm.
           cbv zeta in H. inv_bind H as n4 t4 Hc.
           pose proof Hc as Hc'. apply liftR_Ok in Hc' as [_ Et]. subst t4.
           inv_bind H as n3 t5 HB.
           destruct (Rebuild
                       (fun m => match nk with
                                 | Some _ => set_key nk (setRight newRight m)
                                 | None => setRight newRight m
                                 end)
                       t1 u t2 n1 t3 n4 n3 t5 V1 Wn Ho Hm) as (A3 & W3 & V3).
           ++ intros m. destruct nk; repeat split.
           ++ intros (_ & _ & _ & _ & Dl & _).
              destruct nk; (split; cbn; [rewrite Dl; exact Kl | exact An]).
           ++ exact Hc.
           ++ exact HB.
           ++ inv_ok H. eexists. eexists. eexists. exists true.
              split; [reflexivity |]. split; [exact V3 |]. split; [discriminate |].
              intros _. split; [exact A3 | exact W3].
        -- inv_bind H as left t2 Hl. apply Node_left_inv in Hl as [El ->].
           inv_bind H as n1 t3 Hret. inv_ok H.
           apply returnNode_inv in Hret as [Wr Vr]; [| exact Hd].
           eexists. eexists. eexists. exists true.
           split; [reflexivity |]. split; [rewrite Vr; exact V1 |].
           split; [discriminate |].
           intros _. rewrite El in Kl. split; [exact Kl |].
           rewrite Wr, Ht. apply Two.
      * inv_ok H. destruct (Hf eq_refl) as [-> _].
        eexists. eexists. eexists. exists false. split; [reflexivity |].
        split; [reflexivity |].
        split; [intros _; split; reflexivity | discriminate].
    + destruct (leftNode node) as [l|] eqn:El; [| inv_ok H; discriminate].
      simpl in IHl, Kl. inv_bind H as resl t1 Hl.
      apply IHl in Hl as (ns & nk & val & removed & -> & V1 & Hf & Ht);
        [| reflexivity | exact Kl].
      destruct removed; simpl in H.
      * specialize (Ht eq_refl). destruct ns as [newLeft|].
        -- destruct Ht as [An Wn].
           inv_bind H as u t2 Ho. inv_bind H as n1 t3 Hm.
           cbv zeta in H. inv_bind H as n4 t4 Hc.
           pose proof Hc as Hc'. apply liftR_Ok in Hc' as [_ Et]. subst t4.
           inv_bind H as n3 t5 HB.
           destruct (Rebuild (setLeft newLeft) t1 u t2 n1 t3 n4 n3 t5 V1 Wn Ho Hm)
             as (A3 & W3 & V3).
           ++ intros m. repeat split.
           ++ intros (_ & _ & _ & _ & _ & Dr & _).
              split; cbn; [exact An | rewrite Dr; exact Kr].
           ++ exact Hc.
           ++ exact HB.
           ++ inv_ok H. eexists. eexists. eexists. exists true.
              split; [reflexivity |]. split; [exact V3 |]. split; [discriminate |].
              intros _. split; [exact A3 | exact W3].
        -- inv_bind H as right t2 Hr. apply Node_right_inv in Hr as [Er ->].
           cbv zeta in H.
           inv_bind H as n1 t3 Hret. inv_ok H.
           apply returnNode_inv in Hret as [Wr Vr]; [| exact Hd].
           eexists. eexists. eexists. exists true.
           split; [reflexivity |]. split; [rewrite Vr; exact V1 |].
           split; [discriminate |].
           intros _. rewrite Er in Kr. split; [exact Kr |].
           rewrite Wr, Ht. apply Two.
      * inv_ok H. destruct (Hf eq_refl) as [-> _].
        eexists. eexists. eexists. exists false. split; [reflexivity |].
        split; [reflexivity |].
        split; [intros _; split; reflexivity | discriminate].
    + destruct (rightNode node) as [r|] eqn:Er; [| inv_ok H; discriminate].
      simpl in IHr, Kr. inv_bind H as resr t1 Hr.
      apply IHr in Hr as (ns & nk & val & removed & -> & V1 & Hf & Ht);
        [| reflexivity | exact Kr].
      destruct removed; simpl in H.
      * specialize (Ht eq_refl). destruct ns as [newRight|].
        -- destruct Ht as [An Wn].
           inv_bind H as u t2 Ho. inv_bind H as n1 t3 Hm.
           cbv zeta in H. inv_bind H as n4 t4 Hc.
           pose proof Hc as Hc'. apply liftR_Ok in Hc' as [_ Et]. subst t4.
           inv_bind H as n3 t5 HB.
           destruct (Rebuild
                       (fun m => match nk with
                                 | Some _ => set_key nk (setRight newRight m)
                                 | None => setRight newRight m
                                 end)
                       t1 u t2 n1 t3 n4 n3 t5 V1 Wn Ho Hm) as (A3 & W3 & V3).
           ++ intros m. destruct nk; repeat split.
           ++ intros (_ & _ & _ & _ & Dl & _).
              destruct nk; (split; cbn; [rewrite Dl; exact Kl | exact An]).
           ++ exact Hc.
           ++ exact HB.
           ++ inv_ok H. eexists. eexists. eexists. exists true.
              split; [reflexivity |]. split; [exact V3 |]. split; [discriminate |].
              intros _. split; [exact A3 | exact W3].
        -- inv_bind H as left t2 Hl. apply Node_left_inv in Hl as [El ->].
           inv_bind H as n1 t3 Hret. inv_ok H.
           apply returnNode_inv in Hret as [Wr Vr]; [| exact Hd].
           eexists. eexists. eexists. exists true.
           split; [reflexivity |]. split; [rewrite Vr; exact V1 |].
           split; [discriminate |].
           intros _. rewrite El in Kl. split; [exact Kl |].
           rewrite Wr, Ht. apply Two.
      * inv_ok H. destruct (Hf eq_refl) as [-> _].
        eexists. eexists. eexists. exists false. split; [reflexivity |].
        split; [reflexivity |].
        split; [intros _; split; reflexivity | discriminate].
Qed.

(** ** The invariant of a tree built in memory *)

(** Every node that the tree holds is accounted for in the version that is
    being built, and its leaves have no children and size 1. *)
Definition treeAcct (t : Tree) : Prop :=
  match root t with
  | None => True
  | Some rt => allNodes (acct (i64 (version t + 1))) rt /\ allNodes leafSz rt
  end.

(** The number of nodes of a search tree with the leaves of [t]: every inner
    node has two children. *)
Definition treeNodes (t : Tree) : Z :=
  match root t with
  | None => 0
  | Some rt => 2 * Z.of_nat (length (leafList rt)) - 1
  end.

Definition bareLeaf (m : Node) : Prop :=
  size m = 1 /\ leftNode m = None /\ rightNode m = None.

Lemma allNodes_leaves (P : Node -> Prop) (lo hi : option slice) (n : Node) :
  wf lo hi n -> allNodes P n -> Forall P (leafList n).
Proof.
  induction 1 as [lo hi n Hleaf Ha Hb | lo hi n l r El Er Wl IHl Wr IHr Hh]; intros A.
  - rewrite leafList_eq, Hleaf. constructor; [| constructor].
    rewrite allNodes_eq in A. exact (proj1 A).
  - pose proof (wf_height _ _ _ Wl). pose proof (wf_height _ _ _ Wr).
    rewrite (leafList_inner n l r El Er) by lia.
    rewrite allNodes_eq, El, Er in A. destruct A as (_ & Al & Ar).
    apply Forall_app. split; [exact (IHl Al) | exact (IHr Ar)].
Qed.

Lemma leafList_leaves (lo hi : option slice) (n : Node) :
  wf lo hi n -> Forall (fun m => subtreeHeight m = 0) (leafList n).
Proof.
  induction 1 as [lo hi n Hleaf Ha Hb | lo hi n l r El Er Wl IHl Wr IHr Hh].
  - rewrite leafList_eq, Hleaf. constructor; [| constructor].
    apply Z.eqb_eq. exact Hleaf.
  - pose proof (wf_height _ _ _ Wl). pose proof (wf_height _ _ _ Wr).
    rewrite (leafList_inner n l r El Er) by lia.
    apply Forall_app. split; assumption.
Qed.

Lemma wf_has_a_leaf (lo hi : option slice) (n : Node) :
  wf lo hi n -> (1 <= length (leafList n))%nat.
Proof.
  induction 1 as [lo hi n Hleaf Ha Hb | lo hi n l r El Er Wl IHl Wr IHr Hh].
  - rewrite leafList_eq, Hleaf. simpl. lia.
  - pose proof (wf_height _ _ _ Wl). pose proof (wf_height _ _ _ Wr).
    rewrite (leafList_inner n l r El Er) by lia. rewrite length_app. lia.
Qed.

Lemma bare_leaves (lo hi : option slice) (n : Node) :
  wf lo hi n -> allNodes leafSz n -> Forall bareLeaf (leafList n).
Proof.
  intros W L. pose proof (allNodes_leaves leafSz lo hi n W L) as F1.
  pose proof (leafList_leaves lo hi n W) as F2.
  rewrite Forall_forall in *. intros m Hm. exact (F1 m Hm (F2 m Hm)).
Qed.

Lemma leafSz_build (lo hi : option slice) (n : Node) :
  wf lo hi n -> Forall bareLeaf (leafList n) -> allNodes leafSz n.
Proof.
  induction 1 as [lo hi n Hleaf Ha Hb | lo hi n l r El Er Wl IHl Wr IHr Hh]; intros F.
  - rewrite leafList_eq, Hleaf in F. apply Forall_cons in F as [(Hs & Hl & Hr) _].
    rewrite allNodes_eq, Hl, Hr. split; [| split; exact I].
    intros _. repeat split; assumption.
  - pose proof (wf_height _ _ _ Wl). pose proof (wf_height _ _ _ Wr).
    rewrite (leafList_inner n l r El Er) in F by lia.
    apply Forall_app in F as [Fl Fr].
    rewrite allNodes_eq, El, Er. split; [| split; [exact (IHl Fl) | exact (IHr Fr)]].
    intros E0. lia.
Qed.

Lemma size_counts (v : Z) (lo hi : option slice) (n : Node) :
  wf lo hi n -> allNodes (acct v) n -> allNodes leafSz n ->
  size n = i64 (Z.of_nat (length (leafList n))).
Proof.
  induction 1 as [lo hi n Hleaf Ha Hb | lo hi n l r El Er Wl IHl Wr IHr Hh]; intros A L.
  - rewrite leafList_eq, Hleaf. rewrite allNodes_eq in L. destruct L as [Lz _].
    assert (Hh0 : subtreeHeight n = 0) by (apply Z.eqb_eq; exact Hleaf).
    rewrite (proj1 (Lz Hh0)). reflexivity.
  - pose proof (wf_height _ _ _ Wl). pose proof (wf_height _ _ _ Wr).
    rewrite (leafList_inner n l r El Er) by lia.
    rewrite allNodes_eq, El, Er in A, L.
    destruct A as ((_ & Hsz & _) & Al & Ar). destruct L as (_ & Ll & Lr).
    rewrite (Hsz l r El Er), (IHl Al Ll), (IHr Ar Lr).
    rewrite i64_add_l, i64_add_r, length_app. f_equal. lia.
Qed.

Lemma upsert_Forall (P : Node -> Prop) (k : slice) (lf : Node) (ls : list Node) :
  P lf -> Forall P ls -> Forall P (upsert k lf ls).
Proof.
  intros Hlf. induction ls as [|x ls IH]; intros F; simpl.
  - constructor; [exact Hlf | constructor].
  - apply Forall_cons in F as [Hx F].
    destruct (Compare k (key x)).
    + constructor; assumption.
    + constructor; [exact Hlf | constructor; assumption].
    + constructor; [exact Hx | exact (IH F)].
Qed.

Lemma removeKey_Forall (P : Node -> Prop) (k : slice) (ls : list Node) :
  Forall P ls -> Forall P (removeKey k ls).
Proof.
  unfold removeKey. induction ls as [|x ls IH]; intros F; simpl; [constructor |].
  apply Forall_cons in F as [Hx F].
  destruct (negb (Equal k (key x))); [constructor; [exact Hx |] |]; exact (IH F).
Qed.

Lemma upsert_len (k : slice) (lf : Node) (ls : list Node) :
  keysIncrease ls ->
  length (upsert k lf ls) =
  if existsb (fun x => Equal k (key x)) ls then length ls else S (length ls).
Proof.
  induction ls as [|x ls IH]; intros Hs; [reflexivity |].
  simpl in Hs. destruct Hs as [Hx Hs]. simpl. unfold Equal at 1.
  destruct (Compare k (key x)) eqn:Hc; simpl.
  - reflexivity.
  - rewrite (existsb_none k Lt ls); [reflexivity | discriminate |].
    eapply Forall_impl; [exact Hx |]. simpl. intros y Hy.
    exact (klt_trans _ _ _ Hc Hy).
  - rewrite (IH Hs). destruct (existsb _ ls); reflexivity.
Qed.

Lemma removeKey_len (k : slice) (ls : list Node) :
  keysIncrease ls ->
  existsb (fun x => Equal k (key x)) ls = true ->
  S (length (removeKey k ls)) = length ls.
Proof.
  induction ls as [|x ls IH]; intros Hs He; [discriminate |].
  simpl in Hs. destruct Hs as [Hx Hs]. simpl in He.
  pose proof (removeKey_absent k ls) as Habs.
  unfold removeKey in *. simpl.
  destruct (Equal k (key x)) eqn:Hk; simpl.
  - f_equal. apply Equal_Compare in Hk.
    rewrite Habs; [reflexivity |].
    apply (existsb_none k Lt ls); [discriminate |].
    eapply Forall_impl; [exact Hx |]. simpl. intros y Hy.
    rewrite (Compare_Eq_l _ _ (key y) Hk). exact Hy.
  - f_equal. apply IH; assumption.
Qed.


Lemma Tree_Set_acct (env : Env) (k : slice) (vb : list byte) (t : Tree) :
  treeOk t -> treeAcct t -> poolFits 2 (pool t) ->
  exists updated t',
    Tree_Set env k (Some vb) t = Ok ((updated, None), t') /\
    treeAcct t' /\
    workingSize t' =
      (if updated then workingSize t
       else i64 (workingSize t + match root t with None => 1 | Some _ => 2 end)) /\
    (workingSize t = i64 (treeNodes t) -> workingSize t' = i64 (treeNodes t')).
Proof.
  intros Hok HA Hp. unfold treeOk, treeAcct, treeNodes in *.
  destruct (root t) as [rt|] eqn:Hr.
  - destruct Hok as [W Hh]. destruct HA as [A L].
    destruct (recursiveSet_ok env k vb None None rt W t I I Hh Hp)
      as (node' & lf & t1 & updated & E & P).
    destruct (recursiveSet_acct env _ k (Some vb) rt t _ t1 E eq_refl A L Hp)
      as (n2 & u2 & Eres & A' & Wt & _ & Vt).
    inversion Eres; subst n2 u2; clear Eres.
    destruct P as (Pv & Pr & Pw & Ph & _ & Pk & Pl & (L1 & L2 & L3 & L4) & _).
    rewrite (Tree_Set_root env k vb t rt _ _ _ Hr E).
    exists updated. eexists. split; [reflexivity |].
    unfold countSet. cbn [root set_metrics set_root workingSize version].
    rewrite Vt.
    assert (Blf : bareLeaf lf).
    { pose proof (allNodes_leaves _ _ _ _ Pw A') as FA.
      rewrite Pl, Forall_forall in FA.
      destruct (FA lf (proj2 (list_elem_of_In _ _) (upsert_In k lf _))) as (_ & _ & Hlh & _).
      rewrite L4 in Hlh. destruct (Hlh I) as (Hl0 & Hr0 & Hs0).
      repeat split; assumption. }
    split; [split; [exact A' |] |].
    { apply (leafSz_build None None _ Pw). rewrite Pl.
      apply upsert_Forall; [exact Blf | exact (bare_leaves _ _ _ W L)]. }
    split; [exact Wt |].
    intros Hinv. rewrite Wt, Pl, (upsert_len k lf _ (wf_keysIncrease _ _ _ W)).
    unfold hasKey in Pk. rewrite <- Pk. destruct updated; [exact Hinv |].
    rewrite Hinv, i64_add_l. f_equal. lia.
  - destruct (NewNode_ok env k (Some vb) (version t) 1 t ltac:(lia) Hp)
      as (lf & t1 & EN & _ & _ & _ & Nleaf & _).
    destruct (NewNode_inv env k (Some vb) (version t) 1 t t1 lf ltac:(lia) Hp EN)
      as (_ & Nd & Ns & Nl & Nr & Nh & _ & Nnk & NW & NV).
    rewrite (Tree_Set_empty env k vb t _ _ Hr EN).
    exists false. eexists. split; [reflexivity |].
    unfold countSet. cbn [root set_metrics set_root workingSize version].
    rewrite NV.
    split; [split; [exact (acct_bare _ lf Nd Ns Nl Nr Nnk) |] |].
    { rewrite allNodes_eq, Nl, Nr. split; [| split; exact I].
      intros _. repeat split; assumption. }
    split; [exact NW |].
    intros Hinv. rewrite NW, Hinv, leafList_eq, Nleaf. reflexivity.
Qed.

Lemma Tree_Remove_acct (env : Env) (k : slice) (t : Tree) :
  treeOk t -> treeAcct t -> freeLen t + 2 <= freeCap ->
  exists removed t',
    Tree_Remove env k t = Ok ((None, removed, None), t') /\
    treeAcct t' /\
    workingSize t' =
      (if removed
       then i64 (workingSize t + match root t' with None => -1 | Some _ => -2 end)
       else workingSize t) /\
    (workingSize t = i64 (treeNodes t) -> workingSize t' = i64 (treeNodes t')).
Proof.
  intros Hok HA Hroom. unfold treeOk, treeAcct, treeNodes in *.
  destruct (root t) as [rt|] eqn:Hr.
  - destruct Hok as [W Hh]. destruct HA as [A L].
    destruct (recursiveRemove_ok env k None None rt W t ltac:(lia) Hroom)
      as (newSelf & newKey & t1 & removed & E & P).
    destruct (recursiveRemove_acct env _ k rt t _ t1 E eq_refl A)
      as (ns & nk & val & rm & Eres & Vt & Hf & Ht).
    inversion Eres; subst ns nk val rm; clear Eres.
    destruct P as (Pv & Pr & Pk & Pf & Pt).
    rewrite (Tree_Remove_root env k t rt _ _ _ _ _ Hr E).
    destruct removed.
    + specialize (Ht eq_refl). specialize (Pt eq_refl).
      eexists. eexists. split; [reflexivity |].
      unfold countDelete. cbn [root set_metrics set_root workingSize version].
      rewrite Vt.
      destruct newSelf as [n'|].
      * destruct Ht as [A' Wt]. destruct Pt as (W' & L' & _).
        split; [split; [exact A' |] |].
        { apply (leafSz_build None None _ W'). rewrite L'.
          apply removeKey_Forall. exact (bare_leaves _ _ _ W L). }
        split; [exact Wt |].
        intros Hinv. rewrite Wt, Hinv, i64_add_l, L'. f_equal.
        pose proof (removeKey_len k (leafList rt) (wf_keysIncrease _ _ _ W)) as Hlen.
        unfold hasKey in Pk. rewrite <- Pk in Hlen. specialize (Hlen eq_refl). lia.
      * destruct Pt as (Lf & _).
        split; [exact I |]. split; [exact Ht |].
        intros Hinv. rewrite Ht, Hinv, leafList_eq, Lf. reflexivity.
    + destruct (Pf eq_refl) as (_ & _ & Et). subst t1.
      exists false, t. split; [reflexivity |]. rewrite Hr.
      split; [split; assumption |]. split; [reflexivity | intros Hinv; exact Hinv].
  - exists false, t. split.
    { unfold Tree_Remove, bind, gets, ret. rewrite Hr. reflexivity. }
    rewrite Hr. split; [exact I |]. split; [reflexivity | intros Hinv; exact Hinv].
Qed.

Lemma dirtyCount_counts (v : Z) (lo hi : option slice) (n : Node) :
  wf lo hi n -> allNodes (acct v) n ->
  dirtyCount n = Ok (i64 (2 * Z.of_nat (length (leafList n)) - 1)).
Proof.
  induction 1 as [lo hi n Hleaf Ha Hb | lo hi n l r El Er Wl IHl Wr IHr Hh]; intros A;
    rewrite dirtyCount_eq; cbv zeta.
  - rewrite allNodes_eq in A. destruct A as ((Hd & _) & _).
    rewrite Hleaf, Hd, leafList_eq, Hleaf. reflexivity.
  - pose proof (wf_height _ _ _ Wl). pose proof (wf_height _ _ _ Wr).
    rewrite allNodes_eq, El, Er in A. destruct A as ((Hd & _) & Al & Ar).
    rewrite (wf_inner_not_leaf _ _ _ _ _ Wl Wr Hh), El, Er, Hd, (IHl Al), (IHr Ar).
    rewrite (leafList_inner n l r El Er) by lia.
    simpl. rewrite length_app. f_equal.
    rewrite (i64_add_r 1), i64_add_l, i64_add_r. f_equal. lia.
Qed.

Lemma allNodes_nodeList (P : Node -> Prop) (lo hi : option slice) (n : Node) :
  wf lo hi n -> allNodes P n -> Forall P (nodeList n).
Proof.
  induction 1 as [lo hi n Hleaf Ha Hb | lo hi n l r El Er Wl IHl Wr IHr Hh]; intros A.
  - rewrite nodeList_eq, Hleaf. constructor; [| constructor].
    rewrite allNodes_eq in A. exact (proj1 A).
  - rewrite nodeList_eq, (wf_inner_not_leaf _ _ _ _ _ Wl Wr Hh), El, Er.
    rewrite allNodes_eq, El, Er in A. destruct A as (An & Al & Ar).
    constructor; [exact An |].
    apply Forall_app. split; [exact (IHl Al) | exact (IHr Ar)].
Qed.

(** The trees that [Set] and [Remove] build from a new tree, each call made
    on a search tree of height at most 125 with room in the pool. *)
Inductive builtBy (env : Env) : Tree -> Prop :=
| built_new db p : builtBy env (NewTree db p)
| built_set k vb t r t' :
    builtBy env t -> treeOk t -> poolFits 2 (pool t) ->
    Tree_Set env k (Some vb) t = Ok (r, t') -> builtBy env t'
| built_remove k t r t' :
    builtBy env t -> treeOk t -> freeLen t + 2 <= freeCap ->
    Tree_Remove env k t = Ok (r, t') -> builtBy env t'.

Lemma builtBy_inv (env : Env) (t : Tree) :
  builtBy env t ->
  treeAcct t /\ workingSize t = i64 (treeNodes t) /\
  (forall rt, root t = Some rt -> wf None None rt) /\
  version t = 0 /\ lastCheckpoint t = 0.
Proof.
  induction 1 as [db p | k vb t r t' B IH Hok Hp E | k t r t' B IH Hok Hroom E].
  - split; [exact I |]. split; [reflexivity |].
    split; [intros rt Hr; discriminate Hr | split; reflexivity].
  - destruct IH as (HA & HW & _ & HV & HC).
    pose proof (keeps_Tree_Set env k (Some vb) t r t' E : storeFrame t t')
      as (FV & _ & FC & _).
    destruct (Tree_Set_acct env k vb t Hok HA Hp) as (upd & t1 & E1 & HA1 & _ & HW1).
    rewrite E1 in E. inversion E; subst r t1; clear E.
    split; [exact HA1 |]. split; [exact (HW1 HW) |].
    split; [| split; congruence].
    destruct (Tree_Set_full env k vb t 0 ltac:(lia) Hp Hok)
      as (upd2 & lf & rt1 & t2 & E2 & _ & Hr2 & W2 & _).
    rewrite E1 in E2. inversion E2; subst upd2 t2; clear E2.
    intros rt Hr. rewrite Hr2 in Hr. inversion Hr; subst. exact W2.
  - destruct IH as (HA & HW & _ & HV & HC).
    pose proof (keeps_Tree_Remove env k t r t' E : storeFrame t t')
      as (FV & _ & FC & _).
    destruct (Tree_Remove_acct env k t Hok HA Hroom) as (rm & t1 & E1 & HA1 & _ & HW1).
    rewrite E1 in E. inversion E; subst r t1; clear E.
    split; [exact HA1 |]. split; [exact (HW1 HW) |].
    split; [| split; congruence].
    destruct (Tree_Remove_ok env k t Hok Hroom) as (rm2 & t2 & E2 & _ & _ & _ & Hok2 & _).
    rewrite E1 in E2. inversion E2; subst rm2 t2; clear E2.
    intros rt Hr. unfold treeOk in Hok2. rewrite Hr in Hok2. exact (proj1 Hok2).
Qed.

Lemma asyncCheckpoint_queues (env : Env) (t : Tree) (rt : Node)
    (copies : list Node) (p' : nodePool) :
  root t = Some rt ->
  buildCheckpoint env rt (mkArgs [] [] (version t)) t =
    Ok ((detached rt, mkArgs ([] ++ copies) [] (version t)), set_pool p' t) ->
  i64 (Z.of_nat (length copies)) = workingSize t ->
  asyncCheckpoint env t =
  Ok (None,
      set_checkpointerCh (checkpointerCh t ++ [mkArgs copies [] (version t)])
        (set_root (Some (detached rt)) (set_pool p' t))).
Proof.
  intros Hr EB Hb. unfold asyncCheckpoint.
  unfold gets at 1. unfold bind at 1. unfold gets at 1. unfold bind at 1. rewrite Hr.
  rewrite (bind_eq _ _ _ (bind_eq _ _ _ EB)).
  unfold modify at 1. unfold bind at 1. unfold ret at 1.
  unfold gets at 1. unfold bind at 1.
  cbn [snd fst argsSet app workingSize set_root set_pool].
  rewrite Hb, Z.eqb_refl. reflexivity.
Qed.

Lemma exTree2_acct : treeAcct exTree2.
Proof.
  unfold treeAcct.
  assert (Er : root exTree2 = Some exRoot2) by (vm_compute; reflexivity).
  assert (El2 : leftNode exRoot2 = Some exLeft2) by (vm_compute; reflexivity).
  assert (Er2 : rightNode exRoot2 = Some exRight2) by (vm_compute; reflexivity).
  rewrite Er. split.
  - rewrite allNodes_eq, El2, Er2. split; [| split].
    + split; [vm_compute; reflexivity |]. split; [| split].
      * intros l r E1 E2. rewrite El2 in E1. rewrite Er2 in E2.
        injection E1 as <-. injection E2 as <-. vm_compute. reflexivity.
      * intros H. vm_compute in H. destruct H.
      * vm_compute. reflexivity.
    + apply acct_bare; vm_compute; reflexivity.
    + apply acct_bare; vm_compute; reflexivity.
  - apply (leafSz_build None None _ exRoot2_wf).
    assert (LL : leafList exRoot2 = [exLeft2; exRight2]) by (vm_compute; reflexivity).
    rewrite LL. repeat constructor; vm_compute; reflexivity.
Qed.

Lemma exPool_fits1 : poolFits 2 (pool exTree1).
Proof.
  split; [| split; [vm_compute; discriminate | vm_compute; discriminate]].
  unfold pool_ok. vm_compute free.
  repeat constructor; eexists; (split; [vm_compute; reflexivity | repeat split]).
Qed.

Lemma exTree2_built : builtBy exEnv exTree2.
Proof.
  apply (built_set exEnv (str "b") (list_byte_of_string "2") exTree1
           (false, None) exTree2).
  - apply (built_set exEnv (str "a") (list_byte_of_string "1") exTree0
             (false, None) exTree1).
    + apply built_new.
    + exact I.
    + exact exPool_fits0.
    + vm_compute. reflexivity.
  - unfold treeOk. vm_compute. split; [| discriminate].
    apply wf_leaf; [reflexivity | exact I | exact I].
  - exact exPool_fits1.
  - vm_compute. reflexivity.
Qed.

(** X23.  In a tree that [Set] and [Remove] have built from a new tree and
    that is not empty, [Size] returns the number of keys (as an int64) and
    leaves the tree as it is, and [dirtyCount] of the root returns the
    counter of the working set, which is the number of nodes of the tree:
    every node is dirty and counted once. *)
Theorem built_tree_counts (env : Env) (t : Tree) (rt : Node) :
  builtBy env t -> root t = Some rt ->
  Tree_Size t = Ok (i64 (Z.of_nat (length (treeLeaves t))), t) /\
  dirtyCount rt = Ok (workingSize t) /\
  workingSize t = i64 (2 * Z.of_nat (length (treeLeaves t)) - 1).
Proof.
  intros B Hr. destruct (builtBy_inv env t B) as (HA & HW & Hwf & _).
  pose proof (Hwf rt Hr) as W.
  unfold treeAcct, treeNodes, treeLeaves, Tree_Size, bind, gets, ret in *.
  rewrite Hr in *. destruct HA as [A L].
  split; [rewrite (size_counts _ None None rt W A L); reflexivity |].
  split; [rewrite HW; exact (dirtyCount_counts _ None None rt W A) | exact HW].
Qed.

Lemma built_tree_counts_witness :
  Tree_Size exTree2 = Ok (i64 (Z.of_nat (length (treeLeaves exTree2))), exTree2) /\
  dirtyCount exRoot2 = Ok (workingSize exTree2) /\
  workingSize exTree2 = i64 (2 * Z.of_nat (length (treeLeaves exTree2)) - 1).
Proof.
  apply (built_tree_counts exEnv exTree2 exRoot2).
  - exact exTree2_built.
  - vm_compute. reflexivity.
Defined.

(** X24.  [Set] keeps the invariant of a tree held in memory (dirty nodes
    with node keys of the version being built, sizes that add up, leaves
    without children), and it counts the nodes it adds to the working set:
    none when the key was present, one for the first key of an empty tree,
    two otherwise (the leaf and its new parent).  So a counter that equals
    the number of nodes of the tree does so again after the call. *)
Theorem Set_counts_the_nodes_it_adds
    (env : Env) (k : slice) (vb : list byte) (t : Tree) :
  treeOk t -> treeAcct t -> poolFits 2 (pool t) ->
  exists updated t',
    Tree_Set env k (Some vb) t = Ok ((updated, None), t') /\
    treeAcct t' /\
    workingSize t' =
      (if updated then workingSize t
       else i64 (workingSize t + match root t with None => 1 | Some _ => 2 end)) /\
    (workingSize t = i64 (treeNodes t) -> workingSize t' = i64 (treeNodes t')).
Proof. exact (Tree_Set_acct env k vb t). Qed.

Lemma Set_counts_the_nodes_it_adds_witness :
  exists updated t',
    Tree_Set exEnv (str "c") (Some (list_byte_of_string "3")) exTree2
      = Ok ((updated, None), t') /\
    treeAcct t' /\
    workingSize t' =
      (if updated then workingSize exTree2
       else i64 (workingSize exTree2 +
                 match root exTree2 with None => 1 | Some _ => 2 end)) /\
    (workingSize exTree2 = i64 (treeNodes exTree2) ->
     workingSize t' = i64 (treeNodes t')).
Proof.
  apply (Set_counts_the_nodes_it_adds exEnv (str "c") (list_byte_of_string "3") exTree2).
  - exact exTree2_ok.
  - exact exTree2_acct.
  - exact exPool_fits.
Defined.

(** X25.  [Remove] keeps the invariant of a tree held in memory, and it
    counts the nodes it takes from the working set: none when the key was
    absent, one when the last leaf goes, two otherwise (the leaf and its
    parent).  So a counter that equals the number of nodes of the tree does
    so again after the call. *)
Theorem Remove_counts_the_nodes_it_drops (env : Env) (k : slice) (t : Tree) :
  treeOk t -> treeAcct t -> freeLen t + 2 <= freeCap ->
  exists removed t',
    Tree_Remove env k t = Ok ((None, removed, None), t') /\
    treeAcct t' /\
    workingSize t' =
      (if removed
       then i64 (workingSize t + match root t' with None => -1 | Some _ => -2 end)
       else workingSize t) /\
    (workingSize t = i64 (treeNodes t) -> workingSize t' = i64 (treeNodes t')).
Proof. exact (Tree_Remove_acct env k t). Qed.

Lemma Remove_counts_the_nodes_it_drops_witness :
  exists removed t',
    Tree_Remove exEnv (str "a") exTree2 = Ok ((None, removed, None), t') /\
    treeAcct t' /\
    workingSize t' =
      (if removed
       then i64 (workingSize exTree2 +
                 match root t' with None => -1 | Some _ => -2 end)
       else workingSize exTree2) /\
    (workingSize exTree2 = i64 (treeNodes exTree2) ->
     workingSize t' = i64 (treeNodes t')).
Proof.
  apply (Remove_counts_the_nodes_it_drops exEnv (str "a") exTree2).
  - exact exTree2_ok.
  - exact exTree2_acct.
  - vm_compute. discriminate.
Defined.


Definition exTreeW0 : Tree := NewTree (Some okDb) exPool8.
Definition exTreeW1 : Tree :=
  run exTree0 (Tree_Set exEnv (str "a") (str "1")) exTreeW0.

Lemma exTreeW_built : builtBy exEnv exTreeW.
Proof.
  apply (built_set exEnv (str "b") (list_byte_of_string "2") exTreeW1
           (false, None) exTreeW).
  - apply (built_set exEnv (str "a") (list_byte_of_string "1") exTreeW0
             (false, None) exTreeW1).
    + apply built_new.
    + exact I.
    + split; [| split; [vm_compute; discriminate | vm_compute; discriminate]].
      unfold pool_ok. vm_compute free.
      repeat constructor; eexists; (split; [vm_compute; reflexivity | repeat split]).
    + vm_compute. reflexivity.
  - unfold treeOk. vm_compute. split; [| discriminate].
    apply wf_leaf; [reflexivity | exact I | exact I].
  - split; [| split; [vm_compute; discriminate | vm_compute; discriminate]].
    unfold pool_ok. vm_compute free.
    repeat constructor; eexists; (split; [vm_compute; reflexivity | repeat split]).
  - vm_compute. reflexivity.
Qed.

